(** * Elaara meeting archive: store, export/import, cost ledger, chunk combiner

    A shallow embedding of [src/lib/db.ts], [src/lib/costs.ts], the export
    module, the Whisper chunk combiner and the types they share, followed by
    the properties of the specification that concern them.

    Conventions of the embedding.
    - An [async] function is modelled by the function from the state before
      the call to the state after it: the repository awaits every store call
      before issuing the next one.
    - A function that may [throw] returns a [Result].
    - [new Date()] and [crypto.randomUUID()] are inputs: the caller of the
      model supplies the clock reading and the generated identifier.
    - What ECMAScript leaves to the engine, the reading of a date text that
      [toISOString] does not write, is a parameter of the model ([Host]).
    - JavaScript strings are sequences of code units below 256 (Latin-1),
      on which [toLowerCase] and [trim] act one code unit at a time. The
      functions of the search are also given on a wider range of strings
      ([Unicode]), where they do not.
    - JavaScript numbers that the code adds up (costs, counters, the total
      of the durations) are IEEE 754 binary64 values; the duration of a
      meeting is an integer number of seconds, as the data model of the
      specification has it. *)

From Stdlib Require Import ZArith Floats Ascii String Lia Bool.
From stdpp Require Import base option list gmap strings sorting pretty.

Local Open Scope string_scope.
Local Open Scope Z_scope.

(** ** Exceptions *)

Inductive Exception : Type :=
| Error (message : string)   (* throw new Error(message) *)
| RangeError                 (* Date.prototype.toISOString on an invalid date *)
| SyntaxError                (* JSON.parse on a text that is not well-formed JSON *)
| TypeError.                 (* the read of a property of undefined or null *)

Inductive Result (A : Type) : Type :=
| Ok (a : A)
| Throw (e : Exception).
Arguments Ok {A} a.
Arguments Throw {A} e.

(** [x ← r; k] runs [k] on the value of [r] and propagates what [r] throws. *)
#[global] Instance Result_bind : MBind Result := fun A B k r =>
  match r with
  | Ok a => k a
  | Throw e => Throw e
  end.

(** ** Blob *)

Record Blob : Type := mkBlob {
  blob_bytes : list Byte.byte;
  blob_type : string
}.

(** [new Blob()] *)
Definition new_Blob : Blob := {| blob_bytes := []; blob_type := "" |}.

Definition blob_size (b : Blob) : nat := length (blob_bytes b).

(** ** Date

    A [Date] object holds a time value: a number of milliseconds since the
    epoch within 8.64e15 of it, or NaN (an invalid date). *)

Inductive JSDate : Type :=
| InvalidDate
| DateAt (t : Z).

Definition maxTime : Z := 8640000000000000.

Definition time_in_range (t : Z) : Prop := - maxTime <= t <= maxTime.

Definition valid_date (d : JSDate) : Prop :=
  match d with
  | InvalidDate => False
  | DateAt t => time_in_range t
  end.

(** TimeClip of ECMAScript. *)
Definition TimeClip (t : Z) : JSDate :=
  if (- maxTime <=? t) && (t <=? maxTime) then DateAt t else InvalidDate.

(** [getTime()]: [None] stands for NaN. *)
Definition getTime (d : JSDate) : option Z :=
  match d with
  | InvalidDate => None
  | DateAt t => Some t
  end.

Definition msPerDay : Z := 86400000.

(** The proleptic Gregorian calendar, by 400-year eras of 146097 days that
    start on 1 March: day of era to (year of era, month, day). *)
Definition ymd_of_doe (doe : Z) : Z * Z * Z :=
  let yoe := (doe - doe / 1460 + doe / 36524 - doe / 146096) / 365 in
  let doy := doe - (365 * yoe + yoe / 4 - yoe / 100) in
  let mp := (5 * doy + 2) / 153 in
  let d := doy - (153 * mp + 2) / 5 + 1 in
  let m := if mp <? 10 then mp + 3 else mp - 9 in
  (yoe, m, d).

Definition doe_of_ymd (yoe m d : Z) : Z :=
  let mp := if 2 <? m then m - 3 else m + 9 in
  let doy := (153 * mp + 2) / 5 + d - 1 in
  yoe * 365 + yoe / 4 - yoe / 100 + doy.

(** Days since 1970-01-01 to (year, month 1..12, day 1..31). *)
Definition civil_from_days (z : Z) : Z * Z * Z :=
  let z := z + 719468 in
  let era := z / 146097 in
  let '(yoe, m, d) := ymd_of_doe (z mod 146097) in
  (yoe + era * 400 + (if m <=? 2 then 1 else 0), m, d).

Definition days_from_civil (y m d : Z) : Z :=
  let y := y - (if m <=? 2 then 1 else 0) in
  (y / 400) * 146097 + doe_of_ymd (y mod 400) m d - 719468.

(** [p] holds of the [fuel] integers from [z] on. *)
Fixpoint all_from (fuel : nat) (z : Z) (p : Z -> bool) : bool :=
  match fuel with
  | O => true
  | S f => p z && all_from f (z + 1) p
  end.

(** The day [doe] of an era has a year of the era, a month and a day in
    range, and [doe_of_ymd] leads back to it. *)
Definition era_day_ok (doe : Z) : bool :=
  let '(yoe, m, d) := ymd_of_doe doe in
  (0 <=? yoe) && (yoe <=? 399) && (1 <=? m) && (m <=? 12)
  && (1 <=? d) && (d <=? 31) && (doe_of_ymd yoe m d =? doe).

(** Decimal digits. *)
Definition digit (n : Z) : ascii := ascii_of_N (48 + Z.to_N n).

Fixpoint pad (k : nat) (n : Z) : string :=
  match k with
  | O => EmptyString
  | S k' => String (digit (n / 10 ^ Z.of_nat k')) (pad k' (n mod 10 ^ Z.of_nat k'))
  end.

Definition is_digit (c : ascii) : bool :=
  ((48 <=? N_of_ascii c) && (N_of_ascii c <=? 57))%N.

(** [digit n] is a digit that reads back as [n], and is not a sign. *)
Definition digit_ok (n : Z) : bool :=
  is_digit (digit n) && (Z.of_N (N_of_ascii (digit n)) - 48 =? n)
  && negb (Ascii.eqb (digit n) "+") && negb (Ascii.eqb (digit n) "-").

Fixpoint read_digits (k : nat) (acc : Z) (s : string) : option (Z * string) :=
  match k with
  | O => Some (acc, s)
  | S k' =>
      match s with
      | String c s' =>
          if is_digit c
          then read_digits k' (10 * acc + (Z.of_N (N_of_ascii c) - 48)) s'
          else None
      | EmptyString => None
      end
  end.

Definition expect (c : ascii) (s : string) : option string :=
  match s with
  | String c' s' => if Ascii.eqb c c' then Some s' else None
  | EmptyString => None
  end.

(** The year of the ISO format: four digits from 0 to 9999, otherwise a sign
    and six digits. *)
Definition iso_year (y : Z) : string :=
  if (0 <=? y) && (y <=? 9999) then pad 4 y
  else if y <? 0 then String "-" (pad 6 (- y))
  else String "+" (pad 6 y).

Definition read_year (s : string) : option (Z * string) :=
  match s with
  | String c s' =>
      if Ascii.eqb c "+" then read_digits 6 0 s'
      else if Ascii.eqb c "-" then
        match read_digits 6 0 s' with
        | Some (y, rest) => Some (- y, rest)
        | None => None
        end
      else read_digits 4 0 s
  | EmptyString => None
  end.

(** The text of [toISOString] for a time value: YYYY-MM-DDTHH:mm:ss.sssZ. *)
Definition iso_of_time (t : Z) : string :=
  let '(y, m, d) := civil_from_days (t / msPerDay) in
  let r := t mod msPerDay in
  iso_year y ++ "-" ++ pad 2 m ++ "-" ++ pad 2 d ++ "T"
    ++ pad 2 (r / 3600000) ++ ":" ++ pad 2 (r / 60000 mod 60) ++ ":"
    ++ pad 2 (r / 1000 mod 60) ++ "." ++ pad 3 (r mod 1000) ++ "Z".

(** [date.toISOString()]: a RangeError on an invalid date. *)
Definition toISOString (d : JSDate) : Result string :=
  match d with
  | InvalidDate => Throw RangeError
  | DateAt t => Ok (iso_of_time t)
  end.

(** The time a text in the simplified ISO format denotes, its fields read
    without range checks. *)
Definition read_iso (s : string) : option Z :=
  '(y, s) ← read_year s;
  s ← expect "-" s;
  '(m, s) ← read_digits 2 0 s;
  s ← expect "-" s;
  '(d, s) ← read_digits 2 0 s;
  s ← expect "T" s;
  '(hh, s) ← read_digits 2 0 s;
  s ← expect ":" s;
  '(mm, s) ← read_digits 2 0 s;
  s ← expect ":" s;
  '(ss, s) ← read_digits 2 0 s;
  s ← expect "." s;
  '(ms, s) ← read_digits 3 0 s;
  s ← expect "Z" s;
  match s with
  | EmptyString =>
      Some (days_from_civil y m d * msPerDay
            + hh * 3600000 + mm * 60000 + ss * 1000 + ms)
  | _ => None
  end.

(** The engine that runs the program. [Date.parse] on a text that is not in
    the format of [toISOString] is left to the engine by ECMAScript (other
    ISO forms are read in the local time zone or with engine-specific
    leniency, other texts by heuristics of the engine):
    [Date_parse_fallback] is its answer, a time value or NaN ([None]). *)
Class Host : Type := {
  Date_parse_fallback : string -> option Z
}.

(** [new Date(text)]: the time value of [Date.parse(text)], clipped.
    ECMAScript fixes the value for the format that [toISOString] writes: a
    text that is the [toISOString] rendering of the time it denotes (so not
    a month 13 or a 30 February) denotes that time. Every other text is
    read by the engine. *)
Definition Date_parse `{Host} (s : string) : JSDate :=
  match read_iso s with
  | Some t =>
      if String.eqb (iso_of_time t) s then TimeClip t
      else match Date_parse_fallback s with
           | Some t' => TimeClip t'
           | None => InvalidDate
           end
  | None =>
      match Date_parse_fallback s with
      | Some t' => TimeClip t'
      | None => InvalidDate
      end
  end.

(** ** Strings and arrays *)

(** [toLowerCase] on code units below 256: the letters A to Z, and the
    capital letters of Latin-1 (0xC0 to 0xDE without the multiplication
    sign 0xD7), move up by 32; the text keeps its length. Beyond Latin-1
    the lower case of a letter can depend on its neighbours: see
    [Unicode.toLowerCase] below, which gives the same on these strings. *)
Definition toLowerCase_unit (c : ascii) : ascii :=
  let n := N_of_ascii c in
  if ((65 <=? n) && (n <=? 90)
      || (192 <=? n) && (n <=? 222) && negb (n =? 215))%N
  then ascii_of_N (n + 32) else c.

Fixpoint toLowerCase (s : string) : string :=
  match s with
  | EmptyString => EmptyString
  | String c s' => String (toLowerCase_unit c) (toLowerCase s')
  end.

(** [s.includes(sub)]: [sub] occurs in [s] at some position. *)
Fixpoint includes (s sub : string) : bool :=
  String.prefix sub s
  || match s with
     | EmptyString => false
     | String _ s' => includes s' sub
     end.

(** [array.some(p)] *)
Definition some {A : Type} (p : A -> bool) (l : list A) : bool := existsb p l.

(** [array.sort(compare)]. ECMAScript asks for a stable sort, so for a
    consistent comparator the result is that of a stable insertion sort: an
    element goes before the first element of the sorted rest that it does not
    come after. *)
Fixpoint sort_insert {A : Type} (compare : A -> A -> Z) (x : A) (l : list A) : list A :=
  match l with
  | [] => [x]
  | y :: l' => if compare x y <=? 0 then x :: l else y :: sort_insert compare x l'
  end.

Definition Array_sort {A : Type} (compare : A -> A -> Z) (l : list A) : list A :=
  foldr (sort_insert compare) [] l.

(** ** Types ([types.ts]) *)

Module Speaker.
Record t : Type := mk {
  id : string;
  name : string;
  color : string
}.
End Speaker.

Inductive Priority : Type := high | medium | low.

Module ActionItem.
Record t : Type := mk {
  task : string;
  owner : string;
  deadline : option string;
  priority : option Priority
}.
End ActionItem.

Inductive ClaudeModel : Type := haiku | sonnet.

Module Summary.
Record t : Type := mk {
  executive : string;
  keyPoints : list string;
  actionItems : list ActionItem.t;
  decisions : list string;
  questions : list string;
  category : string;
  tags : list string;
  generatedAt : JSDate;
  model : ClaudeModel
}.
End Summary.

Module SummaryDB.
Record t : Type := mk {
  executive : string;
  keyPoints : list string;
  actionItems : list ActionItem.t;
  decisions : list string;
  questions : list string;
  category : string;
  tags : list string;
  generatedAt : string;   (* ISO string *)
  model : ClaudeModel
}.
End SummaryDB.

Module Meeting.
Record t : Type := mk {
  id : string;
  title : string;
  date : JSDate;
  duration : Z;            (* seconds *)
  audioBlob : Blob;
  transcript : string;
  summary : option Summary.t;
  speakers : list Speaker.t;
  tags : list string;
  category : string;
  archived : bool;         (* if true, audioBlob deleted to save space *)
  createdAt : JSDate;
  updatedAt : JSDate
}.
End Meeting.

Module MeetingDB.
Record t : Type := mk {
  id : string;
  title : string;
  date : string;           (* ISO string *)
  duration : Z;
  audioBlob : option Blob; (* null if archived *)
  transcript : string;
  summary : option SummaryDB.t;
  speakers : list Speaker.t;
  tags : list string;
  category : string;
  archived : bool;
  createdAt : string;      (* ISO string *)
  updatedAt : string       (* ISO string *)
}.
End MeetingDB.

(** [Partial<Meeting>]: a field that is [None] is absent (undefined). *)
Module PartialMeeting.
Record t : Type := mk {
  id : option string;
  title : option string;
  date : option JSDate;
  duration : option Z;
  audioBlob : option Blob;
  transcript : option string;
  summary : option Summary.t;
  speakers : option (list Speaker.t);
  tags : option (list string);
  category : option string;
  archived : option bool;
  createdAt : option JSDate;
  updatedAt : option JSDate
}.

(** The object literal [{}]. *)
Definition empty : t :=
  mk None None None None None None None None None None None None None.
End PartialMeeting.

(** [Partial<MeetingDB>], the fields that [updateMeeting] may set. *)
Module PartialMeetingDB.
Record t : Type := mk {
  title : option string;
  transcript : option string;
  speakers : option (list Speaker.t);
  tags : option (list string);
  category : option string;
  archived : option bool;
  duration : option Z;
  audioBlob : option Blob;
  date : option string;
  summary : option SummaryDB.t
}.
End PartialMeetingDB.

Module CostTrackingDB.
Record t : Type := mk {
  month : string;               (* such as 2025-10 *)
  transcriptionCost : float;
  summarizationCost : float;
  meetingCount : float;
  totalCost : float;
  lastUpdated : string          (* ISO string *)
}.
End CostTrackingDB.

Module Metadata.
Record t : Type := mk {
  id : string;
  title : string;
  date : string;
  duration : Z;
  speakers : list Speaker.t;
  tags : list string;
  category : string;
  archived : bool;
  createdAt : string;
  updatedAt : string
}.
End Metadata.

Module ExportedMeeting.
Record t : Type := mk {
  metadata : Metadata.t;
  transcript : string;
  summary : option SummaryDB.t;
  hasAudio : bool
}.
End ExportedMeeting.

(** [start] and [end] are time stamps in seconds, of a type [num] of
    numbers that the combiner is written over. *)
Module WhisperSegment.
Section Segment.
Context {num : Type}.
Record t : Type := mk {
  id : Z;
  seek : Z;
  start : num;
  end_ : num;
  text : string;
  tokens : list Z;
  temperature : float;
  avg_logprob : float;
  compression_ratio : float;
  no_speech_prob : float
}.
End Segment.
Arguments t : clear implicits.
End WhisperSegment.

Module WhisperResponse.
Record t (num : Type) : Type := mk {
  text : string;
  segments : option (list (WhisperSegment.t num))
}.
Arguments mk {num} _ _.
Arguments text {num} _.
Arguments segments {num} _.
End WhisperResponse.

Module CostTracking.
Record t : Type := mk {
  month : string;
  transcriptionCost : float;
  summarizationCost : float;
  meetingCount : float;
  totalCost : float;
  lastUpdated : JSDate
}.
End CostTracking.

(** What [getStorageUsage] returns, a value the browser provides. *)
Record StorageInfo : Type := mkStorageInfo {
  used : float;
  quota : float;
  percentage : float
}.

Module DatabaseStats.
Record t : Type := mk {
  totalMeetings : nat;
  archivedMeetings : nat;
  totalDuration : float;   (* seconds *)
  storageInfo : StorageInfo
}.
End DatabaseStats.

(** A group of consecutive segments of one speaker ([whisper.ts]). *)
Module SpeakerGroup.
Record t : Type := mk {
  speakerId : nat;
  segments : list (WhisperSegment.t float);
  text : string;
  startTime : float;
  endTime : float
}.
End SpeakerGroup.

(** What [retry] does between two attempts: the call of [onRetry], when
    one is given, with the error and the number of the attempt to come, and
    the sleep of so many milliseconds. *)
Module RetryEvent.
Record t : Type := mk {
  error : Exception;
  attempt : nat;
  slept : Z
}.
End RetryEvent.

(** ** Texts beyond Latin-1

    The strings of this development hold code units below 256. The
    functions of [searchMeetings] are given here a second time on a wider
    range of JavaScript strings, on which the lower-casing of a letter can
    depend on its neighbours: sequences of UTF-16 code units that are
    below 256 or letters of the Greek alphabet. On the strings above the
    two readings agree. *)
Module Unicode.

Definition text : Type := list N.

Definition of_latin1 (s : string) : text := map N_of_ascii (list_ascii_of_string s).

(** The code units that this reading knows: U+0000 to U+00FF, the capital
    letters U+0391 to U+03A9 (U+03A2 is not assigned) and the small
    letters U+03B1 to U+03C9. *)
Definition known (c : N) : bool :=
  ((c <? 256) || (913 <=? c) && (c <=? 937) && negb (c =? 930)
   || (945 <=? c) && (c <=? 969))%N.

(** The property Cased of Unicode on the known units: the letters. *)
Definition is_cased (c : N) : bool :=
  ((65 <=? c) && (c <=? 90) || (97 <=? c) && (c <=? 122)
   || (c =? 170) || (c =? 181) || (c =? 186)
   || (192 <=? c) && (c <=? 214) || (216 <=? c) && (c <=? 246)
   || (248 <=? c) && (c <=? 255) || (913 <=? c))%N.

(** The property Case_Ignorable of Unicode on the known units: the
    apostrophe, the full stop, the colon, the circumflex, the grave
    accent, the diaeresis, the soft hyphen, the macron, the acute accent,
    the middle dot and the cedilla. *)
Definition is_case_ignorable (c : N) : bool :=
  existsb (N.eqb c) [39; 46; 58; 94; 96; 168; 173; 175; 180; 183; 184]%N.

(** The lower-case mapping of a known unit other than the capital sigma. *)
Definition toLowerCase_unit (c : N) : N :=
  if ((65 <=? c) && (c <=? 90) || (192 <=? c) && (c <=? 222) && negb (c =? 215)
      || (913 <=? c) && (c <=? 937))%N
  then (c + 32)%N else c.

(** The first unit of [l] that is not case-ignorable is cased. *)
Fixpoint cased_next (l : text) : bool :=
  match l with
  | [] => false
  | c :: l' => if is_case_ignorable c then cased_next l' else is_cased c
  end.

(** The condition Final_Sigma of Unicode: a cased letter comes before,
    case-ignorable units apart, and none comes after. [before] is the text
    before the sigma, the nearest unit first. *)
Definition final_sigma (before after : text) : bool :=
  cased_next before && negb (cased_next after).

Definition capital_sigma : N := 931.
Definition small_sigma : N := 963.
Definition small_final_sigma : N := 962.

Fixpoint lower_from (before s : text) : text :=
  match s with
  | [] => []
  | c :: rest =>
      (if (c =? capital_sigma)%N
       then if final_sigma before rest then small_final_sigma else small_sigma
       else toLowerCase_unit c)
      :: lower_from (c :: before) rest
  end.

(** [s.toLowerCase()], for a text of known units. *)
Definition toLowerCase (s : text) : option text :=
  if forallb known s then Some (lower_from [] s) else None.

Fixpoint starts_with (sub s : text) : bool :=
  match sub, s with
  | [], _ => true
  | c :: sub', d :: s' => (c =? d)%N && starts_with sub' s'
  | _ :: _, [] => false
  end.

(** [s.includes(sub)] *)
Fixpoint includes (s sub : text) : bool :=
  starts_with sub s
  || match s with
     | [] => false
     | _ :: s' => includes s' sub
     end.

(** The fields of a meeting that [searchMeetings] reads. *)
Record Searched : Type := mkSearched {
  title : text;
  transcript : text;
  tags : list text;
  summary : option (text * list text)   (* executive, keyPoints *)
}.

(** The texts of a list in lower case, when all are known. *)
Fixpoint all_toLowerCase (l : list text) : option (list text) :=
  match l with
  | [] => Some []
  | s :: l' =>
      match toLowerCase s, all_toLowerCase l' with
      | Some s', Some l'' => Some (s' :: l'')
      | _, _ => None
      end
  end.

(** The filter of [searchMeetings] on a meeting with the texts [m], for
    the query [query]; [None] when a text is not of known units. *)
Definition matches_query (query : text) (m : Searched) : option bool :=
  match toLowerCase query, toLowerCase (title m), toLowerCase (transcript m),
        all_toLowerCase (tags m) with
  | Some lowerQuery, Some title, Some transcript, Some tags =>
      let first_three :=
        includes title lowerQuery
        || includes transcript lowerQuery
        || existsb (fun tag => includes tag lowerQuery) tags in
      match summary m with
      | None => Some first_three
      | Some (executive, keyPoints) =>
          match toLowerCase executive, all_toLowerCase keyPoints with
          | Some executive, Some keyPoints =>
              Some (first_three
                    || includes executive lowerQuery
                    || existsb (fun kp => includes kp lowerQuery) keyPoints)
          | _, _ => None
          end
      end
  | _, _, _, _ => None
  end.

(** The texts of a meeting of the development. *)
Definition searched (meeting : Meeting.t) : Searched :=
  {| title := of_latin1 (Meeting.title meeting);
     transcript := of_latin1 (Meeting.transcript meeting);
     tags := map of_latin1 (Meeting.tags meeting);
     summary :=
       match Meeting.summary meeting with
       | Some s =>
           Some (of_latin1 (Summary.executive s), map of_latin1 (Summary.keyPoints s))
       | None => None
       end |}.

(** The title ΟΔΟΣΕΙΣ and the query ΟΔΟΣ. *)
Definition odoseis : text := [927; 916; 927; 931; 917; 921; 931]%N.
Definition odos : text := [927; 916; 927; 931]%N.

End Unicode.
(** * The program

    Everything from here on is written for an arbitrary engine [host]. *)

Section Program.
Context {host : Host}.


(** ** The store ([db.ts])

    The IndexedDB database holds two object stores: [meetings], keyed by
    [id], and [costs], keyed by [month]. [put] is an insertion that replaces
    the record under the same key. *)

Record Store : Type := mkStore {
  meetings : gmap string MeetingDB.t;
  costs : gmap string CostTrackingDB.t
}.

(** A database just created. *)
Definition empty_store : Store := {| meetings := ∅; costs := ∅ |}.

Definition put_meeting (st : Store) (r : MeetingDB.t) : Store :=
  {| meetings := <[MeetingDB.id r := r]> (meetings st); costs := costs st |}.

Definition put_cost (st : Store) (c : CostTrackingDB.t) : Store :=
  {| meetings := meetings st; costs := <[CostTrackingDB.month c := c]> (costs st) |}.

(** [db.getAllFromIndex('meetings', index)]: the records in the order of
    the index key, then of the primary key. *)
Definition index_leb (key : MeetingDB.t -> string) (a b : MeetingDB.t) : bool :=
  match String.compare (key a) (key b) with
  | Lt => true
  | Eq => String.leb (MeetingDB.id a) (MeetingDB.id b)
  | Gt => false
  end.

Definition getAllFromIndex (st : Store) (key : MeetingDB.t -> string) : list MeetingDB.t :=
  merge_sort (fun a b => Is_true (index_leb key a b)) (map snd (map_to_list (meetings st))).

(** Convert Summary to SummaryDB *)
Definition summaryToDB (summary : Summary.t) : Result SummaryDB.t :=
  generatedAt ← toISOString (Summary.generatedAt summary);
  Ok {| SummaryDB.executive := Summary.executive summary;
        SummaryDB.keyPoints := Summary.keyPoints summary;
        SummaryDB.actionItems := Summary.actionItems summary;
        SummaryDB.decisions := Summary.decisions summary;
        SummaryDB.questions := Summary.questions summary;
        SummaryDB.category := Summary.category summary;
        SummaryDB.tags := Summary.tags summary;
        SummaryDB.generatedAt := generatedAt;
        SummaryDB.model := Summary.model summary |}.

(** Convert SummaryDB to Summary *)
Definition dbToSummary (db : SummaryDB.t) : Summary.t :=
  {| Summary.executive := SummaryDB.executive db;
     Summary.keyPoints := SummaryDB.keyPoints db;
     Summary.actionItems := SummaryDB.actionItems db;
     Summary.decisions := SummaryDB.decisions db;
     Summary.questions := SummaryDB.questions db;
     Summary.category := SummaryDB.category db;
     Summary.tags := SummaryDB.tags db;
     Summary.generatedAt := Date_parse (SummaryDB.generatedAt db);
     Summary.model := SummaryDB.model db |}.

(** [meeting.summary ? summaryToDB(meeting.summary) : undefined] *)
Definition optSummaryToDB (summary : option Summary.t) : Result (option SummaryDB.t) :=
  match summary with
  | Some s => s' ← summaryToDB s; Ok (Some s')
  | None => Ok None
  end.

(** Convert Meeting object to MeetingDB for storage *)
Definition meetingToDB (meeting : Meeting.t) : Result MeetingDB.t :=
  date ← toISOString (Meeting.date meeting);
  createdAt ← toISOString (Meeting.createdAt meeting);
  updatedAt ← toISOString (Meeting.updatedAt meeting);
  summary ← optSummaryToDB (Meeting.summary meeting);
  Ok {| MeetingDB.id := Meeting.id meeting;
        MeetingDB.title := Meeting.title meeting;
        MeetingDB.date := date;
        MeetingDB.duration := Meeting.duration meeting;
        MeetingDB.audioBlob :=
          if Meeting.archived meeting then None else Some (Meeting.audioBlob meeting);
        MeetingDB.transcript := Meeting.transcript meeting;
        MeetingDB.summary := summary;
        MeetingDB.speakers := Meeting.speakers meeting;
        MeetingDB.tags := Meeting.tags meeting;
        MeetingDB.category := Meeting.category meeting;
        MeetingDB.archived := Meeting.archived meeting;
        MeetingDB.createdAt := createdAt;
        MeetingDB.updatedAt := updatedAt |}.

(** Convert MeetingDB to Meeting object. A Blob is truthy, also an empty
    one, so [db.audioBlob || new Blob()] replaces [null] only. *)
Definition dbToMeeting (db : MeetingDB.t) : Meeting.t :=
  {| Meeting.id := MeetingDB.id db;
     Meeting.title := MeetingDB.title db;
     Meeting.date := Date_parse (MeetingDB.date db);
     Meeting.duration := MeetingDB.duration db;
     Meeting.audioBlob := default new_Blob (MeetingDB.audioBlob db);
     Meeting.transcript := MeetingDB.transcript db;
     Meeting.summary := dbToSummary <$> MeetingDB.summary db;
     Meeting.speakers := MeetingDB.speakers db;
     Meeting.tags := MeetingDB.tags db;
     Meeting.category := MeetingDB.category db;
     Meeting.archived := MeetingDB.archived db;
     Meeting.createdAt := Date_parse (MeetingDB.createdAt db);
     Meeting.updatedAt := Date_parse (MeetingDB.updatedAt db) |}.

(** Save a meeting to IndexedDB *)
Definition saveMeeting (st : Store) (meeting : Meeting.t) : Result Store :=
  meetingDB ← meetingToDB meeting;
  Ok (put_meeting st meetingDB).

(** Get a meeting by ID *)
Definition getMeeting (st : Store) (id : string) : option Meeting.t :=
  dbToMeeting <$> meetings st !! id.

(** [(a, b) => b.date.getTime() - a.date.getTime()]; a NaN result counts
    as 0 for the sort. *)
Definition newest_first (a b : Meeting.t) : Z :=
  match getTime (Meeting.date b), getTime (Meeting.date a) with
  | Some tb, Some ta => tb - ta
  | _, _ => 0
  end.

(** Get all meetings, sorted by date (newest first) *)
Definition getAllMeetings (st : Store) : list Meeting.t :=
  Array_sort newest_first (map dbToMeeting (getAllFromIndex st MeetingDB.date)).

(** Get meetings by category *)
Definition getMeetingsByCategory (st : Store) (category : string) : list Meeting.t :=
  Array_sort newest_first
    (map dbToMeeting
       (filter (fun m => MeetingDB.category m = category)
          (getAllFromIndex st MeetingDB.category))).

Definition not_found (id : string) : Exception :=
  Error ("Meeting with id " ++ id ++ " not found").

(** The update object that [updateMeeting] builds from its argument; the
    fields [id], [createdAt] and [updatedAt] of the argument are not read. *)
Definition updatesToDB (updates : PartialMeeting.t) : Result PartialMeetingDB.t :=
  date ← match PartialMeeting.date updates with
         | Some d => s ← toISOString d; Ok (Some s)
         | None => Ok None
         end;
  summary ← optSummaryToDB (PartialMeeting.summary updates);
  Ok {| PartialMeetingDB.title := PartialMeeting.title updates;
        PartialMeetingDB.transcript := PartialMeeting.transcript updates;
        PartialMeetingDB.speakers := PartialMeeting.speakers updates;
        PartialMeetingDB.tags := PartialMeeting.tags updates;
        PartialMeetingDB.category := PartialMeeting.category updates;
        PartialMeetingDB.archived := PartialMeeting.archived updates;
        PartialMeetingDB.duration := PartialMeeting.duration updates;
        PartialMeetingDB.audioBlob := PartialMeeting.audioBlob updates;
        PartialMeetingDB.date := date;
        PartialMeetingDB.summary := summary |}.

(** [{ ...existing, ...updatesDB, updatedAt }] *)
Definition spread_update (existing : MeetingDB.t) (updatesDB : PartialMeetingDB.t)
    (updatedAt : string) : MeetingDB.t :=
  {| MeetingDB.id := MeetingDB.id existing;
     MeetingDB.title := default (MeetingDB.title existing) (PartialMeetingDB.title updatesDB);
     MeetingDB.date := default (MeetingDB.date existing) (PartialMeetingDB.date updatesDB);
     MeetingDB.duration :=
       default (MeetingDB.duration existing) (PartialMeetingDB.duration updatesDB);
     MeetingDB.audioBlob :=
       match PartialMeetingDB.audioBlob updatesDB with
       | Some b => Some b
       | None => MeetingDB.audioBlob existing
       end;
     MeetingDB.transcript :=
       default (MeetingDB.transcript existing) (PartialMeetingDB.transcript updatesDB);
     MeetingDB.summary :=
       match PartialMeetingDB.summary updatesDB with
       | Some s => Some s
       | None => MeetingDB.summary existing
       end;
     MeetingDB.speakers :=
       default (MeetingDB.speakers existing) (PartialMeetingDB.speakers updatesDB);
     MeetingDB.tags := default (MeetingDB.tags existing) (PartialMeetingDB.tags updatesDB);
     MeetingDB.category :=
       default (MeetingDB.category existing) (PartialMeetingDB.category updatesDB);
     MeetingDB.archived :=
       default (MeetingDB.archived existing) (PartialMeetingDB.archived updatesDB);
     MeetingDB.createdAt := MeetingDB.createdAt existing;
     MeetingDB.updatedAt := updatedAt |}.

(** Update a meeting. [now] is the reading of the clock by [new Date()]. *)
Definition updateMeeting (st : Store) (now : Z) (id : string)
    (updates : PartialMeeting.t) : Result Store :=
  match meetings st !! id with
  | None => Throw (not_found id)
  | Some existing =>
      updatesDB ← updatesToDB updates;
      updatedAt ← toISOString (DateAt now);
      Ok (put_meeting st (spread_update existing updatesDB updatedAt))
  end.

(** Delete a meeting *)
Definition deleteMeeting (st : Store) (id : string) : Store :=
  {| meetings := delete id (meetings st); costs := costs st |}.

(** Archive a meeting (removes audio blob to save space) *)
Definition archiveMeeting (st : Store) (now : Z) (id : string) : Result Store :=
  updateMeeting st now id
    {| PartialMeeting.id := None; PartialMeeting.title := None;
       PartialMeeting.date := None; PartialMeeting.duration := None;
       PartialMeeting.audioBlob := Some new_Blob; (* Empty blob *)
       PartialMeeting.transcript := None; PartialMeeting.summary := None;
       PartialMeeting.speakers := None; PartialMeeting.tags := None;
       PartialMeeting.category := None; PartialMeeting.archived := Some true;
       PartialMeeting.createdAt := None; PartialMeeting.updatedAt := None |}.

(** The filter of [searchMeetings]; an absent summary makes the last two
    disjuncts undefined, which the filter reads as false. *)
Definition matches_query (lowerQuery : string) (meeting : Meeting.t) : bool :=
  includes (toLowerCase (Meeting.title meeting)) lowerQuery
  || includes (toLowerCase (Meeting.transcript meeting)) lowerQuery
  || some (fun tag => includes (toLowerCase tag) lowerQuery) (Meeting.tags meeting)
  || match Meeting.summary meeting with
     | Some s => includes (toLowerCase (Summary.executive s)) lowerQuery
     | None => false
     end
  || match Meeting.summary meeting with
     | Some s => some (fun kp => includes (toLowerCase kp) lowerQuery) (Summary.keyPoints s)
     | None => false
     end.

(** Search meetings by title, transcript, or summary *)
Definition searchMeetings (st : Store) (query : string) : list Meeting.t :=
  let allMeetings := getAllMeetings st in
  let lowerQuery := toLowerCase query in
  List.filter (matches_query lowerQuery) allMeetings.

(** Update cost tracking for a month *)
Definition updateCostTracking (st : Store) (now : Z) (month : string)
    (transcriptionCost summarizationCost : float) : Result Store :=
  lastUpdated ← toISOString (DateAt now);
  let updated :=
    match costs st !! month with
    | Some existing =>
        {| CostTrackingDB.month := CostTrackingDB.month existing;
           CostTrackingDB.transcriptionCost :=
             CostTrackingDB.transcriptionCost existing + transcriptionCost;
           CostTrackingDB.summarizationCost :=
             CostTrackingDB.summarizationCost existing + summarizationCost;
           CostTrackingDB.meetingCount := CostTrackingDB.meetingCount existing + 1;
           CostTrackingDB.totalCost :=
             CostTrackingDB.transcriptionCost existing
             + CostTrackingDB.summarizationCost existing
             + transcriptionCost + summarizationCost;
           CostTrackingDB.lastUpdated := lastUpdated |}
    | None =>
        {| CostTrackingDB.month := month;
           CostTrackingDB.transcriptionCost := transcriptionCost;
           CostTrackingDB.summarizationCost := summarizationCost;
           CostTrackingDB.meetingCount := 1;
           CostTrackingDB.totalCost := transcriptionCost + summarizationCost;
           CostTrackingDB.lastUpdated := lastUpdated |}
    end%float in
  Ok (put_cost st updated).

(** Clear all data from the database *)
Definition clearAllData (st : Store) : Store := empty_store.

(** ** The cost ledger ([costs.ts]) *)

Inductive CostType : Type := transcription | summarization.

(** What [logCost] reads off its [new Date()]: the year and the month
    (0 to 11) in local time. *)
Record LocalNow : Type := mkLocalNow {
  getFullYear : Z;
  getMonth : Z
}.

(** [String(n)] for an integer [n]. *)
Definition Number_toString (n : Z) : string := pretty n.

(** [text.padStart(2, '0')] *)
Definition padStart2 (text : string) : string :=
  match String.length text with
  | O => "00"
  | S O => "0" ++ text
  | _ => text
  end.

Definition month_of (now : LocalNow) : string :=
  Number_toString (getFullYear now) ++ "-" ++ padStart2 (Number_toString (getMonth now + 1)).

(** Log cost for a meeting. [now] is the clock as [logCost] reads it and
    [now'] the time value that [updateCostTracking] reads next. Whatever the
    update throws is caught and logged: the store is then left as it was. *)
Definition logCost (st : Store) (now : LocalNow) (now' : Z) (meetingId : string)
    (type : CostType) (amount : float) : Store :=
  let month := month_of now in
  let transcriptionCost := match type with transcription => amount | _ => 0%float end in
  let summarizationCost := match type with summarization => amount | _ => 0%float end in
  match updateCostTracking st now' month transcriptionCost summarizationCost with
  | Ok st' => st'
  | Throw _ => st
  end.

(** ** Export and import

    The archive container. A meeting occupies four fixed names:
    [audio.webm], [transcript.txt], [summary.md] and [metadata.json]; a bulk
    archive holds folders of them and a [README.txt].

    The text of [metadata.json] is represented by what the importers can do
    with it:
    - [Stringified document] is the text that [JSON.stringify] writes for a
      full [ExportedMeeting]: [JSON.parse] gives back every field of the
      document (strings, integers, booleans, arrays; an absent summary stays
      absent);
    - [NoMetadata content] is well-formed JSON whose value has no [metadata]
      object to read the id from: [null], or a value whose property
      [metadata] is undefined or [null] (a number, a string, an array,
      [{}], [{"metadata": null}]);
    - [NotJson content] is a text that is not well-formed JSON.
    Well-formed JSON with a [metadata] object that is not a full document
    of the type [ExportedMeeting] (a field is missing or has another type)
    is not represented: the importers would carry its undefined fields into
    the store, whose records are typed here. *)

Inductive JsonFile : Type :=
| Stringified (document : ExportedMeeting.t)   (* JSON.stringify(document, null, 2) *)
| NoMetadata (content : string)
| NotJson (content : string).

(** The value of [JSON.parse] on a text that is well-formed. *)
Inductive JsonValue : Type :=
| Document (document : ExportedMeeting.t)
| WithoutMetadata.

Record MeetingFiles : Type := mkFiles {
  audio_webm : option (list Byte.byte);
  transcript_txt : option string;
  summary_md : option string;
  metadata_json : option JsonFile
}.

(** [new JSZip()], or a folder just created. *)
Definition no_files : MeetingFiles := mkFiles None None None None.

(** A bulk archive: its folders (the directory entries other than the
    root, by their path) in the order of creation, each with the files of
    a meeting that it holds directly, and the [README.txt] of the root. *)
Record BulkZip : Type := mkBulk {
  folders : list (string * MeetingFiles);
  readme_txt : option string
}.

Definition JSON_parse (f : JsonFile) : Result JsonValue :=
  match f with
  | Stringified document => Ok (Document document)
  | NoMetadata _ => Ok WithoutMetadata
  | NotJson _ => Throw SyntaxError
  end.

(** The first read of the parsed value, [exportedMeeting.metadata.id]: a
    TypeError when [exportedMeeting] is [null] or its [metadata] is
    undefined or [null]. *)
Definition read_metadata (v : JsonValue) : Result ExportedMeeting.t :=
  match v with
  | Document document => Ok document
  | WithoutMetadata => Throw TypeError
  end.

(** The rendering of dates for the reader of [summary.md] depends on the
    locale and the time zone of the browser. *)
Class Locale : Type := {
  toLocaleDateString : JSDate -> string;
  toLocaleString : JSDate -> string
}.

Definition nl : string := String "010" EmptyString.
Definition cr : ascii := "013".
Definition dquote : string := String "034" EmptyString.

(** JavaScript white space among the code units below 256. *)
Definition is_space (c : ascii) : bool :=
  let n := N_of_ascii c in
  ((9 <=? n) && (n <=? 13) || (n =? 32) || (n =? 160))%N.

Fixpoint trimStart (s : string) : string :=
  match s with
  | String c s' => if is_space c then trimStart s' else s
  | EmptyString => EmptyString
  end.

Fixpoint trimEnd (s : string) : string :=
  match s with
  | String c s' =>
      match trimEnd s' with
      | EmptyString => if is_space c then EmptyString else String c EmptyString
      | rest => String c rest
      end
  | EmptyString => EmptyString
  end.

Definition trim (s : string) : string := trimEnd (trimStart s).

(** [text.replace(/\r\n/g, '\n')] *)
Fixpoint normalize_line_breaks (s : string) : string :=
  match s with
  | String c s' =>
      match s' with
      | String "010" _ =>
          if Ascii.eqb c cr then normalize_line_breaks s'
          else String c (normalize_line_breaks s')
      | _ => String c (normalize_line_breaks s')
      end
  | EmptyString => EmptyString
  end.

(** [text.replace(/\n{3,}/g, '\n\n')]; [run] counts the line breaks just
    passed. *)
Fixpoint collapse_blank_lines (run : nat) (s : string) : string :=
  match s with
  | String "010" s' =>
      if (run <? 2)%nat then String "010" (collapse_blank_lines (S run) s')
      else collapse_blank_lines (S run) s'
  | String c s' => String c (collapse_blank_lines 0 s')
  | EmptyString => EmptyString
  end.

(** [text.split('\n')]; [line] is the line read so far, reversed. *)
Fixpoint split_lines (line : string) (s : string) : list string :=
  match s with
  | String "010" s' => String.rev line :: split_lines EmptyString s'
  | String c s' => split_lines (String c line) s'
  | EmptyString => [String.rev line]
  end.

(** [lines.join(separator)] *)
Fixpoint join (separator : string) (lines : list string) : string :=
  match lines with
  | [] => EmptyString
  | [l] => l
  | l :: rest => l ++ separator ++ join separator rest
  end.

(** Clean up transcript for export ([preprocessing.ts]) *)
Definition cleanTranscriptForExport (transcript : string) : string :=
  trim (join nl (map trim
    (split_lines EmptyString (collapse_blank_lines 0 (normalize_line_breaks transcript))))).

(** Format duration in human-readable format *)
Definition formatDuration (seconds : Z) : string :=
  let hours := seconds / 3600 in
  let minutes := Z.rem seconds 3600 / 60 in
  let secs := Z.rem seconds 60 in
  if 0 <? hours then
    Number_toString hours ++ "h " ++ Number_toString minutes ++ "m "
      ++ Number_toString secs ++ "s"
  else if 0 <? minutes then
    Number_toString minutes ++ "m " ++ Number_toString secs ++ "s"
  else Number_toString secs ++ "s".

Definition priority_text (p : Priority) : string :=
  match p with high => "high" | medium => "medium" | low => "low" end.

Definition bullets (items : list string) : string :=
  foldr (fun item rest => "- " ++ item ++ nl ++ rest) EmptyString items.

Definition action_item_lines (item : ActionItem.t) : string :=
  "- [ ] **" ++ ActionItem.task item ++ "**" ++ nl
  ++ "  - Owner: " ++ ActionItem.owner item ++ nl
  ++ match ActionItem.deadline item with
     | Some d => if String.eqb d EmptyString then EmptyString
                 else "  - Deadline: " ++ d ++ nl
     | None => EmptyString
     end
  ++ match ActionItem.priority item with
     | Some p => "  - Priority: " ++ priority_text p ++ nl
     | None => EmptyString
     end.

(** Format summary as markdown for export *)
Definition formatSummaryAsMarkdown `{Locale} (meeting : Meeting.t) (transcript : string)
    : string :=
  match Meeting.summary meeting with
  | None => EmptyString
  | Some summary =>
      "# " ++ Meeting.title meeting ++ nl ++ nl
      ++ "**Date:** " ++ toLocaleDateString (Meeting.date meeting) ++ nl
      ++ "**Duration:** " ++ formatDuration (Meeting.duration meeting) ++ nl
      ++ "**Category:** " ++ Summary.category summary ++ nl
      ++ "**Tags:** " ++ join ", " (Summary.tags summary) ++ nl ++ nl
      ++ "---" ++ nl ++ nl
      ++ "## Executive Summary" ++ nl ++ nl ++ Summary.executive summary ++ nl ++ nl
      ++ "## Key Points" ++ nl ++ nl
      ++ bullets (Summary.keyPoints summary) ++ nl
      ++ match Summary.actionItems summary with
         | [] => EmptyString
         | items =>
             "## Action Items" ++ nl ++ nl
             ++ foldr (fun item rest => action_item_lines item ++ rest) EmptyString items
             ++ nl
         end
      ++ match Summary.decisions summary with
         | [] => EmptyString
         | items => "## Decisions Made" ++ nl ++ nl ++ bullets items ++ nl
         end
      ++ match Summary.questions summary with
         | [] => EmptyString
         | items => "## Questions / Open Items" ++ nl ++ nl ++ bullets items ++ nl
         end
      ++ "---" ++ nl ++ nl
      ++ "## Full Transcript" ++ nl ++ nl
      ++ transcript
      ++ nl ++ nl ++ "---" ++ nl ++ nl
      ++ "*Generated with Elaara Meeting Recorder*" ++ nl
      ++ "*Summary generated on: " ++ toLocaleString (Summary.generatedAt summary)
      ++ "*" ++ nl
  end.

(** Generate README content for bulk export; [exportDate] is the text of
    [new Date().toISOString()]. *)
Definition generateExportReadme (meetingCount : nat) (exportDate : string) : string :=
  join nl [
    "Elaara Meeting Recorder - Export Archive";
    "========================================";
    "";
    "This archive contains " ++ Number_toString (Z.of_nat meetingCount)
      ++ " meeting(s) exported from Elaara.";
    "";
    "Structure:";
    "----------";
    "Each meeting is stored in its own folder with the naming convention:";
    "YYYY-MM-DD_meeting-title_shortid/";
    "";
    "Each folder contains:";
    "- metadata.json: Meeting metadata (title, date, speakers, tags, etc.)";
    "- transcript.txt: Full meeting transcript";
    "- summary.md: AI-generated summary (if available)";
    "- audio.webm: Audio recording (if not archived)";
    "";
    "Importing:";
    "----------";
    "To import these meetings back into Elaara:";
    "1. Open Elaara in your browser";
    "2. Go to Settings > Data & Privacy";
    "3. Click " ++ dquote ++ "Import meetings from backup" ++ dquote;
    "4. Select this ZIP file";
    "";
    "Notes:";
    "------";
    "- Meetings marked as " ++ dquote ++ "archived" ++ dquote
      ++ " will not have audio files";
    "- All data is stored in JSON and plain text formats for portability";
    "- Summaries are in Markdown format for easy viewing";
    "- Audio files are in WebM format";
    "";
    "Export Date: " ++ exportDate;
    "Application: Elaara Meeting Recorder";
    "Version: 1.0.0";
    "";
    "For more information, visit: https://github.com/yourusername/elaara";
    ""
  ].

(** The [ExportedMeeting] literal that both exporters write to
    [metadata.json]. *)
Definition exportedMeetingOf (meeting : Meeting.t) : Result ExportedMeeting.t :=
  date ← toISOString (Meeting.date meeting);
  createdAt ← toISOString (Meeting.createdAt meeting);
  updatedAt ← toISOString (Meeting.updatedAt meeting);
  summary ← optSummaryToDB (Meeting.summary meeting);
  Ok {| ExportedMeeting.metadata :=
          {| Metadata.id := Meeting.id meeting;
             Metadata.title := Meeting.title meeting;
             Metadata.date := date;
             Metadata.duration := Meeting.duration meeting;
             Metadata.speakers := Meeting.speakers meeting;
             Metadata.tags := Meeting.tags meeting;
             Metadata.category := Meeting.category meeting;
             Metadata.archived := Meeting.archived meeting;
             Metadata.createdAt := createdAt;
             Metadata.updatedAt := updatedAt |};
        ExportedMeeting.transcript := Meeting.transcript meeting;
        ExportedMeeting.summary := summary;
        ExportedMeeting.hasAudio :=
          negb (Meeting.archived meeting) && (0 <? blob_size (Meeting.audioBlob meeting))%nat |}.

(** The four [file] calls that both exporters make for one meeting, on the
    archive root or on the folder of the meeting. A name that is not
    written keeps what the folder held under it. *)
Definition add_meeting_files `{Locale} (zip : MeetingFiles) (meeting : Meeting.t)
    : Result MeetingFiles :=
  (* Add audio file (if not archived) *)
  let audio :=
    if negb (Meeting.archived meeting) && (0 <? blob_size (Meeting.audioBlob meeting))%nat
    then Some (blob_bytes (Meeting.audioBlob meeting))
    else audio_webm zip in
  (* Add transcript as plain text *)
  let transcriptContent := cleanTranscriptForExport (Meeting.transcript meeting) in
  (* Add summary as markdown (if exists) *)
  let summaryMarkdown :=
    match Meeting.summary meeting with
    | Some _ => Some (formatSummaryAsMarkdown meeting transcriptContent)
    | None => summary_md zip
    end in
  (* Add metadata as JSON *)
  exportedMeeting ← exportedMeetingOf meeting;
  Ok {| audio_webm := audio;
        transcript_txt := Some transcriptContent;
        summary_md := summaryMarkdown;
        metadata_json := Some (Stringified exportedMeeting) |}.

(** Export a single meeting as a ZIP file *)
Definition exportMeeting `{Locale} (st : Store) (meetingId : string) : Result MeetingFiles :=
  match getMeeting st meetingId with
  | None => Throw (not_found meetingId)
  | Some meeting => add_meeting_files no_files meeting
  end.

(** [text.split('T')[0]] *)
Fixpoint before_T (s : string) : string :=
  match s with
  | String "T" _ => EmptyString
  | String c s' => String c (before_T s')
  | EmptyString => EmptyString
  end.

Definition is_slug_unit (c : ascii) : bool :=
  let n := N_of_ascii c in
  ((97 <=? n) && (n <=? 122) || (48 <=? n) && (n <=? 57))%N.

(** [text.replace(/[^a-z0-9]+/g, '-')]; [run] tells that the unit before
    was replaced already. *)
Fixpoint dash_runs (run : bool) (s : string) : string :=
  match s with
  | String c s' =>
      if is_slug_unit c then String c (dash_runs false s')
      else if run then dash_runs true s'
      else String "-" (dash_runs true s')
  | EmptyString => EmptyString
  end.

Fixpoint drop_last_dash (s : string) : string :=
  match s with
  | String c EmptyString => if Ascii.eqb c "-" then EmptyString else s
  | String c s' => String c (drop_last_dash s')
  | EmptyString => EmptyString
  end.

(** [text.replace(/^-|-$/g, '')] *)
Definition strip_dashes (s : string) : string :=
  match s with
  | String "-" s' => drop_last_dash s'
  | _ => drop_last_dash s
  end.

Definition titleSlug (title : string) : string :=
  String.substring 0 50 (strip_dashes (dash_runs false (toLowerCase title))).

(** *** Folders of JSZip (version 3)

    The archive keeps its entries by their full path, in the order in which
    they were added; the path of a folder ends with a slash. Adding an
    entry first adds the folders of its path that the archive does not have
    ([createFolders] is on by default). The model keeps the folders with
    the four files of a meeting that they hold directly. *)

Fixpoint last_is_slash (path : string) : bool :=
  match path with
  | EmptyString => false
  | String c EmptyString => Ascii.eqb c "/"
  | String _ path' => last_is_slash path'
  end.

(** [path.substring(0, path.length - 1)] *)
Fixpoint drop_last (path : string) : string :=
  match path with
  | EmptyString => EmptyString
  | String _ EmptyString => EmptyString
  | String c path' => String c (drop_last path')
  end.

(** [path.lastIndexOf("/")]; [None] stands for -1. *)
Fixpoint lastIndexOf_slash (path : string) : option nat :=
  match path with
  | EmptyString => None
  | String c path' =>
      match lastIndexOf_slash path' with
      | Some i => Some (S i)
      | None => if Ascii.eqb c "/" then Some O else None
      end
  end.

(** Check the name ends with a / *)
Definition forceTrailingSlash (path : string) : string :=
  if last_is_slash path then path else path ++ "/".

(** Find the parent folder of the path; the empty text when there is
    none. *)
Definition parentFolder (path : string) : string :=
  let path := if last_is_slash path then drop_last path else path in
  match lastIndexOf_slash path with
  | Some (S i) => String.substring 0 (S i) path
  | _ => EmptyString
  end.

Definition has_folder (name : string) (fs : list (string * MeetingFiles)) : bool :=
  existsb (fun entry => String.eqb (fst entry) name) fs.

(** [folderAdd]: does this folder already exist? If not, its parent
    folders are added before it. A parent is shorter than the path, so
    the length of the path is fuel enough for the recursion. *)
Fixpoint folderAdd_from (fuel : nat) (name : string) (fs : list (string * MeetingFiles))
    : list (string * MeetingFiles) :=
  let name := forceTrailingSlash name in
  if has_folder name fs then fs
  else
    let with_parents :=
      match parentFolder name, fuel with
      | EmptyString, _ => fs
      | parent, S fuel' => folderAdd_from fuel' parent fs
      | _, O => fs
      end in
    (with_parents ++ [(name, no_files)])%list.

Definition folderAdd (name : string) (fs : list (string * MeetingFiles))
    : list (string * MeetingFiles) :=
  folderAdd_from (S (String.length name)) name fs.

(** The writes of files to the folder [name], in place. The exporter
    writes to a folder that [zip.folder] has added before; on an archive
    without the folder the writes would add it. *)
Fixpoint update_folder (name : string) (f : MeetingFiles -> Result MeetingFiles)
    (fs : list (string * MeetingFiles)) : Result (list (string * MeetingFiles)) :=
  match fs with
  | [] => files ← f no_files; Ok [(name, files)]
  | (n, old) :: rest =>
      if String.eqb n name then files ← f old; Ok ((n, files) :: rest)
      else rest' ← update_folder name f rest; Ok ((n, old) :: rest')
  end.

(** One turn of the loop of [exportAllMeetings]: [zip.folder(folderName)]
    adds the folder and its parents, and each [file] call on the folder
    makes sure of the parent of the path it writes, the same path for the
    four files. *)
Definition export_into `{Locale} (fs : list (string * MeetingFiles)) (meeting : Meeting.t)
    : Result (list (string * MeetingFiles)) :=
  iso ← toISOString (Meeting.date meeting);
  let dateStr := before_T iso in
  let folderName :=
    dateStr ++ "_" ++ titleSlug (Meeting.title meeting) ++ "_"
      ++ String.substring 0 8 (Meeting.id meeting) in
  let root := forceTrailingSlash folderName in
  let fs := folderAdd folderName fs in
  let fs := folderAdd (parentFolder (root ++ "transcript.txt")) fs in
  update_folder root (fun folder => add_meeting_files folder meeting) fs.

Fixpoint export_each `{Locale} (fs : list (string * MeetingFiles)) (ms : list Meeting.t)
    : Result (list (string * MeetingFiles)) :=
  match ms with
  | [] => Ok fs
  | meeting :: rest => fs' ← export_into fs meeting; export_each fs' rest
  end.

(** Export all meetings as a comprehensive ZIP file, called without a
    progress observer. [now] is the clock as the README reads it. *)
Definition exportAllMeetings `{Locale} (st : Store) (now : Z) : Result BulkZip :=
  let meetings := getAllMeetings st in
  if (length meetings =? 0)%nat then Throw (Error "No meetings to export")
  else
    fs ← export_each [] meetings;
    exportDate ← toISOString (DateAt now);
    Ok {| folders := fs;
          readme_txt := Some (generateExportReadme (length meetings) exportDate) |}.

(** The texts that [crypto.randomUUID()] returns: version 4 UUIDs, that is
    8-4-4-4-12 hexadecimal digits in lower case, with the version digit 4
    and a variant digit 8, 9, a or b. *)
Definition is_hex (c : ascii) : bool :=
  let n := N_of_ascii c in
  ((48 <=? n) && (n <=? 57) || (97 <=? n) && (n <=? 102))%N.

Definition is_variant (c : ascii) : bool :=
  Ascii.eqb c "8" || Ascii.eqb c "9" || Ascii.eqb c "a" || Ascii.eqb c "b".

Fixpoint has_shape (shape : list (ascii -> bool)) (s : string) : bool :=
  match shape, s with
  | [], EmptyString => true
  | p :: shape', String c s' => p c && has_shape shape' s'
  | _, _ => false
  end.

Definition is_uuid_v4 (s : string) : bool :=
  has_shape
    (repeat is_hex 8 ++ [Ascii.eqb "-"] ++ repeat is_hex 4 ++ [Ascii.eqb "-"]
     ++ [Ascii.eqb "4"] ++ repeat is_hex 3 ++ [Ascii.eqb "-"]
     ++ [is_variant] ++ repeat is_hex 3 ++ [Ascii.eqb "-"] ++ repeat is_hex 12)%list
    s.

Inductive DuplicatePolicy : Type := replace | keep_both | skip.

(** The meeting that the importers build from a parsed document and the
    audio they read. *)
Definition importedMeeting (exportedMeeting : ExportedMeeting.t) (id : string)
    (audioBlob : Blob) : Meeting.t :=
  let metadata := ExportedMeeting.metadata exportedMeeting in
  {| Meeting.id := id;
     Meeting.title := Metadata.title metadata;
     Meeting.date := Date_parse (Metadata.date metadata);
     Meeting.duration := Metadata.duration metadata;
     Meeting.audioBlob := audioBlob;
     Meeting.transcript := ExportedMeeting.transcript exportedMeeting;
     Meeting.summary := dbToSummary <$> ExportedMeeting.summary exportedMeeting;
     Meeting.speakers := Metadata.speakers metadata;
     Meeting.tags := Metadata.tags metadata;
     Meeting.category := Metadata.category metadata;
     Meeting.archived := Metadata.archived metadata;
     Meeting.createdAt := Date_parse (Metadata.createdAt metadata);
     Meeting.updatedAt := Date_parse (Metadata.updatedAt metadata) |}.

(** Read audio file (if present): the bytes of [audio.webm] as a Blob
    without a media type. *)
Definition read_audio (zip : MeetingFiles) (exportedMeeting : ExportedMeeting.t) : Blob :=
  match audio_webm zip with
  | Some bytes =>
      if ExportedMeeting.hasAudio exportedMeeting
      then {| blob_bytes := bytes; blob_type := EmptyString |}
      else new_Blob
  | None => new_Blob
  end.

(** Import a meeting from an exported ZIP file. [uuid] is what
    [crypto.randomUUID()] returns if it is called. The result is the store
    after the call and the imported meeting ID. *)
Definition importMeeting (st : Store) (zip : MeetingFiles) (onDuplicate : DuplicatePolicy)
    (uuid : string) : Result (Store * string) :=
  match metadata_json zip with
  | None => Throw (Error "Invalid export file: metadata.json not found")
  | Some metadataFile =>
      parsed ← JSON_parse metadataFile;
      exportedMeeting ← read_metadata parsed;
      let id := Metadata.id (ExportedMeeting.metadata exportedMeeting) in
      let save (id : string) : Result (Store * string) :=
        let meeting := importedMeeting exportedMeeting id (read_audio zip exportedMeeting) in
        st' ← saveMeeting st meeting;
        Ok (st', Meeting.id meeting) in
      match getMeeting st id with
      | Some existingMeeting =>
          match onDuplicate with
          | skip => Ok (st, Meeting.id existingMeeting)
          | keep_both => save uuid   (* Generate new ID for the imported meeting *)
          | replace => save id       (* use the existing ID (will overwrite) *)
          end
      | None => save id
      end
  end.

(** One turn of the loop of [importAllMeetings]: the body of [importMeeting]
    on the folder, inside a [try] whose [catch] logs and goes on; a folder
    without [metadata.json] is skipped with a warning. The list of ids
    grows only when the turn reaches a [push]. *)
Definition import_folder (onDuplicate : DuplicatePolicy) (uuid : nat -> string)
    (acc : Store * list string) (i : nat) (folder : MeetingFiles) : Store * list string :=
  match importMeeting (fst acc) folder onDuplicate (uuid i) with
  | Ok (st', id) => (st', (snd acc ++ [id])%list)
  | Throw _ => acc
  end.

Fixpoint import_each (onDuplicate : DuplicatePolicy) (uuid : nat -> string)
    (acc : Store * list string) (i : nat) (fs : list (string * MeetingFiles))
    : Store * list string :=
  match fs with
  | [] => acc
  | (_, folder) :: rest =>
      import_each onDuplicate uuid (import_folder onDuplicate uuid acc i folder) (S i) rest
  end.

(** Import all meetings from a bulk export ZIP, called without a progress
    observer. [uuid i] is what [crypto.randomUUID()] returns in turn [i]. *)
Definition importAllMeetings (st : Store) (zip : BulkZip) (onDuplicate : DuplicatePolicy)
    (uuid : nat -> string) : Result (Store * list string) :=
  match folders zip with
  | [] => Throw (Error "No meetings found in export file")
  | fs => Ok (import_each onDuplicate uuid (st, []) 0 fs)
  end.

(** ** The chunk combiner ([whisper.ts])

    Time stamps are numbers of seconds. The combiner only adds them, so it
    is written over any type of numbers with an addition and a zero. The
    call of [transcribeAudio] on a chunk, with the key and the options that
    the combiner passes on, is the function [transcribeAudio]. *)

Section Combiner.
Context {num : Type} (add : num -> num -> num) (zero : num).

Abbreviation Segment := (WhisperSegment.t num).
Abbreviation Response := (WhisperResponse.t num).

(** [{ ...segment, start: segment.start + cumulativeTime,
       end: segment.end + cumulativeTime }] *)
Definition adjust_segment (cumulativeTime : num) (segment : Segment) : Segment :=
  {| WhisperSegment.id := WhisperSegment.id segment;
     WhisperSegment.seek := WhisperSegment.seek segment;
     WhisperSegment.start := add (WhisperSegment.start segment) cumulativeTime;
     WhisperSegment.end_ := add (WhisperSegment.end_ segment) cumulativeTime;
     WhisperSegment.text := WhisperSegment.text segment;
     WhisperSegment.tokens := WhisperSegment.tokens segment;
     WhisperSegment.temperature := WhisperSegment.temperature segment;
     WhisperSegment.avg_logprob := WhisperSegment.avg_logprob segment;
     WhisperSegment.compression_ratio := WhisperSegment.compression_ratio segment;
     WhisperSegment.no_speech_prob := WhisperSegment.no_speech_prob segment |}.

(** Adjust timestamps for this chunk. *)
Definition adjust_result (cumulativeTime : num) (result : Response) : Response :=
  match WhisperResponse.segments result with
  | Some segments =>
      {| WhisperResponse.text := WhisperResponse.text result;
         WhisperResponse.segments := Some (map (adjust_segment cumulativeTime) segments) |}
  | None => result
  end.

(** Update cumulative time for next chunk: the end of the last adjusted
    segment, if there is one. *)
Definition next_cumulativeTime (cumulativeTime : num) (adjusted : Response) : num :=
  match WhisperResponse.segments adjusted with
  | Some segments =>
      match last segments with
      | Some lastSegment => WhisperSegment.end_ lastSegment
      | None => cumulativeTime
      end
  | None => cumulativeTime
  end.

(** The loop over the chunks, from the chunk at hand on. *)
Fixpoint transcribe_chunks (transcribeAudio : Blob -> Result Response)
    (chunks : list Blob) (cumulativeTime : num) (results : list Response)
    : Result (list Response) :=
  match chunks with
  | [] => Ok results
  | chunk :: rest =>
      result ← transcribeAudio chunk;
      let adjusted := adjust_result cumulativeTime result in
      transcribe_chunks transcribeAudio rest
        (next_cumulativeTime cumulativeTime adjusted) (results ++ [adjusted])%list
  end.

(** [r.segments || []] *)
Definition segments_or_empty (r : Response) : list Segment :=
  default [] (WhisperResponse.segments r).

(** Process multiple audio chunks and combine transcripts *)
Definition transcribeChunkedAudio (transcribeAudio : Blob -> Result Response)
    (chunks : list Blob) : Result Response :=
  results ← transcribe_chunks transcribeAudio chunks zero [];
  Ok {| WhisperResponse.text := join " " (map WhisperResponse.text results);
        WhisperResponse.segments := Some (flat_map segments_or_empty results) |}.

(** *** What the specification says of the combiner *)

(** The cumulative end time before each of the given chunk results, as the
    specification words it: the offset-adjusted end of the last segment of
    the chunks before, starting from [offset]. *)
Fixpoint offsets_from (offset : num) (raw : list Response) : list num :=
  match raw with
  | [] => []
  | r :: rest =>
      offset ::
      offsets_from
        (match last (segments_or_empty r) with
         | Some s => add (WhisperSegment.end_ s) offset
         | None => offset
         end) rest
  end.

(** The segments of the chunks, each chunk moved by its offset, one chunk
    after the other. *)
Definition reoffset (raw : list Response) : list Segment :=
  concat (zip_with (fun offset r => map (adjust_segment offset) (segments_or_empty r))
            (offsets_from zero raw) raw).

(** The time stamps of a list of segments in the order in which they are
    written: start, end, start, end, ... *)
Definition timeline (segments : list Segment) : list num :=
  flat_map (fun s => [WhisperSegment.start s; WhisperSegment.end_ s]) segments.

End Combiner.

(** A list of time stamps that never goes down from one to the next. *)
Fixpoint non_decreasing {num : Type} (le : num -> num -> Prop) (ts : list num) : Prop :=
  match ts with
  | [] => True
  | t :: rest =>
      match rest with
      | [] => True
      | t' :: _ => le t t' /\ non_decreasing le rest
      end
  end.

(** ** What the specification says of the store *)

(** A Date object as JavaScript makes them: invalid, or with a time value
    in range. *)
Definition proper_date (d : JSDate) : Prop :=
  match d with
  | InvalidDate => True
  | DateAt t => time_in_range t
  end.

Definition proper_summary (o : option Summary.t) : Prop :=
  forall s, o = Some s -> proper_date (Summary.generatedAt s).

Definition proper_meeting (m : Meeting.t) : Prop :=
  proper_date (Meeting.date m) /\ proper_date (Meeting.createdAt m)
  /\ proper_date (Meeting.updatedAt m) /\ proper_summary (Meeting.summary m).

Definition proper_updates (u : PartialMeeting.t) : Prop :=
  (forall d, PartialMeeting.date u = Some d -> proper_date d)
  /\ proper_summary (PartialMeeting.summary u).

(** The stores that the program can build: from the empty database, by
    calls of the repository, the importers and the ledger that return, the
    clock being read within the range of dates. *)
Inductive reachable : Store -> Prop :=
| reach_empty :
    reachable empty_store
| reach_saveMeeting st m st' :
    reachable st -> proper_meeting m ->
    saveMeeting st m = Ok st' -> reachable st'
| reach_updateMeeting st now id updates st' :
    reachable st -> time_in_range now -> proper_updates updates ->
    updateMeeting st now id updates = Ok st' -> reachable st'
| reach_archiveMeeting st now id st' :
    reachable st -> time_in_range now ->
    archiveMeeting st now id = Ok st' -> reachable st'
| reach_deleteMeeting st id :
    reachable st -> reachable (deleteMeeting st id)
| reach_importMeeting st zip onDuplicate uuid st' id :
    reachable st ->
    importMeeting st zip onDuplicate uuid = Ok (st', id) -> reachable st'
| reach_importAllMeetings st zip onDuplicate uuid st' ids :
    reachable st ->
    importAllMeetings st zip onDuplicate uuid = Ok (st', ids) -> reachable st'
| reach_logCost st now now' meetingId type amount :
    reachable st -> reachable (logCost st now now' meetingId type amount)
| reach_clearAllData st :
    reachable st -> reachable (clearAllData st).

(** Every record is stored under its own [id]: the key path of the object
    store. *)
Definition well_keyed (st : Store) : Prop :=
  forall key r, meetings st !! key = Some r -> MeetingDB.id r = key.

(** The audio of a stored record is empty or absent. *)
Definition no_audio (r : MeetingDB.t) : Prop :=
  match MeetingDB.audioBlob r with
  | Some b => blob_bytes b = []
  | None => True
  end.

(** Invariant: [archived == true] implies [audioBinary] is empty/absent. *)
Definition archive_invariant (st : Store) : Prop :=
  forall key r, meetings st !! key = Some r -> MeetingDB.archived r = true -> no_audio r.

(** The date fields of a meeting are valid dates. *)
Definition valid_dates (m : Meeting.t) : Prop :=
  valid_date (Meeting.date m) /\ valid_date (Meeting.createdAt m)
  /\ valid_date (Meeting.updatedAt m)
  /\ forall s, Meeting.summary m = Some s -> valid_date (Summary.generatedAt s).

(** Every stored record reads back with valid dates. *)
Definition stored_dates_valid (st : Store) : Prop :=
  forall key r, meetings st !! key = Some r -> valid_dates (dbToMeeting r).

(** [m] with another audio payload. *)
Definition with_audio (m : Meeting.t) (audio : Blob) : Meeting.t :=
  {| Meeting.id := Meeting.id m;
     Meeting.title := Meeting.title m;
     Meeting.date := Meeting.date m;
     Meeting.duration := Meeting.duration m;
     Meeting.audioBlob := audio;
     Meeting.transcript := Meeting.transcript m;
     Meeting.summary := Meeting.summary m;
     Meeting.speakers := Meeting.speakers m;
     Meeting.tags := Meeting.tags m;
     Meeting.category := Meeting.category m;
     Meeting.archived := Meeting.archived m;
     Meeting.createdAt := Meeting.createdAt m;
     Meeting.updatedAt := Meeting.updatedAt m |}.

(** The update [{ title }]. *)
Definition title_update (title : string) : PartialMeeting.t :=
  {| PartialMeeting.id := None; PartialMeeting.title := Some title;
     PartialMeeting.date := None; PartialMeeting.duration := None;
     PartialMeeting.audioBlob := None; PartialMeeting.transcript := None;
     PartialMeeting.summary := None; PartialMeeting.speakers := None;
     PartialMeeting.tags := None; PartialMeeting.category := None;
     PartialMeeting.archived := None; PartialMeeting.createdAt := None;
     PartialMeeting.updatedAt := None |}.

(** The update [{ archived }]. *)
Definition archived_update (archived : bool) : PartialMeeting.t :=
  {| PartialMeeting.id := None; PartialMeeting.title := None;
     PartialMeeting.date := None; PartialMeeting.duration := None;
     PartialMeeting.audioBlob := None; PartialMeeting.transcript := None;
     PartialMeeting.summary := None; PartialMeeting.speakers := None;
     PartialMeeting.tags := None; PartialMeeting.category := None;
     PartialMeeting.archived := Some archived; PartialMeeting.createdAt := None;
     PartialMeeting.updatedAt := None |}.

(** *** What the specification says of an import *)

(** The stored text [stored] is the ISO text of the instant that the date
    text [text] of an archive denotes. *)
Definition same_instant (text stored : string) : Prop :=
  exists t, Date_parse text = DateAt t /\ stored = iso_of_time t.

(** The stored summary [stored] is the summary [s] of a document. *)
Definition same_summary (s stored : SummaryDB.t) : Prop :=
  SummaryDB.executive stored = SummaryDB.executive s
  /\ SummaryDB.keyPoints stored = SummaryDB.keyPoints s
  /\ SummaryDB.actionItems stored = SummaryDB.actionItems s
  /\ SummaryDB.decisions stored = SummaryDB.decisions s
  /\ SummaryDB.questions stored = SummaryDB.questions s
  /\ SummaryDB.category stored = SummaryDB.category s
  /\ SummaryDB.tags stored = SummaryDB.tags s
  /\ SummaryDB.model stored = SummaryDB.model s
  /\ same_instant (SummaryDB.generatedAt s) (SummaryDB.generatedAt stored).

(** The audio that an archive brings: the bytes of [audio.webm] when the
    document says that the meeting has audio and the archive holds the
    file, no bytes otherwise. *)
Definition archive_audio (zip : MeetingFiles) (e : ExportedMeeting.t) : list Byte.byte :=
  if ExportedMeeting.hasAudio e then default [] (audio_webm zip) else [].

(** The record [r] holds the content of the archive [zip] with the
    document [e], under the id [k]: every field of the document, the dates
    as the instants they denote, and the audio of the archive, without a
    media type (no audio at all in the record of an archived meeting). *)
Definition holds_import (zip : MeetingFiles) (e : ExportedMeeting.t) (k : string)
    (r : MeetingDB.t) : Prop :=
  let metadata := ExportedMeeting.metadata e in
  MeetingDB.id r = k
  /\ MeetingDB.title r = Metadata.title metadata
  /\ same_instant (Metadata.date metadata) (MeetingDB.date r)
  /\ MeetingDB.duration r = Metadata.duration metadata
  /\ MeetingDB.audioBlob r
     = (if Metadata.archived metadata then None
        else Some {| blob_bytes := archive_audio zip e; blob_type := EmptyString |})
  /\ MeetingDB.transcript r = ExportedMeeting.transcript e
  /\ match ExportedMeeting.summary e, MeetingDB.summary r with
     | Some s, Some stored => same_summary s stored
     | None, None => True
     | _, _ => False
     end
  /\ MeetingDB.speakers r = Metadata.speakers metadata
  /\ MeetingDB.tags r = Metadata.tags metadata
  /\ MeetingDB.category r = Metadata.category metadata
  /\ MeetingDB.archived r = Metadata.archived metadata
  /\ same_instant (Metadata.createdAt metadata) (MeetingDB.createdAt r)
  /\ same_instant (Metadata.updatedAt metadata) (MeetingDB.updatedAt r).

(** The date texts of the document denote valid dates. *)
Definition dates_readable (e : ExportedMeeting.t) : Prop :=
  let metadata := ExportedMeeting.metadata e in
  valid_date (Date_parse (Metadata.date metadata))
  /\ valid_date (Date_parse (Metadata.createdAt metadata))
  /\ valid_date (Date_parse (Metadata.updatedAt metadata))
  /\ forall s, ExportedMeeting.summary e = Some s ->
       valid_date (Date_parse (SummaryDB.generatedAt s)).

(** Two texts are equal up to the case of their letters. *)
Definition eq_ignore_case (a b : string) : Prop := toLowerCase a = toLowerCase b.

(** [T] occurs in [field] as a substring, up to case. *)
Definition occurs_in (T field : string) : Prop :=
  exists before middle after,
    field = before ++ middle ++ after /\ eq_ignore_case middle T.

(** [T] occurs in the title, the transcript, a tag, or the executive text
    or a key point of the summary. *)
Definition mentions (T : string) (m : Meeting.t) : Prop :=
  occurs_in T (Meeting.title m)
  \/ occurs_in T (Meeting.transcript m)
  \/ (exists tag, In tag (Meeting.tags m) /\ occurs_in T tag)
  \/ (exists s, Meeting.summary m = Some s
        /\ (occurs_in T (Summary.executive s)
            \/ exists kp, In kp (Summary.keyPoints s) /\ occurs_in T kp)).

(** A sample environment for closed examples: dates are shown to the
    reader in their ISO text. *)
Definition iso_text (d : JSDate) : string :=
  match d with
  | InvalidDate => "Invalid Date"
  | DateAt t => iso_of_time t
  end.

Definition sample_locale : Locale :=
  {| toLocaleDateString := iso_text; toLocaleString := iso_text |}.

(** ** Sample data for the closed examples *)

(** 2025-01-01T00:00:00.000Z and 2025-02-01T00:00:00.000Z *)
Definition jan_1 : Z := 1735689600000.
Definition feb_1 : Z := 1738368000000.

(** A meeting just recorded: two bytes of audio, no summary yet. *)
Definition sample_meeting : Meeting.t :=
  {| Meeting.id := "m1";
     Meeting.title := "Weekly sync";
     Meeting.date := DateAt jan_1;
     Meeting.duration := 600;
     Meeting.audioBlob := {| blob_bytes := [Byte.x1a; Byte.x45]; blob_type := "audio/webm" |};
     Meeting.transcript := "We reviewed the BUDGET.";
     Meeting.summary := None;
     Meeting.speakers := [Speaker.mk "s1" "Speaker 1" "#3b82f6"];
     Meeting.tags := ["finance"];
     Meeting.category := "planning";
     Meeting.archived := false;
     Meeting.createdAt := DateAt jan_1;
     Meeting.updatedAt := DateAt jan_1 |}.

Definition store_of (r : Result Store) : Store :=
  match r with
  | Ok st => st
  | Throw _ => empty_store
  end.

(** The store after [saveMeeting(sample_meeting)]. *)
Definition saved_store : Store := store_of (saveMeeting empty_store sample_meeting).

(** The store after [updateMeeting('m1', { archived: true })] on it. *)
Definition flagged_store : Store :=
  store_of (updateMeeting saved_store feb_1 "m1" (archived_update true)).

(** The record of [sample_meeting] in the store. *)
Definition sample_record : MeetingDB.t :=
  {| MeetingDB.id := "m1";
     MeetingDB.title := "Weekly sync";
     MeetingDB.date := "2025-01-01T00:00:00.000Z";
     MeetingDB.duration := 600;
     MeetingDB.audioBlob :=
       Some {| blob_bytes := [Byte.x1a; Byte.x45]; blob_type := "audio/webm" |};
     MeetingDB.transcript := "We reviewed the BUDGET.";
     MeetingDB.summary := None;
     MeetingDB.speakers := [Speaker.mk "s1" "Speaker 1" "#3b82f6"];
     MeetingDB.tags := ["finance"];
     MeetingDB.category := "planning";
     MeetingDB.archived := false;
     MeetingDB.createdAt := "2025-01-01T00:00:00.000Z";
     MeetingDB.updatedAt := "2025-01-01T00:00:00.000Z" |}.

(** An archive of another recording under the same id. *)
Definition sample_document : ExportedMeeting.t :=
  {| ExportedMeeting.metadata :=
       {| Metadata.id := "m1";
          Metadata.title := "Weekly sync (restored)";
          Metadata.date := "2025-01-01T00:00:00.000Z";
          Metadata.duration := 540;
          Metadata.speakers := [];
          Metadata.tags := ["restored"];
          Metadata.category := "planning";
          Metadata.archived := false;
          Metadata.createdAt := "2025-01-01T00:00:00.000Z";
          Metadata.updatedAt := "2025-02-01T00:00:00.000Z" |};
     ExportedMeeting.transcript := "Restored transcript.";
     ExportedMeeting.summary := None;
     ExportedMeeting.hasAudio := true |}.

Definition sample_archive : MeetingFiles :=
  {| audio_webm := Some [Byte.x1a];
     transcript_txt := Some "Restored transcript.";
     summary_md := None;
     metadata_json := Some (Stringified sample_document) |}.

(** The doubles that JavaScript writes 0.10, 0.30 and
    0.30000000000000004. *)
Definition ten_cents : float := 0x1.999999999999ap-4.
Definition thirty_cents : float := 0x1.3333333333333p-2.
Definition thirty_cents_and_a_bit : float := 0x1.3333333333334p-2.

(** January 2025 on the local clock. *)
Definition january : LocalNow := {| getFullYear := 2025; getMonth := 0 |}.

(** The store after three [logCost(id, 'transcription', 0.10)] in a row. *)
Definition ledger_store : Store :=
  logCost
    (logCost (logCost empty_store january jan_1 "m1" transcription ten_cents)
       january jan_1 "m2" transcription ten_cents)
    january jan_1 "m3" transcription ten_cents.

(** A meeting with a summary that was saved when it was already archived
    but still carried its audio. *)
Definition archived_meeting : Meeting.t :=
  {| Meeting.id := "m2";
     Meeting.title := "Retrospective";
     Meeting.date := DateAt feb_1;
     Meeting.duration := 300;
     Meeting.audioBlob := {| blob_bytes := [Byte.x1a]; blob_type := "audio/webm" |};
     Meeting.transcript := "What went well.";
     Meeting.summary :=
       Some {| Summary.executive := "A short retrospective.";
               Summary.keyPoints := ["Releases are on time"];
               Summary.actionItems := [];
               Summary.decisions := [];
               Summary.questions := [];
               Summary.category := "retrospective";
               Summary.tags := ["team"];
               Summary.generatedAt := DateAt feb_1;
               Summary.model := haiku |};
     Meeting.speakers := [];
     Meeting.tags := [];
     Meeting.category := "retrospective";
     Meeting.archived := true;
     Meeting.createdAt := DateAt jan_1;
     Meeting.updatedAt := DateAt feb_1 |}.

(** The store after [saveMeeting] of both sample meetings. *)
Definition two_meetings_store : Store :=
  store_of (saveMeeting saved_store archived_meeting).

Definition segment_at (start end_ : Z) (text : string) : WhisperSegment.t Z :=
  {| WhisperSegment.id := 0; WhisperSegment.seek := 0;
     WhisperSegment.start := start; WhisperSegment.end_ := end_;
     WhisperSegment.text := text; WhisperSegment.tokens := [];
     WhisperSegment.temperature := 0%float; WhisperSegment.avg_logprob := 0%float;
     WhisperSegment.compression_ratio := 1%float; WhisperSegment.no_speech_prob := 0%float |}.

(** Two chunk transcriptions, in whole seconds: the first chunk ends at 5,
    the second has one segment from 1 to 3. *)
Definition first_response : WhisperResponse.t Z :=
  {| WhisperResponse.text := "good morning";
     WhisperResponse.segments := Some [segment_at 0 2 "good"; segment_at 2 5 "morning"] |}.

Definition second_response : WhisperResponse.t Z :=
  {| WhisperResponse.text := "everyone";
     WhisperResponse.segments := Some [segment_at 1 3 "everyone"] |}.

Definition first_chunk : Blob := {| blob_bytes := [Byte.x1a]; blob_type := "audio/webm" |}.
Definition second_chunk : Blob :=
  {| blob_bytes := [Byte.x45; Byte.x46]; blob_type := "audio/webm" |}.

(** A transcriber that answers the two sample chunks. *)
Definition sample_transcribeAudio (chunk : Blob) : Result (WhisperResponse.t Z) :=
  match blob_size chunk with
  | 1%nat => Ok first_response
  | _ => Ok second_response
  end.

(** The same combination on doubles, with halves and quarters of a second. *)
Definition double_segment (start end_ : float) (text : string) : WhisperSegment.t float :=
  {| WhisperSegment.id := 0; WhisperSegment.seek := 0;
     WhisperSegment.start := start; WhisperSegment.end_ := end_;
     WhisperSegment.text := text; WhisperSegment.tokens := [];
     WhisperSegment.temperature := 0%float; WhisperSegment.avg_logprob := 0%float;
     WhisperSegment.compression_ratio := 1%float; WhisperSegment.no_speech_prob := 0%float |}.

Definition double_transcribeAudio (chunk : Blob) : Result (WhisperResponse.t float) :=
  match blob_size chunk with
  | 1%nat =>
      Ok {| WhisperResponse.text := "good morning";
            WhisperResponse.segments :=
              Some [double_segment 0 2.5 "good"; double_segment 2.5 5.25 "morning"] |}
  | _ =>
      Ok {| WhisperResponse.text := "everyone";
            WhisperResponse.segments := Some [double_segment 0.5 1.75 "everyone"] |}
  end%float.

(** ** More of the store ([db.ts]) *)


(** Convert CostTracking to CostTrackingDB *)
Definition costTrackingToDB (cost : CostTracking.t) : Result CostTrackingDB.t :=
  lastUpdated ← toISOString (CostTracking.lastUpdated cost);
  Ok {| CostTrackingDB.month := CostTracking.month cost;
        CostTrackingDB.transcriptionCost := CostTracking.transcriptionCost cost;
        CostTrackingDB.summarizationCost := CostTracking.summarizationCost cost;
        CostTrackingDB.meetingCount := CostTracking.meetingCount cost;
        CostTrackingDB.totalCost := CostTracking.totalCost cost;
        CostTrackingDB.lastUpdated := lastUpdated |}.

(** Convert CostTrackingDB to CostTracking *)
Definition dbToCostTracking (db : CostTrackingDB.t) : CostTracking.t :=
  {| CostTracking.month := CostTrackingDB.month db;
     CostTracking.transcriptionCost := CostTrackingDB.transcriptionCost db;
     CostTracking.summarizationCost := CostTrackingDB.summarizationCost db;
     CostTracking.meetingCount := CostTrackingDB.meetingCount db;
     CostTracking.totalCost := CostTrackingDB.totalCost db;
     CostTracking.lastUpdated := Date_parse (CostTrackingDB.lastUpdated db) |}.

(** Get cost tracking for a specific month *)
Definition getCostTracking (st : Store) (month : string) : option CostTracking.t :=
  dbToCostTracking <$> costs st !! month.

(** Get all cost tracking data: [db.getAll('costs')] lists the records in
    the order of their key, the month. *)
Definition getAllCostTracking (st : Store) : list CostTracking.t :=
  map dbToCostTracking
    (merge_sort
       (fun a b => Is_true (String.leb (CostTrackingDB.month a) (CostTrackingDB.month b)))
       (map snd (map_to_list (costs st)))).

(** [a < b] on two Date objects: the comparison of their time values, false
    as soon as one of them is NaN. *)
Definition Date_lt (a b : JSDate) : bool :=
  match getTime a, getTime b with
  | Some ta, Some tb => ta <? tb
  | _, _ => false
  end.

(** Get meetings that should be auto-archived based on age. [cutoffDate]
    is the Date that the body computes from the clock: [new Date()] moved
    back by [daysOld] days of the local calendar with [setDate]. *)
Definition getMeetingsForAutoArchive (st : Store) (cutoffDate : JSDate) : list Meeting.t :=
  List.filter
    (fun meeting => negb (Meeting.archived meeting) && Date_lt (Meeting.date meeting) cutoffDate)
    (getAllMeetings st).

(** Get archived meetings that should be auto-deleted based on age, with
    [cutoffDate] as above. *)
Definition getArchivedMeetingsForDeletion (st : Store) (cutoffDate : JSDate)
    : list Meeting.t :=
  List.filter
    (fun meeting => Meeting.archived meeting && Date_lt (Meeting.updatedAt meeting) cutoffDate)
    (getAllMeetings st).


(** The JavaScript number of an integer: the double nearest to it, which
    is the integer itself up to 2^53 in absolute value. *)
Definition Number_of_Z (z : Z) : float :=
  SF2Prim (SpecFloat.binary_normalize 53 1024 z 0 false).

(** Get database statistics; [storageInfo] is the answer of
    [getStorageUsage()]. The durations are added as doubles, in the order
    of the list. *)
Definition getDatabaseStats (st : Store) (storageInfo : StorageInfo) : DatabaseStats.t :=
  let allMeetings := getAllMeetings st in
  {| DatabaseStats.totalMeetings := length allMeetings;
     DatabaseStats.archivedMeetings := length (List.filter Meeting.archived allMeetings);
     DatabaseStats.totalDuration :=
       fold_left (fun sum m => (sum + Number_of_Z (Meeting.duration m))%float) allMeetings
         0%float;
     DatabaseStats.storageInfo := storageInfo |}.

(** *** What the code shows of the store *)

(** [a] and [b] have valid dates and [a] is not older than [b]. *)
Definition not_older (a b : Meeting.t) : Prop :=
  match getTime (Meeting.date a), getTime (Meeting.date b) with
  | Some ta, Some tb => tb <= ta
  | _, _ => False
  end.

(** One of the Date fields that [meetingToDB] converts is an invalid date. *)
Definition has_invalid_date (m : Meeting.t) : Prop :=
  Meeting.date m = InvalidDate \/ Meeting.createdAt m = InvalidDate
  \/ Meeting.updatedAt m = InvalidDate
  \/ exists s, Meeting.summary m = Some s /\ Summary.generatedAt s = InvalidDate.

(** The meeting as it reads back from the store. *)
Definition read_back (m : Meeting.t) : Meeting.t :=
  if Meeting.archived m then with_audio m new_Blob else m.

(** Every cost record is stored under its own [month]: the key path of the
    [costs] object store. *)
Definition costs_keyed (st : Store) : Prop :=
  forall key c, costs st !! key = Some c -> CostTrackingDB.month c = key.

(** The amount that [logCost] adds to the cost of one kind. *)
Definition share (kind type : CostType) (amount : float) : float :=
  match kind, type with
  | transcription, transcription => amount
  | summarization, summarization => amount
  | _, _ => 0%float
  end.

(** The folder holds a metadata document whose id is the id of a stored
    meeting. *)
Definition names_stored_meeting (st : Store) (folder : MeetingFiles) : Prop :=
  exists e,
    metadata_json folder = Some (Stringified e)
    /\ is_Some (meetings st !! Metadata.id (ExportedMeeting.metadata e)).

(** A folder without [metadata.json], or with the document of a stored
    meeting. *)
Definition empty_or_stored (st : Store) (entry : string * MeetingFiles) : Prop :=
  metadata_json (snd entry) = None \/ names_stored_meeting st (snd entry).

(** The folder holds a [metadata.json]. *)
Definition has_metadata (entry : string * MeetingFiles) : bool :=
  match metadata_json (snd entry) with
  | Some _ => true
  | None => false
  end.

(** The folder has no [metadata.json], or one that is not a document: not
    JSON, or JSON without a [metadata] object. *)
Definition unreadable (folder : MeetingFiles) : Prop :=
  match metadata_json folder with
  | Some (Stringified _) => False
  | _ => True
  end.

(** The text does not begin with a dash. *)
Definition no_leading_dash (s : string) : Prop :=
  match s with
  | String c _ => c <> "-"%char
  | EmptyString => True
  end.

(** Every unit of the text is a lower-case letter, a digit or a dash. *)
Fixpoint slug_units (s : string) : Prop :=
  match s with
  | String c s' => (is_slug_unit c = true \/ c = "-"%char) /\ slug_units s'
  | EmptyString => True
  end.

(** ** More of the Whisper client ([whisper.ts]) *)

(** Maximum file size for Whisper API (25MB) *)
Definition MAX_FILE_SIZE : Z := 25 * 1024 * 1024.

(** The default chunk size, [MAX_FILE_SIZE * 0.9]: the product of the two
    doubles is the integer 23592960. *)
Definition default_chunkSizeBytes : Z := 23592960.

(** [blob.slice(start, end, contentType)] for 0 <= start. *)
Definition Blob_slice (b : Blob) (start end_ : Z) (contentType : string) : Blob :=
  {| blob_bytes := firstn (Z.to_nat (end_ - start)) (skipn (Z.to_nat start) (blob_bytes b));
     blob_type := contentType |}.

(** [Math.ceil(a / b)] for integers, [b] positive. *)
Definition ceil_div (a b : Z) : Z := (a + b - 1) / b.

(** Chunk large audio files for processing, for a whole number of bytes
    [chunkSizeBytes]. The result is [None] when the call does not return:
    with a chunk size of 0 and a blob that is not empty the number of
    chunks is Infinity and the loop never ends. With a negative chunk size
    the loop makes no turn. *)
Definition chunkAudioFile (audioBlob : Blob) (chunkSizeBytes : Z) : option (list Blob) :=
  let size := Z.of_nat (blob_size audioBlob) in
  if size <=? chunkSizeBytes then Some [audioBlob]
  else if chunkSizeBytes =? 0 then None
  else if chunkSizeBytes <? 0 then Some []
  else
    (* Calculate number of chunks needed *)
    let numChunks := ceil_div size chunkSizeBytes in
    Some (map (fun i =>
                 let start := Z.of_nat i * chunkSizeBytes in
                 let end_ := Z.min (start + chunkSizeBytes) size in
                 Blob_slice audioBlob start end_ (blob_type audioBlob))
            (seq 0 (Z.to_nat numChunks))).

(** The size check that [transcribeAudio] makes before it calls the API. *)
Definition too_large (audioBlob : Blob) : bool :=
  MAX_FILE_SIZE <? Z.of_nat (blob_size audioBlob).

(** seconds *)
Definition PAUSE_THRESHOLD : float := 1.5.

(** The loop of [detectSpeakerChanges] from index [i] on; [prevSegment] is
    [segments[i - 1]]. *)
Fixpoint speaker_changes_from (i : nat) (prevSegment : WhisperSegment.t float)
    (rest : list (WhisperSegment.t float)) : list nat :=
  match rest with
  | [] => []
  | currentSegment :: rest' =>
      (* Check for pause between segments *)
      let pause :=
        (WhisperSegment.start currentSegment - WhisperSegment.end_ prevSegment)%float in
      if PrimFloat.ltb PAUSE_THRESHOLD pause
      then i :: speaker_changes_from (S i) currentSegment rest'
      else speaker_changes_from (S i) currentSegment rest'
  end.

(** Detect potential speaker changes in transcript *)
Definition detectSpeakerChanges (segments : option (list (WhisperSegment.t float)))
    : list nat :=
  match segments with
  | None | Some [] => []
  | Some (first :: rest) =>
      (* First segment is always a speaker change *)
      0%nat :: speaker_changes_from 1 first rest
  end.


(** The group object that [groupSegmentsBySpeaker] pushes; it is only built
    from a group that is not empty. *)
Definition make_group (currentSpeaker : nat) (currentGroup : list (WhisperSegment.t float))
    : SpeakerGroup.t :=
  {| SpeakerGroup.speakerId := currentSpeaker;
     SpeakerGroup.segments := currentGroup;
     SpeakerGroup.text := trim (join " " (map WhisperSegment.text currentGroup));
     SpeakerGroup.startTime :=
       match currentGroup with
       | s :: _ => WhisperSegment.start s
       | [] => 0%float
       end;
     SpeakerGroup.endTime :=
       match last currentGroup with
       | Some s => WhisperSegment.end_ s
       | None => 0%float
       end |}.

(** [speakerChanges.includes(i)] for an index [i]. *)
Definition includes_index (speakerChanges : list nat) (i : nat) : bool :=
  existsb (Nat.eqb i) speakerChanges.

(** The loop of [groupSegmentsBySpeaker] from index [i] on, followed by the
    push of the last group. *)
Fixpoint group_from (speakerChanges : list nat) (i : nat) (currentSpeaker : nat)
    (currentGroup : list (WhisperSegment.t float)) (rest : list (WhisperSegment.t float))
    : list SpeakerGroup.t :=
  match rest with
  | [] =>
      (* Add last group *)
      match currentGroup with
      | [] => []
      | _ => [make_group currentSpeaker currentGroup]
      end
  | segment :: rest' =>
      if includes_index speakerChanges i && (0 <? length currentGroup)%nat
      then
        (* Save current group, start new group *)
        make_group currentSpeaker currentGroup
        :: group_from speakerChanges (S i) (S currentSpeaker) [segment] rest'
      else
        group_from speakerChanges (S i) currentSpeaker (currentGroup ++ [segment])%list rest'
  end.

(** Group segments by speaker (basic implementation); the indices of
    [speakerChanges] are whole numbers. *)
Definition groupSegmentsBySpeaker (segments : option (list (WhisperSegment.t float)))
    (speakerChanges : list nat) : list SpeakerGroup.t :=
  match segments with
  | None | Some [] => []
  | Some segments => group_from speakerChanges 0 0 [] segments
  end.

(** ** Time stamps ([preprocessing.ts]; [whisper.ts] has the same
    [formatTimestamp]), for a whole number of seconds *)

(** [n.toString().padStart(2, '0')] *)
Definition two_digits (n : Z) : string := padStart2 (Number_toString n).

(** Converts seconds to [HH:MM:SS] or [MM:SS] format *)
Definition formatTimestamp (seconds : Z) : string :=
  let hours := seconds / 3600 in
  let minutes := Z.rem seconds 3600 / 60 in
  let secs := Z.rem seconds 60 in
  if 0 <? hours then
    "[" ++ two_digits hours ++ ":" ++ two_digits minutes ++ ":" ++ two_digits secs ++ "]"
  else "[" ++ two_digits minutes ++ ":" ++ two_digits secs ++ "]".

(** [\d{1,2}] followed by a colon: two digits if the second unit is a
    digit, one digit otherwise. *)
Definition read_one_or_two_digits (s : string) : option (Z * string) :=
  match read_digits 2 0 s with
  | Some r => Some r
  | None => read_digits 1 0 s
  end.

(** The regular expression [\[(\d{1,2}):(\d{2})(?::(\d{2}))?\]] at the
    start of [s]: the numbers of the three groups, the third one absent
    when the optional part does not take part in the match. *)
Definition timestamp_at (s : string) : option (Z * Z * option Z) :=
  s ← expect "[" s;
  '(g1, s) ← read_one_or_two_digits s;
  s ← expect ":" s;
  '(g2, s) ← read_digits 2 0 s;
  match expect "]" s with
  | Some _ => Some (g1, g2, None)
  | None =>
      s ← expect ":" s;
      '(g3, s) ← read_digits 2 0 s;
      _ ← expect "]" s;
      Some (g1, g2, Some g3)
  end.

(** [timestamp.match(...)]: the first position where the expression
    matches. *)
Fixpoint timestamp_match (s : string) : option (Z * Z * option Z) :=
  match timestamp_at s with
  | Some groups => Some groups
  | None =>
      match s with
      | String _ s' => timestamp_match s'
      | EmptyString => None
      end
  end.

(** Parse timestamp from string format back to seconds *)
Definition parseTimestamp (timestamp : string) : Z :=
  match timestamp_match timestamp with
  | None => 0
  | Some (g1, g2, g3) =>
      let hours := match g3 with Some _ => g1 | None => 0 end in
      let minutes := match g3 with Some _ => g2 | None => g1 end in
      let seconds := match g3 with Some g => g | None => g2 end in
      hours * 3600 + minutes * 60 + seconds
  end.

(** A number below 100 is written with its two decimal digits. *)
Definition two_digits_ok (n : Z) : bool := String.eqb (two_digits n) (pad 2 n).

(** ** Utility functions ([utils.ts]) *)

(** The palette of [generateSpeakerColor]: blue, green, amber, red, purple,
    pink, cyan, orange. *)
Definition colors : list string :=
  ["#3b82f6"; "#10b981"; "#f59e0b"; "#ef4444";
   "#8b5cf6"; "#ec4899"; "#06b6d4"; "#f97316"].

(** Generate random color for speaker, for a whole number [index]:
    [colors[index % colors.length]], which is [undefined] ([None]) when the
    remainder is negative. *)
Definition generateSpeakerColor (index : Z) : option string :=
  let i := Z.rem index (Z.of_nat (length colors)) in
  if i <? 0 then None else colors !! Z.to_nat i.

(** Truncate text to a maximum length, a whole number; [substring] takes a
    negative end as 0. *)
Definition truncate (text : string) (maxLength : Z) : string :=
  if Z.of_nat (String.length text) <=? maxLength then text
  else String.substring 0 (Z.to_nat maxLength) text ++ "...".


(** The loop of [retry] from the attempt [attempt] on, with
    [remaining = retries - attempt]. The [k]-th call of [fn] gives
    [fn k]; [delay] and [backoff] are whole numbers. *)
Fixpoint retry_loop {T : Type} (fn : nat -> Result T) (delay backoff : Z)
    (attempt remaining : nat) : Result T * list RetryEvent.t :=
  match fn attempt with
  | Ok value => (Ok value, [])
  | Throw lastError =>
      match remaining with
      | O => (Throw lastError, [])
      | S remaining' =>
          let '(result, events) := retry_loop fn delay backoff (S attempt) remaining' in
          (result,
           {| RetryEvent.error := lastError;
              RetryEvent.attempt := attempt + 1;
              RetryEvent.slept := delay * backoff ^ Z.of_nat attempt |} :: events)
      end
  end.

(** Retry async function with exponential backoff; [retries] is a whole
    number that is not negative. *)
Definition retry {T : Type} (fn : nat -> Result T) (retries : nat) (delay backoff : Z)
    : Result T * list RetryEvent.t :=
  retry_loop fn delay backoff 0 retries.

(** The defaults of [retry]: [retries = 3, delay = 1000, backoff = 2]. *)
Definition retry_default {T : Type} (fn : nat -> Result T) : Result T * list RetryEvent.t :=
  retry fn 3 1000 2.

(** The events between the attempts [first], ..., [first + count]: after
    each failed attempt [k] one event with its error [errors k]. *)
Definition retry_events (errors : nat -> Exception) (delay backoff : Z)
    (first count : nat) : list RetryEvent.t :=
  map (fun k => {| RetryEvent.error := errors k;
                   RetryEvent.attempt := k + 1;
                   RetryEvent.slept := delay * backoff ^ Z.of_nat k |})
    (seq first count).

(** ** More sample data *)

(** The store after [archiveMeeting('m1')] on the saved store. *)
Definition archived_store : Store := store_of (archiveMeeting saved_store feb_1 "m1").

(** The store after [updateMeeting('m1', { title: 'Budget sync' })]. *)
Definition retitled_store : Store :=
  store_of (updateMeeting saved_store feb_1 "m1" (title_update "Budget sync")).

(** The archive of [exportAllMeetings] on the saved store. *)
Definition exported_bulk : BulkZip :=
  match exportAllMeetings (H := sample_locale) saved_store feb_1 with
  | Ok zip => zip
  | Throw _ => {| folders := []; readme_txt := None |}
  end.

Definition sample_storage : StorageInfo :=
  {| used := 1024%float; quota := 4096%float; percentage := 25%float |}.

(** A recording of five bytes. *)
Definition five_bytes : Blob :=
  {| blob_bytes := [Byte.x1a; Byte.x45; Byte.xdf; Byte.xa3; Byte.x9f];
     blob_type := "audio/webm" |}.

(** A transcriber that answers the first sample chunk and fails on every
    other one. *)
Definition failing_transcribeAudio (chunk : Blob) : Result (WhisperResponse.t Z) :=
  match blob_size chunk with
  | 1%nat => Ok first_response
  | _ => Throw (Error "Whisper API error: rate limit")
  end.

(** A request that times out twice and then answers. *)
Definition flaky_request (call : nat) : Result string :=
  match call with
  | 0%nat | 1%nat => Throw (Error "timeout")
  | _ => Ok "done"
  end.

(** A sample engine for the closed examples: it reads no date text but the
    ones that [toISOString] writes. *)
Definition sample_host : Host := {| Date_parse_fallback := fun _ => None |}.

(** A meeting whose id was drawn by [crypto.randomUUID()], and an archive
    of another recording under the same id. *)
Definition drawn_id : string := "1b9d6bcd-bbfd-4b2d-9b5d-ab8dfbbd4bed".

Definition drawn_meeting : Meeting.t :=
  {| Meeting.id := drawn_id;
     Meeting.title := "Weekly sync";
     Meeting.date := DateAt jan_1;
     Meeting.duration := 600;
     Meeting.audioBlob := {| blob_bytes := [Byte.x1a; Byte.x45]; blob_type := "audio/webm" |};
     Meeting.transcript := "We reviewed the BUDGET.";
     Meeting.summary := None;
     Meeting.speakers := [];
     Meeting.tags := [];
     Meeting.category := "planning";
     Meeting.archived := false;
     Meeting.createdAt := DateAt jan_1;
     Meeting.updatedAt := DateAt jan_1 |}.

Definition drawn_store : Store := store_of (saveMeeting empty_store drawn_meeting).

Definition drawn_document : ExportedMeeting.t :=
  {| ExportedMeeting.metadata :=
       {| Metadata.id := drawn_id;
          Metadata.title := "Weekly sync (restored)";
          Metadata.date := "2025-01-01T00:00:00.000Z";
          Metadata.duration := 540;
          Metadata.speakers := [];
          Metadata.tags := [];
          Metadata.category := "planning";
          Metadata.archived := false;
          Metadata.createdAt := "2025-01-01T00:00:00.000Z";
          Metadata.updatedAt := "2025-02-01T00:00:00.000Z" |};
     ExportedMeeting.transcript := "Restored transcript.";
     ExportedMeeting.summary := None;
     ExportedMeeting.hasAudio := true |}.

Definition drawn_archive : MeetingFiles :=
  {| audio_webm := Some [Byte.x1a];
     transcript_txt := Some "Restored transcript.";
     summary_md := None;
     metadata_json := Some (Stringified drawn_document) |}.
(** * Properties *)

(** ** Dates: parsing inverts [toISOString] *)

Lemma all_from_spec (p : Z -> bool) (fuel : nat) (z : Z) :
  all_from fuel z p = true ->
  forall k, z <= k < z + Z.of_nat fuel -> p k = true.
Proof.
  revert z. induction fuel as [|f IH]; intros z H k Hk; [lia|].
  simpl in H. apply andb_true_iff in H as [Hz Hrest].
  destruct (decide (k = z)) as [->|Hne]; [exact Hz|].
  apply (IH (z + 1) Hrest). lia.
Qed.

Lemma era_days_ok : all_from (Z.to_nat 146097) 0 era_day_ok = true.
Proof. vm_cast_no_check (eq_refl true). Qed.

Lemma ymd_of_doe_ok (doe : Z) :
  0 <= doe < 146097 ->
  let '(yoe, m, d) := ymd_of_doe doe in
  0 <= yoe <= 399 /\ 1 <= m <= 12 /\ 1 <= d <= 31 /\ doe_of_ymd yoe m d = doe.
Proof.
  intros Hdoe.
  pose proof (all_from_spec era_day_ok _ _ era_days_ok doe) as H.
  unfold era_day_ok in H. destruct (ymd_of_doe doe) as [[yoe m] d].
  rewrite Z2Nat.id in H by lia. specialize (H ltac:(lia)).
  repeat (apply andb_true_iff in H as [H ?]). lia.
Qed.

Lemma civil_from_days_fields (z : Z) :
  let '(y, m, d) := civil_from_days z in
  1 <= m <= 12 /\ 1 <= d <= 31 /\ days_from_civil y m d = z
  /\ (z + 719468) / 146097 * 400 <= y <= (z + 719468) / 146097 * 400 + 400.
Proof.
  unfold civil_from_days.
  pose proof (ymd_of_doe_ok ((z + 719468) mod 146097)) as H.
  destruct (ymd_of_doe _) as [[yoe m] d].
  destruct H as (Hy & Hm & Hd & Hdoe); [apply Z.mod_pos_bound; lia|].
  split; [exact Hm|]. split; [exact Hd|]. split.
  - unfold days_from_civil.
    replace (yoe + (z + 719468) / 146097 * 400 + (if m <=? 2 then 1 else 0)
             - (if m <=? 2 then 1 else 0))
      with (yoe + (z + 719468) / 146097 * 400) by lia.
    rewrite Z.div_add, Z.mod_add by lia.
    rewrite Z.div_small, Z.mod_small by lia.
    rewrite Hdoe. pose proof (Z.div_mod (z + 719468) 146097). lia.
  - destruct (m <=? 2); lia.
Qed.

Lemma digits_ok : all_from 10 0 digit_ok = true.
Proof. reflexivity. Qed.

Lemma digit_facts (n : Z) :
  0 <= n <= 9 ->
  is_digit (digit n) = true /\ Z.of_N (N_of_ascii (digit n)) - 48 = n
  /\ Ascii.eqb (digit n) "+" = false /\ Ascii.eqb (digit n) "-" = false.
Proof.
  intros Hn. pose proof (all_from_spec digit_ok _ _ digits_ok n ltac:(cbn; lia)) as H.
  unfold digit_ok in H.
  apply andb_true_iff in H as [H Hminus]. apply andb_true_iff in H as [H Hplus].
  apply andb_true_iff in H as [Hdigit Hvalue].
  split; [exact Hdigit|]. split; [now apply Z.eqb_eq|].
  split; now apply negb_true_iff.
Qed.

Lemma append_String (c : ascii) (s rest : string) :
  String c s ++ rest = String c (s ++ rest).
Proof. reflexivity. Qed.

Lemma append_Empty (rest : string) : EmptyString ++ rest = rest.
Proof. reflexivity. Qed.

Lemma read_digits_S (k : nat) (acc : Z) (c : ascii) (s : string) :
  read_digits (S k) acc (String c s) =
  if is_digit c then read_digits k (10 * acc + (Z.of_N (N_of_ascii c) - 48)) s else None.
Proof. reflexivity. Qed.

Lemma read_digits_pad (k : nat) (n acc : Z) (rest : string) :
  0 <= n < 10 ^ Z.of_nat k ->
  read_digits k acc (pad k n ++ rest) = Some (acc * 10 ^ Z.of_nat k + n, rest).
Proof.
  revert n acc. induction k as [|k IH]; intros n acc Hn.
  - simpl in *. f_equal. f_equal. lia.
  - rewrite Nat2Z.inj_succ, Z.pow_succ_r in * by lia.
    assert (Hpos : 0 < 10 ^ Z.of_nat k) by (apply Z.pow_pos_nonneg; lia).
    assert (Hq : 0 <= n / 10 ^ Z.of_nat k <= 9).
    { split; [apply Z.div_pos; lia|].
      assert (n / 10 ^ Z.of_nat k < 10); [|lia].
      apply Z.div_lt_upper_bound; lia. }
    cbn [pad]. rewrite append_String, read_digits_S.
    destruct (digit_facts _ Hq) as (-> & -> & _).
    rewrite IH by (apply Z.mod_pos_bound; lia).
    f_equal. f_equal. pose proof (Z.div_mod n (10 ^ Z.of_nat k)). lia.
Qed.

Lemma read_year_iso_year (y : Z) (rest : string) :
  -1000000 < y < 1000000 ->
  read_year (iso_year y ++ rest) = Some (y, rest).
Proof.
  intros Hy. unfold iso_year.
  destruct ((0 <=? y) && (y <=? 9999)) eqn:Hsmall.
  - apply andb_true_iff in Hsmall as [H0 H1].
    apply Z.leb_le in H0; apply Z.leb_le in H1.
    assert (Hq : 0 <= y / 10 ^ Z.of_nat 3 <= 9).
    { change (10 ^ Z.of_nat 3) with 1000. split; [apply Z.div_pos; lia|].
      assert (y / 1000 < 10); [apply Z.div_lt_upper_bound; lia|lia]. }
    unfold read_year. change (pad 4 y) with
      (String (digit (y / 10 ^ Z.of_nat 3)) (pad 3 (y mod 10 ^ Z.of_nat 3))).
    rewrite append_String. destruct (digit_facts _ Hq) as (_ & _ & -> & ->).
    rewrite <- append_String.
    change (String (digit (y / 10 ^ Z.of_nat 3)) (pad 3 (y mod 10 ^ Z.of_nat 3)))
      with (pad 4 y).
    rewrite read_digits_pad by (change (10 ^ Z.of_nat 4) with 10000; lia).
    f_equal.
  - destruct (y <? 0) eqn:Hneg.
    + apply Z.ltb_lt in Hneg. rewrite append_String. cbn [read_year Ascii.eqb Bool.eqb].
      rewrite read_digits_pad by (change (10 ^ Z.of_nat 6) with 1000000; lia).
      f_equal. f_equal. lia.
    + rewrite append_String. cbn [read_year Ascii.eqb Bool.eqb].
      apply Z.ltb_ge in Hneg.
      rewrite read_digits_pad by (change (10 ^ Z.of_nat 6) with 1000000; lia).
      f_equal.
Qed.

Ltac iso_step :=
  cbn [mbind option_bind]; rewrite ?append_String, ?append_Empty;
  cbn [expect Ascii.eqb Bool.eqb mbind option_bind].

Lemma read_iso_of_time (t : Z) :
  time_in_range t -> read_iso (iso_of_time t) = Some t.
Proof.
  unfold time_in_range, maxTime. intros Ht.
  unfold iso_of_time, read_iso.
  pose proof (civil_from_days_fields (t / msPerDay)) as Hc.
  destruct (civil_from_days (t / msPerDay)) as [[y m] d].
  destruct Hc as (Hm & Hd & Hdays & Hy).
  pose proof (Z.mod_pos_bound t msPerDay ltac:(reflexivity)) as Hr.
  pose proof (Z.div_mod t msPerDay ltac:(discriminate)) as Ht'.
  set (r := t mod msPerDay) in *. unfold msPerDay in *.
  assert (Hday : -100000000 <= t / 86400000 <= 100000000).
  { split; [apply Z.div_le_lower_bound; lia|apply Z.div_le_upper_bound; lia]. }
  assert (Hera : -700 <= (t / 86400000 + 719468) / 146097 <= 700).
  { split; [apply Z.div_le_lower_bound; lia|apply Z.div_le_upper_bound; lia]. }
  rewrite read_year_iso_year by lia. iso_step.
  rewrite read_digits_pad by (change (10 ^ Z.of_nat 2) with 100; lia).
  iso_step.
  rewrite read_digits_pad by (change (10 ^ Z.of_nat 2) with 100; lia).
  iso_step.
  assert (Hh : 0 <= r / 3600000 < 100).
  { split; [apply Z.div_pos; lia|apply Z.div_lt_upper_bound; lia]. }
  rewrite read_digits_pad by (change (10 ^ Z.of_nat 2) with 100; lia).
  iso_step.
  rewrite read_digits_pad
    by (change (10 ^ Z.of_nat 2) with 100; pose proof (Z.mod_pos_bound (r / 60000) 60); lia).
  iso_step.
  rewrite read_digits_pad
    by (change (10 ^ Z.of_nat 2) with 100; pose proof (Z.mod_pos_bound (r / 1000) 60); lia).
  iso_step.
  rewrite read_digits_pad
    by (change (10 ^ Z.of_nat 3) with 1000; pose proof (Z.mod_pos_bound r 1000); lia).
  iso_step.
  rewrite !Z.mul_0_l, !Z.add_0_l, Hdays. f_equal.
  subst r. Z.div_mod_to_equations. lia.
Qed.

Lemma TimeClip_in_range (t : Z) : time_in_range t -> TimeClip t = DateAt t.
Proof.
  unfold time_in_range, TimeClip. intros [H1 H2].
  apply Z.leb_le in H1; apply Z.leb_le in H2. now rewrite H1, H2.
Qed.

(** [new Date(d.toISOString())] is [d] again, for every valid date [d]. *)
Lemma Date_parse_iso_of_time (t : Z) :
  time_in_range t -> Date_parse (iso_of_time t) = DateAt t.
Proof.
  intros Ht. unfold Date_parse. rewrite (read_iso_of_time t Ht).
  rewrite String.eqb_refl. apply TimeClip_in_range, Ht.
Qed.

(** ** The serialization adapter *)

Lemma toISOString_valid (d : JSDate) :
  valid_date d ->
  exists text, toISOString d = Ok text /\ Date_parse text = d.
Proof.
  destruct d as [|t]; simpl; [tauto|]. intros Ht.
  exists (iso_of_time t). split; [reflexivity|]. apply Date_parse_iso_of_time, Ht.
Qed.

Lemma summaryToDB_round_trip (s : Summary.t) :
  valid_date (Summary.generatedAt s) ->
  exists db, summaryToDB s = Ok db /\ dbToSummary db = s.
Proof.
  intros Hv. destruct (toISOString_valid _ Hv) as (text & Hiso & Hparse).
  unfold summaryToDB. rewrite Hiso. cbn [mbind Result_bind].
  eexists. split; [reflexivity|].
  destruct s; unfold dbToSummary; cbn in *. now rewrite Hparse.
Qed.

Lemma optSummaryToDB_round_trip (o : option Summary.t) :
  (forall s, o = Some s -> valid_date (Summary.generatedAt s)) ->
  exists db, optSummaryToDB o = Ok db /\ dbToSummary <$> db = o.
Proof.
  intros Hv. destruct o as [s|]; cbn [optSummaryToDB].
  - destruct (summaryToDB_round_trip s (Hv s eq_refl)) as (db & -> & Hback).
    cbn [mbind Result_bind]. exists (Some db). split; [reflexivity|].
    cbn. now rewrite Hback.
  - exists None. split; reflexivity.
Qed.

(** What a meeting reads back as after a trip through the store: itself,
    with an empty Blob for audio if it is archived. *)
Lemma meetingToDB_round_trip (m : Meeting.t) :
  valid_dates m ->
  exists db,
    meetingToDB m = Ok db
    /\ MeetingDB.id db = Meeting.id m
    /\ dbToMeeting db = if Meeting.archived m then with_audio m new_Blob else m.
Proof.
  intros (Hd & Hc & Hu & Hs).
  destruct (toISOString_valid _ Hd) as (d & Hdi & Hdp).
  destruct (toISOString_valid _ Hc) as (c & Hci & Hcp).
  destruct (toISOString_valid _ Hu) as (u & Hui & Hup).
  destruct (optSummaryToDB_round_trip _ Hs) as (s & Hsi & Hsp).
  unfold meetingToDB. rewrite Hdi, Hci, Hui, Hsi. cbn [mbind Result_bind].
  eexists. split; [reflexivity|]. split; [reflexivity|].
  unfold dbToMeeting, with_audio. cbn. rewrite Hdp, Hcp, Hup, Hsp.
  destruct m as [? ? ? ? ? ? ? ? ? ? arch ? ?]; cbn. now destruct arch.
Qed.

(** C3. For every Meeting [m] whose Date fields (those of the meeting and
    the [generatedAt] of its summary) are valid, [meetingToDB m] returns a
    record and [dbToMeeting] of that record is [m] in every field, except
    that the audio of an archived meeting comes back as an empty Blob
    whatever the audio of [m] was. *)
Theorem C3_storage_round_trip (m : Meeting.t) :
  valid_dates m ->
  exists db,
    meetingToDB m = Ok db
    /\ dbToMeeting db = if Meeting.archived m then with_audio m new_Blob else m.
Proof.
  intros Hv. destruct (meetingToDB_round_trip m Hv) as (db & H1 & _ & H2). eauto.
Qed.

(** ** Listing and searching *)

Lemma sort_insert_Permutation {A : Type} (compare : A -> A -> Z) (x : A) (l : list A) :
  sort_insert compare x l ≡ₚ x :: l.
Proof.
  induction l as [|y l IH]; cbn; [reflexivity|].
  destruct (compare x y <=? 0); [reflexivity|].
  rewrite IH. apply Permutation_swap.
Qed.

Lemma Array_sort_Permutation {A : Type} (compare : A -> A -> Z) (l : list A) :
  Array_sort compare l ≡ₚ l.
Proof.
  induction l as [|x l IH]; cbn; [reflexivity|].
  fold (Array_sort compare l). rewrite sort_insert_Permutation. now rewrite IH.
Qed.

Lemma getAllFromIndex_Permutation (st : Store) (key : MeetingDB.t -> string) :
  getAllFromIndex st key ≡ₚ map snd (map_to_list (meetings st)).
Proof. unfold getAllFromIndex. apply merge_sort_Permutation. Qed.

Lemma elem_of_getAllFromIndex (st : Store) (key : MeetingDB.t -> string) (r : MeetingDB.t) :
  r ∈ getAllFromIndex st key <-> exists k, meetings st !! k = Some r.
Proof.
  rewrite getAllFromIndex_Permutation. rewrite list_elem_of_fmap. split.
  - intros ([k r'] & -> & Hin). exists k. now apply elem_of_map_to_list.
  - intros (k & Hk). exists (k, r). split; [reflexivity|]. now apply elem_of_map_to_list.
Qed.

Lemma elem_of_getAllMeetings (st : Store) (m : Meeting.t) :
  m ∈ getAllMeetings st <-> exists k r, meetings st !! k = Some r /\ m = dbToMeeting r.
Proof.
  unfold getAllMeetings. rewrite Array_sort_Permutation, list_elem_of_fmap. split.
  - intros (r & -> & Hin). apply elem_of_getAllFromIndex in Hin as (k & Hk). eauto.
  - intros (k & r & Hk & ->). exists r. split; [reflexivity|].
    apply elem_of_getAllFromIndex. eauto.
Qed.

Lemma getAllMeetings_nil (st : Store) : getAllMeetings st = [] <-> meetings st = ∅.
Proof.
  split.
  - intros Hnil. apply map_empty. intros k.
    destruct (meetings st !! k) as [r|] eqn:Hk; [|reflexivity].
    assert (Hin : dbToMeeting r ∈ getAllMeetings st)
      by (apply elem_of_getAllMeetings; eauto).
    rewrite Hnil in Hin. now apply elem_of_nil in Hin.
  - intros Hempty. destruct (getAllMeetings st) as [|m l] eqn:Hall; [reflexivity|].
    assert (Hin : m ∈ getAllMeetings st) by (rewrite Hall; left).
    apply elem_of_getAllMeetings in Hin as (k & r & Hk & _).
    rewrite Hempty in Hk. now rewrite lookup_empty in Hk.
Qed.

(** The newer meeting comes first, and the archived one reads back
    without audio. *)
Example getAllMeetings_newest_first :
  getAllMeetings two_meetings_store
  = [with_audio archived_meeting new_Blob; sample_meeting].
Proof. vm_compute. reflexivity. Qed.

Lemma prefix_empty (s : string) : String.prefix EmptyString s = true.
Proof. now destruct s. Qed.

Lemma includes_empty (s : string) : includes s EmptyString = true.
Proof. destruct s; cbn; [reflexivity|]. reflexivity. Qed.

Lemma filter_all {A : Type} (p : A -> bool) (l : list A) :
  (forall x, p x = true) -> List.filter p l = l.
Proof.
  intros Hp. induction l as [|x l IH]; cbn; [reflexivity|]. now rewrite Hp, IH.
Qed.

(** C10. For every store state, [searchMeetings] with the empty string as
    query returns exactly the list that [getAllMeetings] returns: every
    stored meeting matches the empty substring, and the order is that of
    [getAllMeetings]. *)
Theorem C10_search_empty_query (st : Store) :
  searchMeetings st EmptyString = getAllMeetings st.
Proof.
  unfold searchMeetings. apply filter_all. intros m.
  unfold matches_query. cbn [toLowerCase]. now rewrite includes_empty.
Qed.

Lemma prefix_iff (p s : string) :
  String.prefix p s = true <-> exists rest, s = p ++ rest.
Proof.
  revert s. induction p as [|c p IH]; intros s.
  - rewrite prefix_empty. split; [intros _; now exists s|reflexivity].
  - destruct s as [|c' s]; cbn.
    + split; [discriminate|]. intros (rest & Hrest). discriminate Hrest.
    + destruct (ascii_dec c c') as [->|Hne].
      * rewrite IH. split; intros (rest & Hrest); exists rest.
        -- rewrite append_String. now rewrite Hrest.
        -- rewrite append_String in Hrest. now injection Hrest.
      * split; [discriminate|]. intros (rest & Hrest).
        rewrite append_String in Hrest. injection Hrest as Hc _. congruence.
Qed.

Lemma includes_iff (s sub : string) :
  includes s sub = true <-> exists before after, s = before ++ sub ++ after.
Proof.
  induction s as [|c s IH].
  - cbn [includes]. rewrite orb_false_r, prefix_iff. split.
    + intros (rest & Hrest). now exists EmptyString, rest.
    + intros (before & after & Heq). destruct before; [now exists after|].
      discriminate Heq.
  - cbn [includes]. rewrite orb_true_iff, prefix_iff, IH. split.
    + intros [(rest & Hrest)|(before & after & Heq)].
      * now exists EmptyString, rest.
      * exists (String c before), after. now rewrite append_String, Heq.
    + intros (before & after & Heq). destruct before as [|c' before].
      * left. now exists after.
      * right. rewrite append_String in Heq. injection Heq as _ Heq. eauto.
Qed.

Lemma toLowerCase_app (a b : string) :
  toLowerCase (a ++ b) = toLowerCase a ++ toLowerCase b.
Proof.
  induction a as [|c a IH]; [reflexivity|].
  rewrite append_String. cbn [toLowerCase]. now rewrite append_String, IH.
Qed.

Lemma toLowerCase_split (s x y : string) :
  toLowerCase s = x ++ y ->
  exists a b, s = a ++ b /\ toLowerCase a = x /\ toLowerCase b = y.
Proof.
  revert s. induction x as [|c x IH]; intros s Heq.
  - now exists EmptyString, s.
  - destruct s as [|c' s]; [discriminate Heq|].
    cbn [toLowerCase] in Heq. rewrite append_String in Heq.
    injection Heq as Hc Heq. destruct (IH s Heq) as (a & b & -> & Ha & Hb).
    exists (String c' a), b. cbn [toLowerCase]. now rewrite Hc, Ha, Hb.
Qed.

(** The test of the code on one field is the occurrence up to case. *)
Lemma includes_toLowerCase (T field : string) :
  includes (toLowerCase field) (toLowerCase T) = true <-> occurs_in T field.
Proof.
  rewrite includes_iff. unfold occurs_in, eq_ignore_case. split.
  - intros (x & y & Heq).
    apply toLowerCase_split in Heq as (before & rest & -> & _ & Hrest).
    apply toLowerCase_split in Hrest as (middle & after & -> & Hmid & _).
    now exists before, middle, after.
  - intros (before & middle & after & -> & Hmid).
    exists (toLowerCase before), (toLowerCase after).
    now rewrite !toLowerCase_app, Hmid.
Qed.

Lemma some_includes (T : string) (fields : list string) :
  some (fun f => includes (toLowerCase f) (toLowerCase T)) fields = true
  <-> exists f, In f fields /\ occurs_in T f.
Proof.
  unfold some. rewrite existsb_exists.
  split; intros (f & Hin & H); exists f; (split; [exact Hin|]);
    now apply includes_toLowerCase.
Qed.

Lemma matches_query_iff (T : string) (m : Meeting.t) :
  matches_query (toLowerCase T) m = true <-> mentions T m.
Proof.
  unfold matches_query, mentions.
  rewrite !orb_true_iff, !includes_toLowerCase, some_includes.
  destruct (Meeting.summary m) as [s|].
  - rewrite includes_toLowerCase, some_includes. split.
    + intros [[[[H|H]|H]|H]|H]; eauto 10.
    + intros [H|[H|[H|(s' & [= <-] & [H|H])]]]; eauto 10.
  - split.
    + intros [[[[H|H]|H]|H]|H]; eauto; discriminate.
    + intros [H|[H|[H|(s' & Hs & _)]]]; eauto; discriminate.
Qed.

Lemma elem_of_searchMeetings (st : Store) (T : string) (m : Meeting.t) :
  m ∈ searchMeetings st T <-> m ∈ getAllMeetings st /\ mentions T m.
Proof.
  unfold searchMeetings. rewrite list_elem_of_In, filter_In, <- list_elem_of_In.
  now rewrite matches_query_iff.
Qed.

(** C7 (as amended). For every store state and every non-empty query
    [T], the texts and the query being strings of code units below 256
    (Latin-1), where the lower case of a letter does not depend on its
    neighbours: a stored meeting in which [T] occurs, up to case, as a
    substring of the title, the transcript, a tag, the executive text of
    the summary or one of its key points is in the result of
    [searchMeetings T]; a stored meeting in which [T] occurs in none of
    those fields is not in the result. *)
Theorem C7_search_completeness (st : Store) (T key : string) (r : MeetingDB.t) :
  T <> EmptyString ->
  meetings st !! key = Some r ->
  (mentions T (dbToMeeting r) -> dbToMeeting r ∈ searchMeetings st T)
  /\ (~ mentions T (dbToMeeting r) -> dbToMeeting r ∉ searchMeetings st T).
Proof.
  intros _ Hr. split.
  - intros Hm. apply elem_of_searchMeetings. split; [|exact Hm].
    apply elem_of_getAllMeetings. eauto.
  - intros Hno Hin. apply elem_of_searchMeetings in Hin as [_ Hm]. now apply Hno.
Qed.

(** ** Bulk export *)

Lemma toISOString_Throw (d : JSDate) (e : Exception) :
  toISOString d = Throw e -> e = RangeError.
Proof. destruct d; cbn; congruence. Qed.

Lemma optSummaryToDB_Throw (o : option Summary.t) (e : Exception) :
  optSummaryToDB o = Throw e -> e = RangeError.
Proof.
  destruct o as [s|]; cbn; [|discriminate]. unfold summaryToDB.
  destruct (toISOString (Summary.generatedAt s)) eqn:Hiso; cbn; [discriminate|].
  intros [= <-]. eapply toISOString_Throw, Hiso.
Qed.

Lemma exportedMeetingOf_Throw (m : Meeting.t) (e : Exception) :
  exportedMeetingOf m = Throw e -> e = RangeError.
Proof.
  unfold exportedMeetingOf.
  destruct (toISOString (Meeting.date m)) eqn:H1; cbn;
    [|intros [= <-]; eapply toISOString_Throw, H1].
  destruct (toISOString (Meeting.createdAt m)) eqn:H2; cbn;
    [|intros [= <-]; eapply toISOString_Throw, H2].
  destruct (toISOString (Meeting.updatedAt m)) eqn:H3; cbn;
    [|intros [= <-]; eapply toISOString_Throw, H3].
  destruct (optSummaryToDB (Meeting.summary m)) eqn:H4; cbn;
    [discriminate|intros [= <-]; eapply optSummaryToDB_Throw, H4].
Qed.

Lemma add_meeting_files_Throw `{Locale} (zip : MeetingFiles) (m : Meeting.t) (e : Exception) :
  add_meeting_files zip m = Throw e -> e = RangeError.
Proof.
  unfold add_meeting_files.
  destruct (exportedMeetingOf m) eqn:He; cbn;
    [discriminate|intros [= <-]; eapply exportedMeetingOf_Throw, He].
Qed.

Lemma update_folder_Throw (name : string) (f : MeetingFiles -> Result MeetingFiles)
    (fs : list (string * MeetingFiles)) (e : Exception) :
  (forall old e', f old = Throw e' -> e' = RangeError) ->
  update_folder name f fs = Throw e -> e = RangeError.
Proof.
  intros Hf. induction fs as [|[n old] rest IH]; cbn.
  - destruct (f no_files) eqn:Hnew; cbn; [discriminate|intros [= <-]; eapply Hf, Hnew].
  - destruct (String.eqb n name).
    + destruct (f old) eqn:Hold; cbn; [discriminate|intros [= <-]; eapply Hf, Hold].
    + destruct (update_folder name f rest); cbn; [discriminate|].
      intros [= <-]. now apply IH.
Qed.

Lemma export_each_Throw `{Locale} (ms : list Meeting.t) (fs : list (string * MeetingFiles))
    (e : Exception) :
  export_each fs ms = Throw e -> e = RangeError.
Proof.
  revert fs. induction ms as [|m ms IH]; intros fs; cbn; [discriminate|].
  destruct (export_into fs m) as [fs'|e'] eqn:Hinto; cbn; [apply IH|].
  intros [= <-]. unfold export_into in Hinto.
  destruct (toISOString (Meeting.date m)) eqn:Hiso; cbn in Hinto;
    [|injection Hinto as <-; eapply toISOString_Throw, Hiso].
  eapply update_folder_Throw, Hinto. intros old e''. apply add_meeting_files_Throw.
Qed.

(** C9. [exportAllMeetings] raises the error [No meetings to export], and
    so returns no archive, exactly when the store holds zero meetings: it
    raises it on the empty store, and on no store that holds a meeting. *)
Theorem C9_bulk_export_rejects_empty `{Locale} (st : Store) (now : Z) :
  exportAllMeetings st now = Throw (Error "No meetings to export")
  <-> meetings st = ∅.
Proof.
  unfold exportAllMeetings. rewrite <- getAllMeetings_nil.
  destruct (getAllMeetings st) as [|m ms] eqn:Hall; cbn [length Nat.eqb].
  - split; reflexivity.
  - split; [|discriminate]. intros Hthrow. exfalso.
    destruct (export_each [] (m :: ms)) as [fs|e] eqn:Heach; cbn in Hthrow.
    + discriminate Hthrow.
    + apply export_each_Throw in Heach. subst e. discriminate Hthrow.
Qed.

(** ** Updates *)

Lemma put_meeting_lookup (st : Store) (r : MeetingDB.t) :
  meetings (put_meeting st r) !! MeetingDB.id r = Some r.
Proof. cbn. apply lookup_insert_eq. Qed.

Lemma put_meeting_lookup_ne (st : Store) (r : MeetingDB.t) (k : string) :
  k <> MeetingDB.id r -> meetings (put_meeting st r) !! k = meetings st !! k.
Proof. intros Hne. cbn. now apply lookup_insert_ne. Qed.

Lemma put_meeting_well_keyed (st : Store) (r : MeetingDB.t) :
  well_keyed st -> well_keyed (put_meeting st r).
Proof.
  intros Hwk k r' Hk. destruct (decide (k = MeetingDB.id r)) as [->|Hne].
  - rewrite put_meeting_lookup in Hk. now injection Hk as <-.
  - rewrite put_meeting_lookup_ne in Hk by exact Hne. now apply Hwk.
Qed.


(** ** The archive invariant *)

Lemma store_of_save : saveMeeting empty_store sample_meeting = Ok saved_store.
Proof. reflexivity. Qed.

Lemma saved_store_record : meetings saved_store !! "m1" = Some sample_record.
Proof. vm_compute. reflexivity. Qed.

(** What [updateMeeting(id, { archived: true })] stores: the flag is set
    and the audio stays what it was. *)
Lemma updateMeeting_archived_keeps_audio (st : Store) (now : Z) (id : string)
    (existing : MeetingDB.t) :
  well_keyed st ->
  meetings st !! id = Some existing ->
  exists st' r,
    updateMeeting st now id (archived_update true) = Ok st'
    /\ meetings st' !! id = Some r
    /\ MeetingDB.archived r = true
    /\ MeetingDB.audioBlob r = MeetingDB.audioBlob existing.
Proof.
  intros Hwk Hex. pose proof (Hwk _ _ Hex) as Hid. subst id.
  unfold updateMeeting. rewrite Hex.
  eexists _, _. split; [reflexivity|]. split; [exact (put_meeting_lookup st _)|].
  split; reflexivity.
Qed.

(** The other writers keep the invariant. *)

Lemma meetingToDB_no_audio (m : Meeting.t) (r : MeetingDB.t) :
  meetingToDB m = Ok r -> MeetingDB.archived r = true -> MeetingDB.audioBlob r = None.
Proof.
  unfold meetingToDB.
  destruct (toISOString (Meeting.date m)); cbn; [|discriminate].
  destruct (toISOString (Meeting.createdAt m)); cbn; [|discriminate].
  destruct (toISOString (Meeting.updatedAt m)); cbn; [|discriminate].
  destruct (optSummaryToDB (Meeting.summary m)); cbn; [|discriminate].
  intros [= <-]. cbn. now intros ->.
Qed.

Lemma put_meeting_archive_invariant (st : Store) (r : MeetingDB.t) :
  archive_invariant st ->
  (MeetingDB.archived r = true -> no_audio r) ->
  archive_invariant (put_meeting st r).
Proof.
  intros Hinv Hr k r' Hk. destruct (decide (k = MeetingDB.id r)) as [->|Hne].
  - rewrite put_meeting_lookup in Hk. injection Hk as <-. exact Hr.
  - rewrite put_meeting_lookup_ne in Hk by exact Hne. now apply (Hinv k).
Qed.

Lemma saveMeeting_archive_invariant (st st' : Store) (m : Meeting.t) :
  archive_invariant st -> saveMeeting st m = Ok st' -> archive_invariant st'.
Proof.
  intros Hinv. unfold saveMeeting.
  destruct (meetingToDB m) as [r|] eqn:Hr; cbn; [|discriminate].
  intros [= <-]. apply put_meeting_archive_invariant; [exact Hinv|].
  intros Harch. unfold no_audio. now rewrite (meetingToDB_no_audio m r Hr Harch).
Qed.

Lemma archiveMeeting_archive_invariant (st st' : Store) (now : Z) (id : string) :
  archive_invariant st -> archiveMeeting st now id = Ok st' -> archive_invariant st'.
Proof.
  intros Hinv. unfold archiveMeeting, updateMeeting.
  destruct (meetings st !! id) as [existing|]; [|discriminate].
  cbn. intros [= <-]. apply put_meeting_archive_invariant; [exact Hinv|].
  intros _. reflexivity.
Qed.

(** An update that names neither [archived] nor [audioBlob] keeps it too. *)
Lemma updateMeeting_archive_invariant (st st' : Store) (now : Z) (id : string)
    (updates : PartialMeeting.t) :
  PartialMeeting.archived updates = None -> PartialMeeting.audioBlob updates = None ->
  archive_invariant st -> updateMeeting st now id updates = Ok st' ->
  archive_invariant st'.
Proof.
  intros Harch Haudio Hinv. unfold updateMeeting.
  destruct (meetings st !! id) as [existing|] eqn:Hex; [|discriminate].
  unfold updatesToDB. rewrite Harch, Haudio.
  destruct (match PartialMeeting.date updates with
            | Some d => s ← toISOString d; Ok (Some s)
            | None => Ok None
            end); cbn [mbind Result_bind]; [|discriminate].
  destruct (optSummaryToDB (PartialMeeting.summary updates)); cbn [mbind Result_bind];
    [|discriminate].
  cbn [toISOString]. intros [= <-].
  apply put_meeting_archive_invariant; [exact Hinv|].
  unfold no_audio. cbn. apply (Hinv id existing Hex).
Qed.

Lemma deleteMeeting_archive_invariant (st : Store) (id : string) :
  archive_invariant st -> archive_invariant (deleteMeeting st id).
Proof.
  intros Hinv k r Hk. cbn in Hk. apply lookup_delete_Some in Hk as [_ Hk].
  now apply (Hinv k).
Qed.

Lemma importMeeting_archive_invariant (st st' : Store) (zip : MeetingFiles)
    (onDuplicate : DuplicatePolicy) (uuid id : string) :
  archive_invariant st ->
  importMeeting st zip onDuplicate uuid = Ok (st', id) ->
  archive_invariant st'.
Proof.
  intros Hinv. unfold importMeeting.
  destruct (metadata_json zip) as [f|]; [|discriminate].
  destruct (JSON_parse f) as [[e|]|]; cbn [read_metadata mbind Result_bind];
    [|discriminate|discriminate].
  assert (Hsave : forall id',
    (st0 ← saveMeeting st (importedMeeting e id' (read_audio zip e));
     Ok (st0, Meeting.id (importedMeeting e id' (read_audio zip e)))) = Ok (st', id) ->
    archive_invariant st').
  { intros id'.
    destruct (saveMeeting st (importedMeeting e id' (read_audio zip e))) as [st0|] eqn:Hs;
      cbn; [|discriminate].
    intros [= <- _]. eapply saveMeeting_archive_invariant; eauto. }
  destruct (getMeeting st _); [destruct onDuplicate|]; try apply Hsave.
  now intros [= <- _].
Qed.

Lemma importAllMeetings_archive_invariant (st st' : Store) (zip : BulkZip)
    (onDuplicate : DuplicatePolicy) (uuid : nat -> string) (ids : list string) :
  archive_invariant st ->
  importAllMeetings st zip onDuplicate uuid = Ok (st', ids) ->
  archive_invariant st'.
Proof.
  intros Hinv. unfold importAllMeetings.
  assert (Heach : forall fs acc i,
    archive_invariant (fst acc) ->
    archive_invariant (fst (import_each onDuplicate uuid acc i fs))).
  { induction fs as [|[n folder] fs IH]; intros acc i Hacc; cbn; [exact Hacc|].
    apply IH. unfold import_folder.
    destruct (importMeeting (fst acc) folder onDuplicate (uuid i)) as [[st0 id]|] eqn:Himp;
      [|exact Hacc].
    cbn. eapply importMeeting_archive_invariant; eauto. }
  destruct (folders zip) as [|f fs]; [discriminate|].
  intros [= Heq]. specialize (Heach (f :: fs) (st, []) 0%nat Hinv).
  change (archive_invariant (fst (st', ids))). now rewrite <- Heq.
Qed.

(** ** What holds of every store the program can build *)

Lemma jan_1_in_range : time_in_range jan_1.
Proof. unfold time_in_range, maxTime, jan_1. lia. Qed.

Lemma feb_1_in_range : time_in_range feb_1.
Proof. unfold time_in_range, maxTime, feb_1. lia. Qed.

Lemma toISOString_proper (d : JSDate) (text : string) :
  proper_date d -> toISOString d = Ok text -> valid_date d.
Proof. destruct d; cbn; [discriminate|]. tauto. Qed.

Lemma optSummaryToDB_proper (o : option Summary.t) (db : option SummaryDB.t) :
  proper_summary o -> optSummaryToDB o = Ok db ->
  forall s, o = Some s -> valid_date (Summary.generatedAt s).
Proof.
  intros Hp Hok s ->. cbn in Hok. unfold summaryToDB in Hok.
  destruct (toISOString (Summary.generatedAt s)) as [text|] eqn:Hiso; [|discriminate Hok].
  eapply toISOString_proper; [now apply Hp|exact Hiso].
Qed.

Lemma meetingToDB_proper (m : Meeting.t) (r : MeetingDB.t) :
  proper_meeting m -> meetingToDB m = Ok r -> valid_dates m.
Proof.
  intros (Hd & Hc & Hu & Hs). unfold meetingToDB.
  destruct (toISOString (Meeting.date m)) eqn:H1; cbn; [|discriminate].
  destruct (toISOString (Meeting.createdAt m)) eqn:H2; cbn; [|discriminate].
  destruct (toISOString (Meeting.updatedAt m)) eqn:H3; cbn; [|discriminate].
  destruct (optSummaryToDB (Meeting.summary m)) eqn:H4; cbn; [|discriminate].
  intros _. repeat split; eauto using toISOString_proper, optSummaryToDB_proper.
Qed.

Lemma valid_dates_read_back (m : Meeting.t) :
  valid_dates m -> valid_dates (if Meeting.archived m then with_audio m new_Blob else m).
Proof. now destruct (Meeting.archived m). Qed.

Lemma TimeClip_proper (t : Z) : proper_date (TimeClip t).
Proof.
  unfold TimeClip. destruct ((- maxTime <=? t) && (t <=? maxTime)) eqn:Hin; [|exact I].
  apply andb_true_iff in Hin as [H1 H2]. split; [now apply Z.leb_le|now apply Z.leb_le].
Qed.

Lemma Date_parse_proper (text : string) : proper_date (Date_parse text).
Proof.
  assert (Hother : proper_date match Date_parse_fallback text with
                                | Some t' => TimeClip t'
                                | None => InvalidDate
                                end).
  { destruct (Date_parse_fallback text); [apply TimeClip_proper|exact I]. }
  unfold Date_parse. destruct (read_iso text) as [t|]; [|exact Hother].
  destruct (String.eqb (iso_of_time t) text); [apply TimeClip_proper|exact Hother].
Qed.

Lemma importedMeeting_proper (e : ExportedMeeting.t) (id : string) (audio : Blob) :
  proper_meeting (importedMeeting e id audio).
Proof.
  repeat split; try apply Date_parse_proper.
  intros s. cbn. destruct (ExportedMeeting.summary e); [|discriminate].
  intros [= <-]. apply Date_parse_proper.
Qed.

(** The two facts kept by every operation. *)
Lemma put_meeting_dates_valid (st : Store) (r : MeetingDB.t) :
  stored_dates_valid st -> valid_dates (dbToMeeting r) ->
  stored_dates_valid (put_meeting st r).
Proof.
  intros Hst Hr k r' Hk. destruct (decide (k = MeetingDB.id r)) as [->|Hne].
  - rewrite put_meeting_lookup in Hk. now injection Hk as <-.
  - rewrite put_meeting_lookup_ne in Hk by exact Hne. now apply (Hst k).
Qed.

Lemma saveMeeting_keeps (st st' : Store) (m : Meeting.t) :
  well_keyed st /\ stored_dates_valid st -> proper_meeting m ->
  saveMeeting st m = Ok st' ->
  well_keyed st' /\ stored_dates_valid st'.
Proof.
  intros [Hwk Hdv] Hp. unfold saveMeeting.
  destruct (meetingToDB m) as [r|] eqn:Hr; cbn; [|discriminate]. intros [= <-].
  pose proof (meetingToDB_proper m r Hp Hr) as Hvalid.
  destruct (meetingToDB_round_trip m Hvalid) as (r' & Hr' & _ & Hback).
  rewrite Hr in Hr'. injection Hr' as <-.
  split; [now apply put_meeting_well_keyed|].
  apply put_meeting_dates_valid; [exact Hdv|]. rewrite Hback.
  now apply valid_dates_read_back.
Qed.

Lemma spread_update_valid (existing : MeetingDB.t) (updatesDB : PartialMeetingDB.t)
    (now : Z) :
  valid_dates (dbToMeeting existing) -> time_in_range now ->
  (forall text, PartialMeetingDB.date updatesDB = Some text ->
     valid_date (Date_parse text)) ->
  (forall s, PartialMeetingDB.summary updatesDB = Some s ->
     valid_date (Date_parse (SummaryDB.generatedAt s))) ->
  valid_dates (dbToMeeting (spread_update existing updatesDB (iso_of_time now))).
Proof.
  intros (Hd & Hc & _ & Hs) Hnow Hdate Hsum.
  unfold valid_dates, dbToMeeting, spread_update.
  cbn -[Date_parse iso_of_time] in *. repeat split.
  - destruct (PartialMeetingDB.date updatesDB) as [text|]; cbn -[Date_parse]; eauto.
  - exact Hc.
  - rewrite (Date_parse_iso_of_time now Hnow). exact Hnow.
  - intros s. destruct (PartialMeetingDB.summary updatesDB) as [sdb|].
    + cbn -[Date_parse]. intros [= <-]. cbn -[Date_parse]. eauto.
    + apply Hs.
Qed.

Lemma toISOString_parse_valid (d : JSDate) (text : string) :
  proper_date d -> toISOString d = Ok text -> valid_date (Date_parse text).
Proof.
  intros Hp Hiso. pose proof (toISOString_proper d text Hp Hiso) as Hv.
  destruct (toISOString_valid d Hv) as (text' & Hiso' & Hparse).
  rewrite Hiso in Hiso'. injection Hiso' as <-. now rewrite Hparse.
Qed.

Lemma updateMeeting_keeps (st st' : Store) (now : Z) (id : string)
    (updates : PartialMeeting.t) :
  well_keyed st /\ stored_dates_valid st -> time_in_range now -> proper_updates updates ->
  updateMeeting st now id updates = Ok st' ->
  well_keyed st' /\ stored_dates_valid st'.
Proof.
  intros [Hwk Hdv] Hnow [Hpd Hps]. unfold updateMeeting.
  destruct (meetings st !! id) as [existing|] eqn:Hex; [|discriminate].
  destruct (updatesToDB updates) as [updatesDB|] eqn:Hup; cbn [mbind Result_bind];
    [|discriminate].
  cbn [toISOString]. intros [= <-]. split; [now apply put_meeting_well_keyed|].
  apply put_meeting_dates_valid; [exact Hdv|].
  unfold updatesToDB in Hup.
  apply spread_update_valid; [now apply (Hdv id)|exact Hnow| |].
  - intros text Htext.
    destruct (PartialMeeting.date updates) as [d|] eqn:Hdate; cbn in Hup.
    + destruct (toISOString d) as [text'|] eqn:Hiso; cbn in Hup; [|discriminate Hup].
      destruct (optSummaryToDB (PartialMeeting.summary updates)); cbn in Hup;
        [|discriminate Hup].
      injection Hup as <-. cbn in Htext. injection Htext as ->.
      eapply toISOString_parse_valid; [now apply Hpd|exact Hiso].
    + destruct (optSummaryToDB (PartialMeeting.summary updates)); cbn in Hup;
        [|discriminate Hup].
      injection Hup as <-. discriminate Htext.
  - intros sdb Hsdb.
    assert (Hsum : optSummaryToDB (PartialMeeting.summary updates) = Ok (Some sdb)).
    { destruct (match PartialMeeting.date updates with
                | Some d => s ← toISOString d; Ok (Some s)
                | None => Ok None
                end); cbn in Hup; [|discriminate Hup].
      destruct (optSummaryToDB (PartialMeeting.summary updates)); cbn in Hup;
        [|discriminate Hup].
      injection Hup as <-. cbn in Hsdb. now rewrite Hsdb. }
    destruct (PartialMeeting.summary updates) as [s|] eqn:Hs; [|discriminate Hsum].
    cbn in Hsum. unfold summaryToDB in Hsum.
    destruct (toISOString (Summary.generatedAt s)) as [text|] eqn:Hiso; cbn in Hsum;
      [|discriminate Hsum].
    injection Hsum as <-. cbn -[Date_parse].
    eapply toISOString_parse_valid; [now apply Hps|exact Hiso].
Qed.

Lemma deleteMeeting_keeps (st : Store) (id : string) :
  well_keyed st /\ stored_dates_valid st ->
  well_keyed (deleteMeeting st id) /\ stored_dates_valid (deleteMeeting st id).
Proof.
  intros [Hwk Hdv]. split; intros k r Hk; cbn in Hk;
    apply lookup_delete_Some in Hk as [_ Hk]; [now apply Hwk|now apply (Hdv k)].
Qed.

Lemma importMeeting_keeps (st st' : Store) (zip : MeetingFiles)
    (onDuplicate : DuplicatePolicy) (uuid id : string) :
  well_keyed st /\ stored_dates_valid st ->
  importMeeting st zip onDuplicate uuid = Ok (st', id) ->
  well_keyed st' /\ stored_dates_valid st'.
Proof.
  intros Hst. unfold importMeeting.
  destruct (metadata_json zip) as [f|]; [|discriminate].
  destruct (JSON_parse f) as [[e|]|]; cbn [read_metadata mbind Result_bind];
    [|discriminate|discriminate].
  assert (Hsave : forall id',
    (st0 ← saveMeeting st (importedMeeting e id' (read_audio zip e));
     Ok (st0, Meeting.id (importedMeeting e id' (read_audio zip e)))) = Ok (st', id) ->
    well_keyed st' /\ stored_dates_valid st').
  { intros id'.
    destruct (saveMeeting st (importedMeeting e id' (read_audio zip e))) as [st0|] eqn:Hs;
      cbn; [|discriminate].
    intros [= <- _]. eapply saveMeeting_keeps; eauto using importedMeeting_proper. }
  destruct (getMeeting st _); [destruct onDuplicate|]; try apply Hsave.
  now intros [= <- _].
Qed.

Lemma importAllMeetings_keeps (st st' : Store) (zip : BulkZip)
    (onDuplicate : DuplicatePolicy) (uuid : nat -> string) (ids : list string) :
  well_keyed st /\ stored_dates_valid st ->
  importAllMeetings st zip onDuplicate uuid = Ok (st', ids) ->
  well_keyed st' /\ stored_dates_valid st'.
Proof.
  intros Hst. unfold importAllMeetings.
  assert (Heach : forall fs acc i,
    well_keyed (fst acc) /\ stored_dates_valid (fst acc) ->
    well_keyed (fst (import_each onDuplicate uuid acc i fs))
    /\ stored_dates_valid (fst (import_each onDuplicate uuid acc i fs))).
  { induction fs as [|[n folder] fs IH]; intros acc i Hacc; cbn; [exact Hacc|].
    apply IH. unfold import_folder.
    destruct (importMeeting (fst acc) folder onDuplicate (uuid i)) as [[st0 id]|] eqn:Himp;
      [|exact Hacc].
    cbn. eapply importMeeting_keeps; eauto. }
  destruct (folders zip) as [|f fs]; [discriminate|].
  intros [= Heq]. specialize (Heach (f :: fs) (st, []) 0%nat Hst).
  change st' with (fst (st', ids)). now rewrite <- Heq.
Qed.

Lemma logCost_meetings (st : Store) (now : LocalNow) (now' : Z) (meetingId : string)
    (type : CostType) (amount : float) :
  meetings (logCost st now now' meetingId type amount) = meetings st.
Proof. reflexivity. Qed.

Lemma reachable_keeps (st : Store) :
  reachable st -> well_keyed st /\ stored_dates_valid st.
Proof.
  induction 1 as [|st m st' _ IH Hp Hrun|st now id u st' _ IH Hnow Hp Hrun
                  |st now id st' _ IH Hnow Hrun|st id _ IH
                  |st zip pol uuid st' id _ IH Hrun|st zip pol uuid st' ids _ IH Hrun
                  |st now now' mid type amount _ IH|st _ IH].
  - split; intros k r Hk; cbn in Hk; now rewrite lookup_empty in Hk.
  - eapply saveMeeting_keeps; eauto.
  - eapply updateMeeting_keeps; eauto.
  - eapply updateMeeting_keeps; [exact IH|exact Hnow| |exact Hrun].
    split; [intros d Hd|intros s Hs]; discriminate.
  - now apply deleteMeeting_keeps.
  - eapply importMeeting_keeps; eauto.
  - eapply importAllMeetings_keeps; eauto.
  - exact IH.
  - split; intros k r Hk; cbn in Hk; now rewrite lookup_empty in Hk.
Qed.

Lemma reachable_well_keyed (st : Store) : reachable st -> well_keyed st.
Proof. intros H. now apply reachable_keeps. Qed.

Lemma reachable_get_valid (st : Store) (id : string) (m : Meeting.t) :
  reachable st -> getMeeting st id = Some m -> valid_dates m.
Proof.
  intros Hreach. unfold getMeeting.
  destruct (meetings st !! id) as [r|] eqn:Hr; cbn; [|discriminate].
  intros [= <-]. now apply (proj2 (reachable_keeps st Hreach) id).
Qed.

(** ** Import and export of one meeting *)

Lemma getMeeting_id (st : Store) (id : string) (m : Meeting.t) :
  well_keyed st -> getMeeting st id = Some m -> Meeting.id m = id.
Proof.
  intros Hwk. unfold getMeeting.
  destruct (meetings st !! id) as [r|] eqn:Hr; cbn; [|discriminate].
  intros [= <-]. cbn. now apply Hwk.
Qed.

(** C6. For every meeting stored under [id] in a store that the program
    can build, [updateMeeting(id, {title: X})] succeeds
    and changes only the stored title, to [X], and [updatedAt], to the
    current time: every other field of the record (id, date, duration,
    audio, transcript, summary, speakers, tags, category, archived,
    createdAt) keeps its value, and so do the other records and the cost
    ledger. *)
Theorem C6_update_title_isolation (st : Store) (now : Z) (id X : string)
    (existing : MeetingDB.t) :
  reachable st ->
  meetings st !! id = Some existing ->
  exists st' updated,
    updateMeeting st now id (title_update X) = Ok st'
    /\ meetings st' !! id = Some updated
    /\ MeetingDB.title updated = X
    /\ MeetingDB.updatedAt updated = iso_of_time now
    /\ MeetingDB.id updated = MeetingDB.id existing
    /\ MeetingDB.date updated = MeetingDB.date existing
    /\ MeetingDB.duration updated = MeetingDB.duration existing
    /\ MeetingDB.audioBlob updated = MeetingDB.audioBlob existing
    /\ MeetingDB.transcript updated = MeetingDB.transcript existing
    /\ MeetingDB.summary updated = MeetingDB.summary existing
    /\ MeetingDB.speakers updated = MeetingDB.speakers existing
    /\ MeetingDB.tags updated = MeetingDB.tags existing
    /\ MeetingDB.category updated = MeetingDB.category existing
    /\ MeetingDB.archived updated = MeetingDB.archived existing
    /\ MeetingDB.createdAt updated = MeetingDB.createdAt existing
    /\ (forall k, k <> id -> meetings st' !! k = meetings st !! k)
    /\ costs st' = costs st.
Proof.
  intros Hreach Hex. pose proof (reachable_well_keyed st Hreach _ _ Hex) as Hid. subst id.
  unfold updateMeeting. rewrite Hex. cbn [updatesToDB title_update mbind Result_bind
    PartialMeeting.date PartialMeeting.summary optSummaryToDB toISOString].
  eexists _, _. split; [reflexivity|]. split.
  - exact (put_meeting_lookup st _).
  - repeat (split; [reflexivity|]). split; [|reflexivity].
    intros k Hk. now apply put_meeting_lookup_ne.
Qed.

Lemma saveMeeting_valid (st : Store) (m : Meeting.t) :
  valid_dates m ->
  exists r,
    meetingToDB m = Ok r
    /\ saveMeeting st m = Ok (put_meeting st r)
    /\ MeetingDB.id r = Meeting.id m
    /\ dbToMeeting r = if Meeting.archived m then with_audio m new_Blob else m.
Proof.
  intros Hv. destruct (meetingToDB_round_trip m Hv) as (r & Hr & Hid & Hback).
  exists r. unfold saveMeeting. rewrite Hr. now cbn.
Qed.

Lemma readable_instant (text : string) :
  valid_date (Date_parse text) ->
  exists t, Date_parse text = DateAt t /\ toISOString (Date_parse text) = Ok (iso_of_time t).
Proof.
  destruct (Date_parse text) as [|t]; cbn; [contradiction|]. intros _. eauto.
Qed.

Lemma read_audio_bytes (zip : MeetingFiles) (e : ExportedMeeting.t) :
  read_audio zip e = {| blob_bytes := archive_audio zip e; blob_type := EmptyString |}.
Proof.
  unfold read_audio, archive_audio, new_Blob.
  destruct (audio_webm zip) as [bytes|], (ExportedMeeting.hasAudio e); reflexivity.
Qed.

(** What the importers save for a document with readable dates, under the
    id [k]. *)
Lemma import_saves (st : Store) (zip : MeetingFiles) (e : ExportedMeeting.t) (k : string) :
  dates_readable e ->
  exists r,
    saveMeeting st (importedMeeting e k (read_audio zip e)) = Ok (put_meeting st r)
    /\ holds_import zip e k r.
Proof.
  intros (Hd & Hc & Hu & Hs). unfold saveMeeting, meetingToDB, importedMeeting.
  cbn [Meeting.id Meeting.title Meeting.date Meeting.duration Meeting.audioBlob
       Meeting.transcript Meeting.summary Meeting.speakers Meeting.tags Meeting.category
       Meeting.archived Meeting.createdAt Meeting.updatedAt].
  destruct (readable_instant _ Hd) as (td & Hpd & ->).
  destruct (readable_instant _ Hc) as (tc & Hpc & ->).
  destruct (readable_instant _ Hu) as (tu & Hpu & ->).
  cbn [mbind Result_bind].
  assert (Hsummary : exists stored,
            optSummaryToDB (dbToSummary <$> ExportedMeeting.summary e) = Ok stored
            /\ match ExportedMeeting.summary e, stored with
               | Some s, Some stored => same_summary s stored
               | None, None => True
               | _, _ => False
               end).
  { destruct (ExportedMeeting.summary e) as [s|]; cbn [fmap option_fmap option_map
      optSummaryToDB]; [|exists None; split; [reflexivity|exact I]].
    unfold summaryToDB, dbToSummary. cbn [Summary.generatedAt].
    destruct (readable_instant _ (Hs s eq_refl)) as (ts & Hps & ->).
    cbn [mbind Result_bind]. eexists. split; [reflexivity|].
    unfold same_summary. cbn. repeat split. exists ts. split; [exact Hps|reflexivity]. }
  destruct Hsummary as (stored & -> & Hstored). cbn [mbind Result_bind].
  eexists. split; [reflexivity|]. unfold holds_import.
  cbn [MeetingDB.id MeetingDB.title MeetingDB.date MeetingDB.duration MeetingDB.audioBlob
       MeetingDB.transcript MeetingDB.summary MeetingDB.speakers MeetingDB.tags
       MeetingDB.category MeetingDB.archived MeetingDB.createdAt MeetingDB.updatedAt].
  rewrite read_audio_bytes.
  split; [reflexivity|]. split; [reflexivity|]. split; [exists td; auto|].
  split; [reflexivity|]. split; [reflexivity|]. split; [reflexivity|].
  split; [exact Hstored|]. split; [reflexivity|]. split; [reflexivity|].
  split; [reflexivity|]. split; [reflexivity|].
  split; [exists tc; auto|exists tu; auto].
Qed.

Lemma holds_import_id (zip : MeetingFiles) (e : ExportedMeeting.t) (k : string)
    (r : MeetingDB.t) :
  holds_import zip e k r -> MeetingDB.id r = k.
Proof. intros H. exact (proj1 H). Qed.

(** C4 (as amended). When [importMeeting] is given an archive whose
    metadata document has dates that denote valid dates and whose metadata
    id is the id of a meeting stored in a store that the program can
    build: with policy keep-both it stores the imported content under the
    identifier [uuid] that [crypto.randomUUID()] returns and leaves the
    records under every other id as they were, so that the existing record
    is unchanged if [uuid] differs from the existing id; with policy skip
    it writes nothing, the store is the same, and it returns the existing
    id; with policy replace it overwrites the record at the existing id
    with the imported content and leaves the other records. *)
Theorem C4_duplicate_policy (st : Store) (zip : MeetingFiles) (e : ExportedMeeting.t)
    (existing : MeetingDB.t) (uuid : string) :
  let id := Metadata.id (ExportedMeeting.metadata e) in
  reachable st ->
  metadata_json zip = Some (Stringified e) ->
  meetings st !! id = Some existing ->
  dates_readable e ->
  (exists st' r,
      importMeeting st zip keep_both uuid = Ok (st', uuid)
      /\ meetings st' !! uuid = Some r
      /\ holds_import zip e uuid r
      /\ (forall k, k <> uuid -> meetings st' !! k = meetings st !! k)
      /\ (uuid <> id -> meetings st' !! id = Some existing)
      /\ costs st' = costs st)
  /\ importMeeting st zip skip uuid = Ok (st, id)
  /\ (exists st' r,
        importMeeting st zip replace uuid = Ok (st', id)
        /\ meetings st' !! id = Some r
        /\ holds_import zip e id r
        /\ (forall k, k <> id -> meetings st' !! k = meetings st !! k)
        /\ costs st' = costs st).
Proof.
  intros id Hreach Hmeta Hex Hdates.
  pose proof (reachable_well_keyed st Hreach) as Hwk.
  assert (Hget : getMeeting st id = Some (dbToMeeting existing))
    by (unfold getMeeting; now rewrite Hex).
  unfold importMeeting. rewrite Hmeta. cbn [JSON_parse read_metadata mbind Result_bind].
  fold id. rewrite Hget. split; [|split].
  - destruct (import_saves st zip e uuid Hdates) as (r & -> & Hr).
    pose proof (holds_import_id _ _ _ _ Hr) as Hid.
    cbn [mbind Result_bind importedMeeting Meeting.id].
    exists (put_meeting st r), r. split; [reflexivity|].
    split; [rewrite <- Hid; apply put_meeting_lookup|]. split; [exact Hr|].
    split; [intros k Hk; apply put_meeting_lookup_ne; congruence|].
    split; [|reflexivity].
    intros Hne. rewrite put_meeting_lookup_ne by congruence. exact Hex.
  - cbn. f_equal. f_equal. now apply Hwk.
  - destruct (import_saves st zip e id Hdates) as (r & -> & Hr).
    pose proof (holds_import_id _ _ _ _ Hr) as Hid.
    cbn [mbind Result_bind importedMeeting Meeting.id].
    exists (put_meeting st r), r. split; [reflexivity|].
    split; [rewrite <- Hid; apply put_meeting_lookup|]. split; [exact Hr|].
    split; [intros k Hk; apply put_meeting_lookup_ne; congruence|reflexivity].
Qed.

Lemma exportedMeetingOf_valid (m : Meeting.t) :
  valid_dates m ->
  exists e,
    exportedMeetingOf m = Ok e
    /\ Metadata.id (ExportedMeeting.metadata e) = Meeting.id m
    /\ ExportedMeeting.hasAudio e
       = negb (Meeting.archived m) && (0 <? blob_size (Meeting.audioBlob m))%nat
    /\ forall audio, importedMeeting e (Meeting.id m) audio = with_audio m audio.
Proof.
  intros (Hd & Hc & Hu & Hs).
  destruct (toISOString_valid _ Hd) as (d & Hdi & Hdp).
  destruct (toISOString_valid _ Hc) as (c & Hci & Hcp).
  destruct (toISOString_valid _ Hu) as (u & Hui & Hup).
  destruct (optSummaryToDB_round_trip _ Hs) as (s & Hsi & Hsp).
  unfold exportedMeetingOf. rewrite Hdi, Hci, Hui, Hsi. cbn [mbind Result_bind].
  eexists. split; [reflexivity|]. split; [reflexivity|]. split; [reflexivity|].
  intros audio. unfold importedMeeting, with_audio. cbn.
  now rewrite Hdp, Hcp, Hup, Hsp.
Qed.

Lemma valid_dates_with_audio (m : Meeting.t) (audio : Blob) :
  valid_dates m -> valid_dates (with_audio m audio).
Proof. intros H. exact H. Qed.

(** C2 (as amended). For every meeting [m] stored in a store that the
    program can build, whose audio is empty if it is archived,
    [exportMeeting] returns an archive,
    [importMeeting] of that archive with policy replace succeeds and
    returns the id of [m], and the meeting then stored under that id is
    [m] in every field, [updatedAt] included; the audio has the bytes of
    the audio of [m] (the archive keeps no media type). *)
Theorem C2_export_import_round_trip `{Locale} (st : Store) (id uuid : string)
    (m : Meeting.t) :
  reachable st ->
  getMeeting st id = Some m ->
  (Meeting.archived m = true -> blob_bytes (Meeting.audioBlob m) = []) ->
  exists zip st',
    exportMeeting st id = Ok zip
    /\ importMeeting st zip replace uuid = Ok (st', id)
    /\ getMeeting st' id
       = Some (with_audio m {| blob_bytes := blob_bytes (Meeting.audioBlob m);
                               blob_type := EmptyString |}).
Proof.
  intros Hreach Hget Harch.
  pose proof (reachable_well_keyed st Hreach) as Hwk.
  pose proof (reachable_get_valid st id m Hreach Hget) as Hvalid.
  pose proof (getMeeting_id st id m Hwk Hget) as Hid. subst id.
  destruct (exportedMeetingOf_valid m Hvalid) as (e & He & Heid & Hhas & Himp).
  unfold exportMeeting. rewrite Hget. unfold add_meeting_files. rewrite He.
  cbn [mbind Result_bind].
  match goal with |- context [Ok ?z = Ok _] => set (zip := z) end.
  set (audio := read_audio zip e).
  destruct (saveMeeting_valid st (with_audio m audio)
              (valid_dates_with_audio m audio Hvalid)) as (r & Hr & Hsave & Hrid & Hback).
  exists zip, (put_meeting st r). split; [reflexivity|].
  unfold importMeeting. cbn [zip metadata_json JSON_parse read_metadata mbind Result_bind].
  rewrite Heid, Hget, Himp. fold zip. fold audio.
  rewrite Hsave. cbn [mbind Result_bind]. cbn in Hrid. split; [reflexivity|].
  unfold getMeeting. rewrite <- Hrid, put_meeting_lookup.
  cbn [fmap option_fmap option_map]. rewrite Hback. f_equal.
  subst audio zip. unfold read_audio. cbn. rewrite Hhas.
  unfold with_audio, new_Blob, blob_size. cbn.
  destruct (Meeting.archived m) eqn:Ha; cbn.
  - now rewrite (Harch eq_refl).
  - destruct (blob_bytes (Meeting.audioBlob m)) as [|b bs]; reflexivity.
Qed.

Lemma saved_store_reachable : reachable saved_store.
Proof.
  apply (reach_saveMeeting empty_store sample_meeting saved_store reach_empty);
    [|reflexivity].
  split; [exact jan_1_in_range|]. split; [exact jan_1_in_range|].
  split; [exact jan_1_in_range|]. intros s Hs. discriminate Hs.
Qed.

Lemma flagged_store_reachable : reachable flagged_store.
Proof.
  apply (reach_updateMeeting saved_store feb_1 "m1" (archived_update true) flagged_store
           saved_store_reachable feb_1_in_range); [|reflexivity].
  split; [intros d Hd|intros s Hs]; discriminate.
Qed.

(** C1 (the code at the failing input). After [saveMeeting] of a meeting
    with two bytes of audio and [updateMeeting('m1', { archived: true })],
    both of which return, the stored record has [archived == true] and
    still holds the two bytes: a store that the program can build does not
    satisfy the archive invariant. *)
Theorem C1_update_archived_keeps_audio :
  exists r,
    saveMeeting empty_store sample_meeting = Ok saved_store
    /\ updateMeeting saved_store feb_1 "m1" (archived_update true) = Ok flagged_store
    /\ reachable flagged_store
    /\ meetings flagged_store !! "m1" = Some r
    /\ MeetingDB.archived r = true
    /\ MeetingDB.audioBlob r = Some (Meeting.audioBlob sample_meeting)
    /\ ~ archive_invariant flagged_store.
Proof.
  assert (Hr : meetings flagged_store !! "m1"
               = Some (spread_update sample_record
                         {| PartialMeetingDB.title := None;
                            PartialMeetingDB.transcript := None;
                            PartialMeetingDB.speakers := None;
                            PartialMeetingDB.tags := None;
                            PartialMeetingDB.category := None;
                            PartialMeetingDB.archived := Some true;
                            PartialMeetingDB.duration := None;
                            PartialMeetingDB.audioBlob := None;
                            PartialMeetingDB.date := None;
                            PartialMeetingDB.summary := None |}
                         (iso_of_time feb_1)))
    by (vm_compute; reflexivity).
  eexists. split; [reflexivity|]. split; [reflexivity|].
  split; [exact flagged_store_reachable|]. split; [exact Hr|].
  split; [reflexivity|]. split; [reflexivity|].
  intros Hinv. specialize (Hinv _ _ Hr eq_refl). discriminate Hinv.
Qed.


(** ** The cost ledger *)

(** The constants are the doubles nearest to one tenth and three tenths. *)
Lemma ten_cents_is_a_tenth : ten_cents = (1 / 10)%float.
Proof. reflexivity. Qed.

Lemma thirty_cents_is_three_tenths : thirty_cents = (3 / 10)%float.
Proof. reflexivity. Qed.

Lemma thirty_cents_and_a_bit_is_next : thirty_cents_and_a_bit = next_up thirty_cents.
Proof. reflexivity. Qed.

Lemma updateCostTracking_costs (st : Store) (now : Z) (month : string) (tc sc : float) :
  exists st' r,
    updateCostTracking st now month tc sc = Ok st'
    /\ meetings st' = meetings st
    /\ costs st' = <[CostTrackingDB.month r := r]> (costs st)
    /\ r = match costs st !! month with
           | Some existing =>
               {| CostTrackingDB.month := CostTrackingDB.month existing;
                  CostTrackingDB.transcriptionCost :=
                    CostTrackingDB.transcriptionCost existing + tc;
                  CostTrackingDB.summarizationCost :=
                    CostTrackingDB.summarizationCost existing + sc;
                  CostTrackingDB.meetingCount := CostTrackingDB.meetingCount existing + 1;
                  CostTrackingDB.totalCost :=
                    CostTrackingDB.transcriptionCost existing
                    + CostTrackingDB.summarizationCost existing + tc + sc;
                  CostTrackingDB.lastUpdated := iso_of_time now |}
           | None =>
               {| CostTrackingDB.month := month;
                  CostTrackingDB.transcriptionCost := tc;
                  CostTrackingDB.summarizationCost := sc;
                  CostTrackingDB.meetingCount := 1;
                  CostTrackingDB.totalCost := tc + sc;
                  CostTrackingDB.lastUpdated := iso_of_time now |}
           end%float.
Proof.
  unfold updateCostTracking. cbn [toISOString mbind Result_bind].
  eexists _, _. split; [reflexivity|]. split; [reflexivity|]. split; reflexivity.
Qed.

Lemma month_of_same (a b : LocalNow) :
  getFullYear b = getFullYear a -> getMonth b = getMonth a -> month_of b = month_of a.
Proof. unfold month_of. now intros -> ->. Qed.

(** C5 (as amended). From a state with no cost record for the current
    month, three [logCost] calls of kind transcription and amount 0.10 in
    the same calendar month leave a record for that month with
    [meetingCount == 3], [summarizationCost == 0], and with
    [transcriptionCost] and [totalCost] both equal to the double
    (0.10 + 0.10) + 0.10, which is 0.30000000000000004. *)
Theorem C5_cost_accumulation (st : Store) (n1 n2 n3 : LocalNow) (t1 t2 t3 : Z)
    (id1 id2 id3 : string) :
  getFullYear n2 = getFullYear n1 -> getMonth n2 = getMonth n1 ->
  getFullYear n3 = getFullYear n1 -> getMonth n3 = getMonth n1 ->
  costs st !! month_of n1 = None ->
  exists r,
    costs (logCost
             (logCost (logCost st n1 t1 id1 transcription ten_cents)
                n2 t2 id2 transcription ten_cents)
             n3 t3 id3 transcription ten_cents) !! month_of n1 = Some r
    /\ CostTrackingDB.transcriptionCost r = thirty_cents_and_a_bit
    /\ CostTrackingDB.meetingCount r = 3%float
    /\ CostTrackingDB.summarizationCost r = 0%float
    /\ CostTrackingDB.totalCost r = thirty_cents_and_a_bit.
Proof.
  intros Hy2 Hm2 Hy3 Hm3 Hnone.
  unfold logCost. rewrite (month_of_same n1 n2 Hy2 Hm2), (month_of_same n1 n3 Hy3 Hm3).
  set (month := month_of n1) in *.
  destruct (updateCostTracking_costs st t1 month ten_cents 0) as (s1 & r1 & -> & _ & Hc1 & Hr1).
  rewrite Hnone in Hr1.
  assert (Hl1 : costs s1 !! month = Some r1)
    by (rewrite Hc1, Hr1; apply lookup_insert_eq).
  destruct (updateCostTracking_costs s1 t2 month ten_cents 0) as (s2 & r2 & -> & _ & Hc2 & Hr2).
  rewrite Hl1 in Hr2.
  assert (Hl2 : costs s2 !! month = Some r2)
    by (rewrite Hc2, Hr2, Hr1; apply lookup_insert_eq).
  destruct (updateCostTracking_costs s2 t3 month ten_cents 0) as (s3 & r3 & -> & _ & Hc3 & Hr3).
  rewrite Hl2 in Hr3.
  exists r3. split; [rewrite Hc3, Hr3, Hr2, Hr1; apply lookup_insert_eq|].
  subst r3 r2 r1. repeat split; reflexivity.
Qed.


(** ** The chunk combiner *)

Section CombinerFacts.
Context {num : Type} (add : num -> num -> num) (zero : num) (le : num -> num -> Prop).

Abbreviation Segment := (WhisperSegment.t num).
Abbreviation Response := (WhisperResponse.t num).

Lemma segments_adjust_result (cum : num) (r : Response) :
  segments_or_empty (adjust_result add cum r)
  = map (adjust_segment add cum) (segments_or_empty r).
Proof.
  unfold adjust_result, segments_or_empty.
  destruct (WhisperResponse.segments r) eqn:Hsegs; cbn; [reflexivity|].
  now rewrite Hsegs.
Qed.

Lemma next_cumulativeTime_adjust (cum : num) (r : Response) :
  next_cumulativeTime cum (adjust_result add cum r)
  = match last (segments_or_empty r) with
    | Some s => add (WhisperSegment.end_ s) cum
    | None => cum
    end.
Proof.
  unfold next_cumulativeTime, adjust_result, segments_or_empty.
  destruct (WhisperResponse.segments r) as [segments|] eqn:Hsegs; cbn;
    [|now rewrite Hsegs].
  rewrite fmap_last. now destruct (last segments).
Qed.

Lemma transcribe_chunks_adjusts (transcribeAudio : Blob -> Result Response)
    (chunks : list Blob) (raw : list Response) (cum : num) (results : list Response) :
  Forall2 (fun chunk r => transcribeAudio chunk = Ok r) chunks raw ->
  transcribe_chunks add transcribeAudio chunks cum results
  = Ok (results ++ zip_with (adjust_result add) (offsets_from add cum raw) raw)%list.
Proof.
  intros Hall. revert cum results.
  induction Hall as [|chunk r chunks raw Hr _ IH]; intros cum results; cbn.
  - now rewrite app_nil_r.
  - rewrite Hr. cbn [mbind Result_bind].
    rewrite IH, next_cumulativeTime_adjust, <- app_assoc. reflexivity.
Qed.

Lemma flat_map_adjusted (offsets : list num) (raw : list Response) :
  flat_map segments_or_empty (zip_with (adjust_result add) offsets raw)
  = concat (zip_with (fun offset r => map (adjust_segment add offset) (segments_or_empty r))
              offsets raw).
Proof.
  revert raw. induction offsets as [|o offsets IH]; intros [|r raw]; cbn; try reflexivity.
  now rewrite segments_adjust_result, IH.
Qed.

(** The combiner moves each chunk by the cumulative end time of the chunks
    before it. *)
Lemma transcribeChunkedAudio_reoffsets (transcribeAudio : Blob -> Result Response)
    (chunks : list Blob) (raw : list Response) :
  Forall2 (fun chunk r => transcribeAudio chunk = Ok r) chunks raw ->
  exists combined,
    transcribeChunkedAudio add zero transcribeAudio chunks = Ok combined
    /\ WhisperResponse.segments combined = Some (reoffset add zero raw).
Proof.
  intros Hall. unfold transcribeChunkedAudio.
  rewrite (transcribe_chunks_adjusts _ _ raw _ _ Hall). cbn [mbind Result_bind app].
  eexists. split; [reflexivity|]. cbn. now rewrite flat_map_adjusted.
Qed.

Lemma non_decreasing_cons (a b : num) (l : list num) :
  non_decreasing le (a :: b :: l) <-> le a b /\ non_decreasing le (b :: l).
Proof. reflexivity. Qed.

Lemma non_decreasing_tail (a : num) (l : list num) :
  non_decreasing le (a :: l) -> non_decreasing le l.
Proof. destruct l as [|b l]; [intros _; exact I|]. now intros [_ H]. Qed.

(** Two rows that share an end point make one row. *)
Lemma non_decreasing_join (l1 l2 : list num) (x : num) :
  non_decreasing le (l1 ++ [x])%list -> non_decreasing le (x :: l2) ->
  non_decreasing le (l1 ++ x :: l2)%list.
Proof.
  intros H1 H2. induction l1 as [|a l1 IH]; [exact H2|].
  destruct l1 as [|b l1].
  - cbn in H1 |- *. destruct H1 as [Hax _].
    destruct l2; [tauto|]. cbn in H2. tauto.
  - change ((a :: b :: l1) ++ [x])%list with (a :: b :: (l1 ++ [x]))%list in H1.
    change ((a :: b :: l1) ++ x :: l2)%list with (a :: b :: (l1 ++ x :: l2))%list.
    apply non_decreasing_cons in H1 as [Hab H1]. apply non_decreasing_cons.
    split; [exact Hab|]. now apply IH.
Qed.

Lemma timeline_adjust (cum : num) (segments : list Segment) :
  timeline (map (adjust_segment add cum) segments)
  = map (fun t => add t cum) (timeline segments).
Proof.
  unfold timeline. induction segments as [|s segments IH]; cbn; [reflexivity|].
  now rewrite IH.
Qed.

Lemma timeline_app (l1 l2 : list Segment) :
  timeline (l1 ++ l2)%list = (timeline l1 ++ timeline l2)%list.
Proof. unfold timeline. apply flat_map_app. Qed.

Lemma timeline_last (segments : list Segment) (s : Segment) :
  last segments = Some s ->
  exists before, timeline segments = (before ++ [WhisperSegment.end_ s])%list.
Proof.
  intros Hlast. apply last_Some in Hlast as (front & ->).
  exists (timeline front ++ [WhisperSegment.start s])%list.
  unfold timeline. rewrite flat_map_app. cbn. now rewrite <- app_assoc.
Qed.

Hypothesis le_trans : forall a b c, le a b -> le b c -> le a c.
Hypothesis add_mono : forall a b c, le a b -> le (add a c) (add b c).
Hypothesis add_zero : forall c, le c (add zero c).

Lemma non_decreasing_shift (cum : num) (ts : list num) :
  non_decreasing le ts -> non_decreasing le (map (fun t => add t cum) ts).
Proof.
  induction ts as [|a ts IH]; [intros _; exact I|].
  destruct ts as [|b ts]; [intros _; exact I|].
  intros [Hab Hrest]. cbn [map]. apply non_decreasing_cons.
  split; [now apply add_mono|]. now apply IH.
Qed.

(** A chunk that starts at or after 0, moved by [cum], starts at or after
    [cum]. *)
Lemma non_decreasing_from (cum : num) (ts : list num) :
  non_decreasing le (zero :: ts) ->
  non_decreasing le (cum :: map (fun t => add t cum) ts).
Proof.
  intros H. apply (non_decreasing_shift cum) in H. cbn [map] in H.
  destruct ts as [|a ts]; [exact I|]. cbn [map] in *.
  apply non_decreasing_cons in H as [H0 Hrest]. apply non_decreasing_cons.
  split; [|exact Hrest]. eapply le_trans; [apply add_zero|exact H0].
Qed.

Lemma reoffset_from_non_decreasing (raw : list Response) (cum : num) :
  (forall r, In r raw -> non_decreasing le (zero :: timeline (segments_or_empty r))) ->
  non_decreasing le
    (cum :: timeline
       (concat (zip_with (fun offset r => map (adjust_segment add offset) (segments_or_empty r))
                  (offsets_from add cum raw) raw))).
Proof.
  revert cum. induction raw as [|r raw IH]; intros cum Hraw; [exact I|].
  cbn [offsets_from zip_with concat].
  assert (Hr := Hraw r (or_introl eq_refl)).
  assert (Hrest : forall r', In r' raw ->
    non_decreasing le (zero :: timeline (segments_or_empty r')))
    by (intros r' Hin; apply Hraw; now right).
  rewrite timeline_app, timeline_adjust.
  destruct (last (segments_or_empty r)) as [s|] eqn:Hlast.
  - destruct (timeline_last _ _ Hlast) as (before & Htl).
    apply (non_decreasing_from cum) in Hr. rewrite Htl in Hr |- *.
    rewrite map_app in Hr |- *. cbn [map] in Hr |- *.
    rewrite <- app_assoc. cbn [app].
    apply (non_decreasing_join (cum :: map _ before)).
    + exact Hr.
    + apply IH, Hrest.
  - apply last_None in Hlast. rewrite Hlast. cbn. apply IH, Hrest.
Qed.

(** C8. For every non-empty list of audio chunks that [transcribeAudio]
    transcribes, [transcribeChunkedAudio] returns the segments of the
    chunks one chunk after the other, each chunk moved by the cumulative
    end time of the chunks before it (the moved end of the last segment
    before it, 0 at the start); and if in every chunk the time stamps,
    read start, end, start, end, ..., never go down and start at or after
    0, then the time stamps of the combined result never go down either,
    across chunk boundaries included. The numbers are any type with an
    order that is transitive, an addition that is monotone in its left
    argument, and a zero with [c <= 0 + c]. *)
Theorem C8_chunk_offsets (transcribeAudio : Blob -> Result Response)
    (chunks : list Blob) (raw : list Response) :
  chunks <> [] ->
  Forall2 (fun chunk r => transcribeAudio chunk = Ok r) chunks raw ->
  exists combined,
    transcribeChunkedAudio add zero transcribeAudio chunks = Ok combined
    /\ WhisperResponse.segments combined = Some (reoffset add zero raw)
    /\ ((forall r, In r raw -> non_decreasing le (zero :: timeline (segments_or_empty r)))
        -> non_decreasing le (timeline (reoffset add zero raw))).
Proof.
  intros _ Hall.
  destruct (transcribeChunkedAudio_reoffsets transcribeAudio chunks raw Hall)
    as (combined & Hrun & Hsegs).
  exists combined. split; [exact Hrun|]. split; [exact Hsegs|].
  intros Hraw. eapply non_decreasing_tail.
  apply (reoffset_from_non_decreasing raw zero Hraw).
Qed.

End CombinerFacts.

(** The combiner on doubles: the second chunk is moved by 5.25 seconds. *)
Example transcribeChunkedAudio_on_doubles :
  transcribeChunkedAudio PrimFloat.add 0%float double_transcribeAudio
    [first_chunk; second_chunk]
  = Ok {| WhisperResponse.text := "good morning everyone";
          WhisperResponse.segments :=
            Some [double_segment 0 2.5 "good"; double_segment 2.5 5.25 "morning";
                  double_segment 5.75 7 "everyone"]%float |}.
Proof. reflexivity. Qed.

(** ** The two readings of [searchMeetings] agree on Latin-1 *)

Lemma of_latin1_String (c : ascii) (s : string) :
  Unicode.of_latin1 (String c s) = N_of_ascii c :: Unicode.of_latin1 s.
Proof. reflexivity. Qed.

Lemma known_latin1 (s : string) : forallb Unicode.known (Unicode.of_latin1 s) = true.
Proof.
  induction s as [|c s IH]; [reflexivity|].
  rewrite of_latin1_String. cbn [forallb]. rewrite IH, andb_true_r.
  unfold Unicode.known. pose proof (N_ascii_bounded c) as Hc.
  apply N.ltb_lt in Hc. now rewrite Hc.
Qed.

Lemma toLowerCase_unit_latin1 (c : ascii) :
  Unicode.toLowerCase_unit (N_of_ascii c) = N_of_ascii (toLowerCase_unit c).
Proof.
  destruct c as [[] [] [] [] [] [] [] []]; vm_compute; reflexivity.
Qed.

Lemma lower_from_latin1 (before : Unicode.text) (s : string) :
  Unicode.lower_from before (Unicode.of_latin1 s) = Unicode.of_latin1 (toLowerCase s).
Proof.
  revert before. induction s as [|c s IH]; intros before; [reflexivity|].
  cbn [toLowerCase]. rewrite !of_latin1_String. cbn [Unicode.lower_from].
  rewrite IH, toLowerCase_unit_latin1.
  pose proof (N_ascii_bounded c) as Hc.
  destruct (N.eqb_spec (N_of_ascii c) Unicode.capital_sigma) as [Heq|_]; [|reflexivity].
  unfold Unicode.capital_sigma in Heq. lia.
Qed.

Lemma toLowerCase_latin1 (s : string) :
  Unicode.toLowerCase (Unicode.of_latin1 s) = Some (Unicode.of_latin1 (toLowerCase s)).
Proof. unfold Unicode.toLowerCase. now rewrite known_latin1, lower_from_latin1. Qed.

Lemma all_toLowerCase_latin1 (l : list string) :
  Unicode.all_toLowerCase (map Unicode.of_latin1 l)
  = Some (map Unicode.of_latin1 (map toLowerCase l)).
Proof.
  induction l as [|s l IH]; [reflexivity|].
  cbn [map Unicode.all_toLowerCase]. now rewrite toLowerCase_latin1, IH.
Qed.

Lemma N_of_ascii_eqb (a b : ascii) :
  (N_of_ascii a =? N_of_ascii b)%N = if ascii_dec a b then true else false.
Proof.
  destruct (ascii_dec a b) as [->|Hne]; [apply N.eqb_refl|].
  apply N.eqb_neq. intros Heq. apply Hne.
  now rewrite <- (ascii_N_embedding a), <- (ascii_N_embedding b), Heq.
Qed.

Lemma starts_with_latin1 (sub s : string) :
  Unicode.starts_with (Unicode.of_latin1 sub) (Unicode.of_latin1 s) = String.prefix sub s.
Proof.
  revert s. induction sub as [|c sub IH]; intros [|d s]; try reflexivity.
  rewrite !of_latin1_String. cbn [Unicode.starts_with String.prefix].
  rewrite N_of_ascii_eqb, IH. now destruct (ascii_dec c d).
Qed.

Lemma includes_latin1 (s sub : string) :
  Unicode.includes (Unicode.of_latin1 s) (Unicode.of_latin1 sub) = includes s sub.
Proof.
  induction s as [|c s IH].
  - cbn [includes]. change (Unicode.of_latin1 EmptyString) with (@nil N).
    cbn [Unicode.includes]. f_equal.
    change (@nil N) with (Unicode.of_latin1 EmptyString). apply starts_with_latin1.
  - cbn [includes]. rewrite <- IH, <- starts_with_latin1. reflexivity.
Qed.

Lemma existsb_includes_latin1 (l : list string) (sub : string) :
  existsb (fun t => Unicode.includes t (Unicode.of_latin1 sub)) (map Unicode.of_latin1 l)
  = some (fun t => includes t sub) l.
Proof.
  unfold some. induction l as [|s l IH]; [reflexivity|].
  cbn [map existsb]. now rewrite includes_latin1, IH.
Qed.

(** On the meetings and the queries of the development the wider reading
    of the filter gives what [matches_query] gives. *)
Lemma matches_query_latin1 (query : string) (meeting : Meeting.t) :
  Unicode.matches_query (Unicode.of_latin1 query) (Unicode.searched meeting)
  = Some (matches_query (toLowerCase query) meeting).
Proof.
  unfold Unicode.matches_query, Unicode.searched, matches_query.
  cbn [Unicode.title Unicode.transcript Unicode.tags Unicode.summary].
  rewrite !toLowerCase_latin1, all_toLowerCase_latin1, !includes_latin1.
  rewrite existsb_includes_latin1.
  assert (Htags : some (fun t => includes t (toLowerCase query)) (map toLowerCase (Meeting.tags meeting))
                  = some (fun tag => includes (toLowerCase tag) (toLowerCase query))
                      (Meeting.tags meeting)).
  { unfold some. induction (Meeting.tags meeting) as [|t l IH]; [reflexivity|].
    cbn [map existsb]. now rewrite IH. }
  rewrite Htags. destruct (Meeting.summary meeting) as [s|].
  - rewrite toLowerCase_latin1, all_toLowerCase_latin1, includes_latin1,
      existsb_includes_latin1.
    assert (Hkps : some (fun t => includes t (toLowerCase query))
                     (map toLowerCase (Summary.keyPoints s))
                   = some (fun kp => includes (toLowerCase kp) (toLowerCase query))
                       (Summary.keyPoints s)).
    { unfold some. induction (Summary.keyPoints s) as [|t l IH]; [reflexivity|].
      cbn [map existsb]. now rewrite IH. }
    rewrite Hkps. reflexivity.
  - now rewrite !orb_false_r.
Qed.

(** ** More properties of the store *)

Lemma sort_insert_Sorted {A : Type} (compare : A -> A -> Z) (R : A -> A -> Prop)
    (P : A -> Prop) (x : A) (l : list A) :
  (forall a b, P a -> P b -> compare a b <= 0 -> R a b) ->
  (forall a b, P a -> P b -> ~ compare a b <= 0 -> R b a) ->
  P x -> Forall P l -> Sorted R l -> Sorted R (sort_insert compare x l).
Proof.
  intros Hle Hgt Hx Hl Hs. induction l as [|y l IH]; cbn.
  - repeat constructor.
  - apply Forall_cons in Hl as [Hy Hl]. apply Sorted_inv in Hs as [Hs Hhd].
    destruct (compare x y <=? 0) eqn:Hc.
    + apply Z.leb_le in Hc. constructor; [now constructor|].
      constructor. now apply Hle.
    + apply Z.leb_gt in Hc. constructor; [now apply IH|].
      destruct l as [|z l]; cbn.
      * constructor. apply Hgt; [exact Hx|exact Hy|lia].
      * destruct (compare x z <=? 0).
        -- constructor. apply Hgt; [exact Hx|exact Hy|lia].
        -- constructor. now apply HdRel_inv in Hhd.
Qed.

Lemma Array_sort_Sorted {A : Type} (compare : A -> A -> Z) (R : A -> A -> Prop)
    (P : A -> Prop) (l : list A) :
  (forall a b, P a -> P b -> compare a b <= 0 -> R a b) ->
  (forall a b, P a -> P b -> ~ compare a b <= 0 -> R b a) ->
  Forall P l -> Sorted R (Array_sort compare l).
Proof.
  intros Hle Hgt Hl. induction l as [|x l IH]; cbn; [constructor|].
  apply Forall_cons in Hl as [Hx Hl]. fold (Array_sort compare l).
  apply (sort_insert_Sorted compare R P); auto.
  rewrite Array_sort_Permutation. exact Hl.
Qed.

Lemma not_older_trans : Transitive not_older.
Proof.
  intros a b c. unfold not_older.
  destruct (getTime (Meeting.date a)), (getTime (Meeting.date b)),
    (getTime (Meeting.date c)); try tauto. lia.
Qed.

Lemma newest_first_sorts (l : list Meeting.t) :
  Forall (fun m => valid_date (Meeting.date m)) l ->
  StronglySorted not_older (Array_sort newest_first l).
Proof.
  intros Hl. apply Sorted_StronglySorted; [exact not_older_trans|].
  apply (Array_sort_Sorted newest_first not_older
           (fun m => valid_date (Meeting.date m))); [| |exact Hl];
    intros a b Ha Hb; unfold newest_first, not_older;
    destruct (Meeting.date a), (Meeting.date b); cbn in *; try tauto; lia.
Qed.

Lemma stored_meetings_valid (st : Store) (key : MeetingDB.t -> string) :
  stored_dates_valid st ->
  Forall (fun m => valid_date (Meeting.date m)) (map dbToMeeting (getAllFromIndex st key)).
Proof.
  intros Hdv. apply Forall_forall. intros m Hin.
  apply list_elem_of_fmap in Hin as (r & -> & Hr).
  apply elem_of_getAllFromIndex in Hr as (k & Hk). now destruct (Hdv k r Hk).
Qed.

(** X1. In every store the program can build, [getAllMeetings] lists each
    stored meeting once, and every meeting of the list is at least as new
    as all the meetings after it. *)
Theorem getAllMeetings_sorted_newest_first (st : Store) :
  reachable st ->
  StronglySorted not_older (getAllMeetings st)
  /\ getAllMeetings st ≡ₚ map dbToMeeting (map snd (map_to_list (meetings st))).
Proof.
  intros Hreach. destruct (reachable_keeps st Hreach) as [_ Hdv]. split.
  - apply newest_first_sorts, stored_meetings_valid, Hdv.
  - unfold getAllMeetings. rewrite Array_sort_Permutation.
    now rewrite getAllFromIndex_Permutation.
Qed.

(** X2. A [saveMeeting] that returns has stored the meeting under its id,
    where [getMeeting] reads it back (without audio if it is archived),
    whatever was stored there before; the meetings under other ids and the
    ledger are as before. *)
Theorem saveMeeting_then_getMeeting (st st' : Store) (m : Meeting.t) :
  proper_meeting m ->
  saveMeeting st m = Ok st' ->
  getMeeting st' (Meeting.id m) = Some (read_back m)
  /\ (forall id, id <> Meeting.id m -> getMeeting st' id = getMeeting st id)
  /\ costs st' = costs st.
Proof.
  intros Hp Hsave. unfold saveMeeting in Hsave.
  destruct (meetingToDB m) as [r|] eqn:Hr; cbn in Hsave; [|discriminate Hsave].
  injection Hsave as <-.
  destruct (meetingToDB_round_trip m (meetingToDB_proper m r Hp Hr)) as (r' & Hr' & Hid & Hback).
  rewrite Hr in Hr'. injection Hr' as <-. unfold getMeeting. repeat split.
  - rewrite <- Hid, put_meeting_lookup. cbn. now rewrite Hback.
  - intros id Hne. rewrite put_meeting_lookup_ne by congruence. reflexivity.
Qed.

Lemma toISOString_Throw_iff (d : JSDate) :
  toISOString d = Throw RangeError <-> d = InvalidDate.
Proof. destruct d; cbn; split; congruence. Qed.

Lemma optSummaryToDB_Throw_iff (o : option Summary.t) :
  optSummaryToDB o = Throw RangeError
  <-> exists s, o = Some s /\ Summary.generatedAt s = InvalidDate.
Proof.
  destruct o as [s|]; cbn.
  - unfold summaryToDB. destruct (Summary.generatedAt s) eqn:Hg; cbn.
    + split; [intros _; eauto|reflexivity].
    + split; [discriminate|]. intros (s' & [= <-] & Hs'). congruence.
  - split; [discriminate|]. intros (s & Hs & _). discriminate Hs.
Qed.

Lemma meetingToDB_Throw (m : Meeting.t) (e : Exception) :
  meetingToDB m = Throw e -> e = RangeError.
Proof.
  unfold meetingToDB.
  destruct (toISOString (Meeting.date m)) eqn:H1; cbn;
    [|intros [= <-]; eapply toISOString_Throw, H1].
  destruct (toISOString (Meeting.createdAt m)) eqn:H2; cbn;
    [|intros [= <-]; eapply toISOString_Throw, H2].
  destruct (toISOString (Meeting.updatedAt m)) eqn:H3; cbn;
    [|intros [= <-]; eapply toISOString_Throw, H3].
  destruct (optSummaryToDB (Meeting.summary m)) eqn:H4; cbn;
    [discriminate|intros [= <-]; eapply optSummaryToDB_Throw, H4].
Qed.

Lemma saveMeeting_Throw (st : Store) (m : Meeting.t) (e : Exception) :
  saveMeeting st m = Throw e -> e = RangeError.
Proof.
  unfold saveMeeting. destruct (meetingToDB m) eqn:Hm; cbn; [discriminate|].
  intros [= <-]. eapply meetingToDB_Throw, Hm.
Qed.

(** X3. [saveMeeting] either returns or throws a RangeError, and it throws
    exactly when a Date field of the meeting, or the [generatedAt] of its
    summary, is an invalid date. *)
Theorem saveMeeting_throws_on_invalid_date (st : Store) (m : Meeting.t) :
  ((exists st', saveMeeting st m = Ok st') \/ saveMeeting st m = Throw RangeError)
  /\ (saveMeeting st m = Throw RangeError <-> has_invalid_date m).
Proof.
  unfold saveMeeting, meetingToDB, has_invalid_date.
  rewrite <- !toISOString_Throw_iff, <- optSummaryToDB_Throw_iff.
  destruct (toISOString (Meeting.date m)) as [d|e1] eqn:H1; cbn.
  2: { rewrite (toISOString_Throw _ _ H1). split; [now right|]. tauto. }
  destruct (toISOString (Meeting.createdAt m)) as [c|e2] eqn:H2; cbn.
  2: { rewrite (toISOString_Throw _ _ H2). split; [now right|]. tauto. }
  destruct (toISOString (Meeting.updatedAt m)) as [u|e3] eqn:H3; cbn.
  2: { rewrite (toISOString_Throw _ _ H3). split; [now right|]. tauto. }
  destruct (optSummaryToDB (Meeting.summary m)) as [s|e4] eqn:H4; cbn.
  2: { rewrite (optSummaryToDB_Throw _ _ H4). split; [now right|]. tauto. }
  split; [left; eauto|]. split; [discriminate|].
  intros [H|[H|[H|H]]]; discriminate H.
Qed.

Lemma updatesToDB_Throw (updates : PartialMeeting.t) (e : Exception) :
  updatesToDB updates = Throw e -> e = RangeError.
Proof.
  unfold updatesToDB.
  destruct (PartialMeeting.date updates) as [d|].
  - destruct (toISOString d) eqn:Hd; cbn;
      [|intros [= <-]; eapply toISOString_Throw, Hd].
    destruct (optSummaryToDB (PartialMeeting.summary updates)) eqn:Hs; cbn;
      [discriminate|intros [= <-]; eapply optSummaryToDB_Throw, Hs].
  - cbn. destruct (optSummaryToDB (PartialMeeting.summary updates)) eqn:Hs; cbn;
      [discriminate|intros [= <-]; eapply optSummaryToDB_Throw, Hs].
Qed.

(** X4. [updateMeeting] throws the error [Meeting with id ... not found]
    exactly when no meeting is stored under the id, whatever the updates
    are; so does [archiveMeeting]. *)
Theorem updateMeeting_not_found_iff (st : Store) (now : Z) (id : string)
    (updates : PartialMeeting.t) :
  (updateMeeting st now id updates = Throw (Error ("Meeting with id " ++ id ++ " not found"))
   <-> meetings st !! id = None)
  /\ (archiveMeeting st now id = Throw (Error ("Meeting with id " ++ id ++ " not found"))
      <-> meetings st !! id = None).
Proof.
  assert (H : forall u,
    updateMeeting st now id u = Throw (Error ("Meeting with id " ++ id ++ " not found"))
    <-> meetings st !! id = None).
  { intros u. unfold updateMeeting.
    destruct (meetings st !! id) as [existing|]; [|split; reflexivity].
    split; [|discriminate].
    destruct (updatesToDB u) as [udb|e] eqn:Hu; cbn; [discriminate|].
    apply updatesToDB_Throw in Hu. subst e. discriminate. }
  split; [apply H|apply H].
Qed.

(** X5. [archiveMeeting] on a stored meeting returns; the record then has
    [archived == true] and an empty Blob for audio, whatever its audio was;
    its other fields apart from [updatedAt], the other records and the
    ledger are unchanged. *)
Theorem archiveMeeting_effect (st : Store) (now : Z) (id : string) (existing : MeetingDB.t) :
  reachable st ->
  meetings st !! id = Some existing ->
  exists st' r,
    archiveMeeting st now id = Ok st'
    /\ meetings st' !! id = Some r
    /\ MeetingDB.archived r = true
    /\ MeetingDB.audioBlob r = Some new_Blob
    /\ MeetingDB.updatedAt r = iso_of_time now
    /\ MeetingDB.id r = MeetingDB.id existing
    /\ MeetingDB.title r = MeetingDB.title existing
    /\ MeetingDB.date r = MeetingDB.date existing
    /\ MeetingDB.duration r = MeetingDB.duration existing
    /\ MeetingDB.transcript r = MeetingDB.transcript existing
    /\ MeetingDB.summary r = MeetingDB.summary existing
    /\ MeetingDB.speakers r = MeetingDB.speakers existing
    /\ MeetingDB.tags r = MeetingDB.tags existing
    /\ MeetingDB.category r = MeetingDB.category existing
    /\ MeetingDB.createdAt r = MeetingDB.createdAt existing
    /\ (forall k, k <> id -> meetings st' !! k = meetings st !! k)
    /\ costs st' = costs st.
Proof.
  intros Hreach Hex. pose proof (reachable_well_keyed st Hreach _ _ Hex) as Hid. subst id.
  unfold archiveMeeting, updateMeeting. rewrite Hex.
  eexists _, _. split; [reflexivity|]. split; [exact (put_meeting_lookup st _)|].
  repeat (split; [reflexivity|]). split; [|reflexivity].
  intros k Hk. now apply put_meeting_lookup_ne.
Qed.

(** X6. After [deleteMeeting] no meeting is stored under the id and the
    meetings under other ids are as before; deleting an id that is not
    stored changes nothing, so deleting twice is deleting once. *)
Theorem deleteMeeting_effect (st : Store) (id : string) :
  getMeeting (deleteMeeting st id) id = None
  /\ (forall k, k <> id -> getMeeting (deleteMeeting st id) k = getMeeting st k)
  /\ (meetings st !! id = None -> deleteMeeting st id = st)
  /\ deleteMeeting (deleteMeeting st id) id = deleteMeeting st id.
Proof.
  unfold getMeeting, deleteMeeting. cbn. repeat split.
  - now rewrite lookup_delete_eq.
  - intros k Hk. now rewrite lookup_delete_ne.
  - intros Hnone. destruct st as [ms cs]. cbn in *. f_equal. now apply delete_id.
  - f_equal. apply delete_id. apply lookup_delete_eq.
Qed.

Ltac update_fields :=
  repeat (split;
    [first [reflexivity | discriminate
           | let H := fresh in intros H; rewrite ?H; reflexivity]|]);
  let k := fresh "k" in let Hk := fresh in
  intros k Hk; apply lookup_insert_ne; congruence.

(** X7. An [updateMeeting] that returns never changes [id] or [createdAt],
    also when the updates carry values for them, and sets [updatedAt] to
    the clock, not to the value the updates carry; a field that the
    updates leave out keeps its value and a plain field they name takes
    the value given. *)
Theorem updateMeeting_merges_named_fields (st st' : Store) (now : Z) (id : string)
    (updates : PartialMeeting.t) (existing : MeetingDB.t) :
  reachable st ->
  meetings st !! id = Some existing ->
  updateMeeting st now id updates = Ok st' ->
  exists r,
    meetings st' !! id = Some r
    /\ MeetingDB.id r = MeetingDB.id existing
    /\ MeetingDB.createdAt r = MeetingDB.createdAt existing
    /\ MeetingDB.updatedAt r = iso_of_time now
    /\ MeetingDB.title r = default (MeetingDB.title existing) (PartialMeeting.title updates)
    /\ MeetingDB.transcript r
       = default (MeetingDB.transcript existing) (PartialMeeting.transcript updates)
    /\ MeetingDB.speakers r
       = default (MeetingDB.speakers existing) (PartialMeeting.speakers updates)
    /\ MeetingDB.tags r = default (MeetingDB.tags existing) (PartialMeeting.tags updates)
    /\ MeetingDB.category r
       = default (MeetingDB.category existing) (PartialMeeting.category updates)
    /\ MeetingDB.archived r
       = default (MeetingDB.archived existing) (PartialMeeting.archived updates)
    /\ MeetingDB.duration r
       = default (MeetingDB.duration existing) (PartialMeeting.duration updates)
    /\ (PartialMeeting.audioBlob updates = None ->
        MeetingDB.audioBlob r = MeetingDB.audioBlob existing)
    /\ (PartialMeeting.date updates = None -> MeetingDB.date r = MeetingDB.date existing)
    /\ (PartialMeeting.summary updates = None ->
        MeetingDB.summary r = MeetingDB.summary existing)
    /\ (forall k, k <> id -> meetings st' !! k = meetings st !! k).
Proof.
  intros Hreach Hex. pose proof (reachable_well_keyed st Hreach _ _ Hex) as Hid. subst id.
  unfold updateMeeting. rewrite Hex.
  destruct (updatesToDB updates) as [udb|] eqn:Hu; cbn [mbind Result_bind toISOString];
    [|discriminate].
  intros [= <-]. eexists. split; [exact (put_meeting_lookup st _)|].
  unfold updatesToDB in Hu.
  destruct (PartialMeeting.date updates) as [d|] eqn:Hd.
  - destruct (toISOString d); cbn in Hu; [|discriminate Hu].
    destruct (PartialMeeting.summary updates) as [s|] eqn:Hs; cbn in Hu.
    + destruct (summaryToDB s); cbn in Hu; [|discriminate Hu]. injection Hu as <-.
      cbn -[iso_of_time]. update_fields.
    + injection Hu as <-. cbn -[iso_of_time]. update_fields.
  - cbn in Hu. destruct (PartialMeeting.summary updates) as [s|] eqn:Hs; cbn in Hu.
    + destruct (summaryToDB s); cbn in Hu; [|discriminate Hu]. injection Hu as <-.
      cbn -[iso_of_time]. update_fields.
    + injection Hu as <-. cbn -[iso_of_time]. update_fields.
Qed.

(** X8. [getMeetingsByCategory] returns exactly the stored meetings of the
    category: a meeting is in its result if and only if it is in the
    result of [getAllMeetings] and its category is the one asked for; in a
    store the program can build the result is sorted newest first. *)
Theorem getMeetingsByCategory_selects (st : Store) (category : string) :
  (forall m, m ∈ getMeetingsByCategory st category
             <-> m ∈ getAllMeetings st /\ Meeting.category m = category)
  /\ (reachable st -> StronglySorted not_older (getMeetingsByCategory st category)).
Proof.
  split.
  - intros m. unfold getMeetingsByCategory.
    rewrite Array_sort_Permutation, list_elem_of_fmap, elem_of_getAllMeetings. split.
    + intros (r & -> & Hin). apply list_elem_of_filter in Hin as [Hcat Hin].
      apply elem_of_getAllFromIndex in Hin as (k & Hk). split; [eauto|exact Hcat].
    + intros ((k & r & Hk & ->) & Hcat). exists r. split; [reflexivity|].
      apply list_elem_of_filter. split; [exact Hcat|].
      apply elem_of_getAllFromIndex. eauto.
  - intros Hreach. destruct (reachable_keeps st Hreach) as [_ Hdv].
    apply newest_first_sorts. apply Forall_forall. intros m Hin.
    apply list_elem_of_fmap in Hin as (r & -> & Hr).
    apply list_elem_of_filter in Hr as [_ Hr].
    apply elem_of_getAllFromIndex in Hr as (k & Hk). now destruct (Hdv k r Hk).
Qed.

Lemma filter_length_Permutation {A : Type} (p : A -> bool) (l l' : list A) :
  l ≡ₚ l' -> length (List.filter p l) = length (List.filter p l').
Proof.
  induction 1 as [|x l l' _ IH|x y l|l l' l'' _ IH1 _ IH2]; cbn.
  - reflexivity.
  - destruct (p x); cbn; now rewrite IH.
  - destruct (p x), (p y); reflexivity.
  - now rewrite IH1.
Qed.

Lemma getAllMeetings_Permutation (st : Store) :
  getAllMeetings st ≡ₚ map dbToMeeting (map snd (map_to_list (meetings st))).
Proof.
  unfold getAllMeetings. rewrite Array_sort_Permutation.
  now rewrite getAllFromIndex_Permutation.
Qed.

Lemma getAllMeetings_put_fresh (st : Store) (r : MeetingDB.t) :
  meetings st !! MeetingDB.id r = None ->
  getAllMeetings (put_meeting st r) ≡ₚ dbToMeeting r :: getAllMeetings st.
Proof.
  intros Hfresh. rewrite !getAllMeetings_Permutation. cbn [put_meeting meetings].
  rewrite (map_to_list_insert _ _ _ Hfresh). reflexivity.
Qed.

(** X9. [getDatabaseStats] counts the stored meetings, and the archived
    ones among them, and passes the storage information on; after a
    [saveMeeting] under an id that was not stored the count of meetings is
    one more, and the count of archived meetings is one more exactly if
    the meeting is archived. *)
Theorem getDatabaseStats_after_save (st st' : Store) (m : Meeting.t) (info : StorageInfo) :
  proper_meeting m ->
  meetings st !! Meeting.id m = None ->
  saveMeeting st m = Ok st' ->
  DatabaseStats.totalMeetings (getDatabaseStats st info) = size (meetings st)
  /\ (DatabaseStats.archivedMeetings (getDatabaseStats st info)
      <= DatabaseStats.totalMeetings (getDatabaseStats st info))%nat
  /\ DatabaseStats.storageInfo (getDatabaseStats st info) = info
  /\ DatabaseStats.totalMeetings (getDatabaseStats st' info)
     = S (DatabaseStats.totalMeetings (getDatabaseStats st info))
  /\ DatabaseStats.archivedMeetings (getDatabaseStats st' info)
     = (DatabaseStats.archivedMeetings (getDatabaseStats st info)
        + if Meeting.archived m then 1 else 0)%nat.
Proof.
  intros Hp Hfresh Hsave. unfold saveMeeting in Hsave.
  destruct (meetingToDB m) as [r|] eqn:Hr; cbn in Hsave; [|discriminate Hsave].
  injection Hsave as <-.
  destruct (meetingToDB_round_trip m (meetingToDB_proper m r Hp Hr)) as (r' & Hr' & Hid & Hback).
  rewrite Hr in Hr'. injection Hr' as <-. rewrite <- Hid in Hfresh.
  pose proof (getAllMeetings_put_fresh st r Hfresh) as Hperm.
  assert (Harch : Meeting.archived (dbToMeeting r) = Meeting.archived m)
    by (rewrite Hback; destruct (Meeting.archived m) eqn:Ha; cbn; congruence).
  unfold getDatabaseStats. cbn [DatabaseStats.totalMeetings DatabaseStats.archivedMeetings
    DatabaseStats.storageInfo]. split; [|split; [|split; [|split]]].
  - rewrite getAllMeetings_Permutation, !length_map. apply length_map_to_list.
  - apply filter_length_le.
  - reflexivity.
  - now rewrite Hperm.
  - rewrite (filter_length_Permutation _ _ _ Hperm). cbn [List.filter]. rewrite Harch.
    destruct (Meeting.archived m); cbn [length]; lia.
Qed.

(** X10. Once [archiveMeeting] has returned for an id, no meeting of that
    id is a candidate for auto-archiving any more, whatever the cut-off
    date; and a meeting is never at the same time a candidate for
    auto-archiving and for auto-deletion. *)
Theorem archived_is_no_auto_archive_candidate (st st' : Store) (now : Z) (id : string)
    (cutoffDate : JSDate) :
  reachable st ->
  archiveMeeting st now id = Ok st' ->
  (forall m, m ∈ getMeetingsForAutoArchive st' cutoffDate -> Meeting.id m <> id)
  /\ (forall m cutoff', m ∈ getMeetingsForAutoArchive st' cutoffDate ->
        m ∉ getArchivedMeetingsForDeletion st' cutoff').
Proof.
  intros Hreach Harchive. pose proof (reachable_well_keyed st Hreach) as Hwk.
  unfold archiveMeeting, updateMeeting in Harchive.
  destruct (meetings st !! id) as [existing|] eqn:Hex; [|discriminate Harchive].
  cbn -[iso_of_time] in Harchive. injection Harchive as <-.
  pose proof (Hwk _ _ Hex) as Hid. subst id. split.
  - intros m Hin Hm. unfold getMeetingsForAutoArchive in Hin.
    apply list_elem_of_In, filter_In in Hin as [Hin Hflag].
    apply list_elem_of_In, elem_of_getAllMeetings in Hin as (k & r & Hk & ->).
    pose proof (put_meeting_well_keyed st _ Hwk _ _ Hk) as Hrk. cbn in Hm.
    rewrite <- Hrk, Hm in Hk.
    match type of Hk with
    | meetings (put_meeting _ ?X) !! _ = _ => pose proof (put_meeting_lookup st X) as Hl
    end.
    pose proof (eq_trans (eq_sym Hl) Hk) as Heq.
    injection Heq as <-. cbn in Hflag. discriminate Hflag.
  - intros m cutoff' Hin Hin'. unfold getMeetingsForAutoArchive in Hin.
    unfold getArchivedMeetingsForDeletion in Hin'.
    apply list_elem_of_In, filter_In in Hin as [_ Hflag].
    apply list_elem_of_In, filter_In in Hin' as [_ Hflag'].
    destruct (Meeting.archived m); cbn in *; discriminate.
Qed.

(** *** The ledger *)

Lemma saveMeeting_costs (st st' : Store) (m : Meeting.t) :
  saveMeeting st m = Ok st' -> costs st' = costs st.
Proof.
  unfold saveMeeting. destruct (meetingToDB m); cbn; [|discriminate]. now intros [= <-].
Qed.

Lemma updateMeeting_costs (st st' : Store) (now : Z) (id : string)
    (updates : PartialMeeting.t) :
  updateMeeting st now id updates = Ok st' -> costs st' = costs st.
Proof.
  unfold updateMeeting. destruct (meetings st !! id); [|discriminate].
  destruct (updatesToDB updates); cbn; [|discriminate]. now intros [= <-].
Qed.

Lemma importMeeting_costs (st st' : Store) (zip : MeetingFiles)
    (onDuplicate : DuplicatePolicy) (uuid id : string) :
  importMeeting st zip onDuplicate uuid = Ok (st', id) -> costs st' = costs st.
Proof.
  unfold importMeeting.
  destruct (metadata_json zip) as [f|]; [|discriminate].
  destruct (JSON_parse f) as [[e|]|]; cbn [read_metadata mbind Result_bind];
    [|discriminate|discriminate].
  assert (Hsave : forall id',
    (st0 ← saveMeeting st (importedMeeting e id' (read_audio zip e));
     Ok (st0, Meeting.id (importedMeeting e id' (read_audio zip e)))) = Ok (st', id) ->
    costs st' = costs st).
  { intros id'.
    destruct (saveMeeting st (importedMeeting e id' (read_audio zip e))) as [st0|] eqn:Hs;
      cbn; [|discriminate].
    intros [= <- _]. eapply saveMeeting_costs, Hs. }
  destruct (getMeeting st _); [destruct onDuplicate|]; try apply Hsave.
  now intros [= <- _].
Qed.

Lemma import_each_costs (onDuplicate : DuplicatePolicy) (uuid : nat -> string)
    (fs : list (string * MeetingFiles)) (acc : Store * list string) (i : nat) :
  costs (fst (import_each onDuplicate uuid acc i fs)) = costs (fst acc).
Proof.
  revert acc i. induction fs as [|[n folder] fs IH]; intros acc i; cbn; [reflexivity|].
  rewrite IH. unfold import_folder.
  destruct (importMeeting (fst acc) folder onDuplicate (uuid i)) as [[st0 id]|] eqn:Himp;
    [|reflexivity].
  cbn. eapply importMeeting_costs, Himp.
Qed.

Lemma importAllMeetings_costs (st st' : Store) (zip : BulkZip)
    (onDuplicate : DuplicatePolicy) (uuid : nat -> string) (ids : list string) :
  importAllMeetings st zip onDuplicate uuid = Ok (st', ids) -> costs st' = costs st.
Proof.
  unfold importAllMeetings. destruct (folders zip) as [|f fs]; [discriminate|].
  intros [= Heq]. change st' with (fst (st', ids)). rewrite <- Heq.
  apply (import_each_costs onDuplicate uuid (f :: fs) (st, []) 0%nat).
Qed.

Lemma logCost_costs (st : Store) (now : LocalNow) (now' : Z) (meetingId : string)
    (type : CostType) (amount : float) :
  exists r,
    costs (logCost st now now' meetingId type amount)
    = <[CostTrackingDB.month r := r]> (costs st)
    /\ CostTrackingDB.lastUpdated r = iso_of_time now'
    /\ match costs st !! month_of now with
       | Some old =>
           CostTrackingDB.month r = CostTrackingDB.month old
           /\ CostTrackingDB.meetingCount r = (CostTrackingDB.meetingCount old + 1)%float
           /\ CostTrackingDB.transcriptionCost r
              = (CostTrackingDB.transcriptionCost old + share transcription type amount)%float
           /\ CostTrackingDB.summarizationCost r
              = (CostTrackingDB.summarizationCost old + share summarization type amount)%float
       | None =>
           CostTrackingDB.month r = month_of now
           /\ CostTrackingDB.meetingCount r = 1%float
           /\ CostTrackingDB.transcriptionCost r = share transcription type amount
           /\ CostTrackingDB.summarizationCost r = share summarization type amount
       end.
Proof.
  unfold logCost, updateCostTracking. cbn [toISOString mbind Result_bind].
  eexists. split; [reflexivity|].
  destruct (costs st !! month_of now); destruct type; repeat split.
Qed.

Lemma reachable_costs_keyed (st : Store) : reachable st -> costs_keyed st.
Proof.
  induction 1 as [|st m st' _ IH Hp Hrun|st now id u st' _ IH Hnow Hp Hrun
                  |st now id st' _ IH Hnow Hrun|st id _ IH
                  |st zip pol uuid st' id _ IH Hrun|st zip pol uuid st' ids _ IH Hrun
                  |st now now' mid type amount _ IH|st _ IH].
  - intros k c Hk. cbn in Hk. now rewrite lookup_empty in Hk.
  - unfold costs_keyed. now rewrite (saveMeeting_costs _ _ _ Hrun).
  - unfold costs_keyed. now rewrite (updateMeeting_costs _ _ _ _ _ Hrun).
  - unfold costs_keyed. now rewrite (updateMeeting_costs _ _ _ _ _ Hrun).
  - exact IH.
  - unfold costs_keyed. now rewrite (importMeeting_costs _ _ _ _ _ _ Hrun).
  - unfold costs_keyed. now rewrite (importAllMeetings_costs _ _ _ _ _ _ Hrun).
  - destruct (logCost_costs st now now' mid type amount) as (r & Hc & _ & _).
    intros k c Hk. rewrite Hc in Hk.
    destruct (decide (CostTrackingDB.month r = k)) as [<-|Hne].
    + rewrite lookup_insert_eq in Hk. now injection Hk as <-.
    + rewrite lookup_insert_ne in Hk by exact Hne. now apply IH.
  - intros k c Hk. cbn in Hk. now rewrite lookup_empty in Hk.
Qed.

(** X11. A [logCost] call writes the record of the current month and
    nothing else: the meetings and the records of other months are
    unchanged. The month's record counts one event more (1 on a new
    record), and the amount is added to the cost of the kind named and 0 to
    the other; [getCostTracking] reads it with the time of the call. *)
Theorem logCost_accumulates (st : Store) (now : LocalNow) (now' : Z) (meetingId : string)
    (type : CostType) (amount : float) :
  reachable st ->
  time_in_range now' ->
  let st' := logCost st now now' meetingId type amount in
  meetings st' = meetings st
  /\ (forall month, month <> month_of now -> costs st' !! month = costs st !! month)
  /\ exists r,
       costs st' !! month_of now = Some r
       /\ (CostTracking.lastUpdated <$> getCostTracking st' (month_of now)) = Some (DateAt now')
       /\ CostTrackingDB.meetingCount r
          = match costs st !! month_of now with
            | Some old => (CostTrackingDB.meetingCount old + 1)%float
            | None => 1%float
            end
       /\ CostTrackingDB.transcriptionCost r
          = match costs st !! month_of now with
            | Some old =>
                (CostTrackingDB.transcriptionCost old + share transcription type amount)%float
            | None => share transcription type amount
            end
       /\ CostTrackingDB.summarizationCost r
          = match costs st !! month_of now with
            | Some old =>
                (CostTrackingDB.summarizationCost old + share summarization type amount)%float
            | None => share summarization type amount
            end.
Proof.
  intros Hreach Hnow st'. pose proof (reachable_costs_keyed st Hreach) as Hkeyed.
  destruct (logCost_costs st now now' meetingId type amount) as (r & Hc & Hlast & Hr).
  fold st' in Hc.
  assert (Hmonth : CostTrackingDB.month r = month_of now).
  { destruct (costs st !! month_of now) as [old|] eqn:Hold; destruct Hr as (Hm & _);
      [|exact Hm].
    rewrite Hm. now apply Hkeyed. }
  split; [reflexivity|]. split.
  - intros month Hne. rewrite Hc. apply lookup_insert_ne. congruence.
  - exists r. assert (Hl : costs st' !! month_of now = Some r)
      by (rewrite Hc, Hmonth; apply lookup_insert_eq).
    split; [exact Hl|]. split.
    + unfold getCostTracking. rewrite Hl. cbn -[Date_parse]. rewrite Hlast.
      now rewrite (Date_parse_iso_of_time now' Hnow).
    + destruct (costs st !! month_of now); tauto.
Qed.

(** ** More properties of export and import *)

(** X12. [exportMeeting] throws [Meeting with id ... not found] exactly
    when no meeting is stored under the id. *)
Theorem exportMeeting_not_found_iff `{Locale} (st : Store) (meetingId : string) :
  exportMeeting st meetingId
  = Throw (Error ("Meeting with id " ++ meetingId ++ " not found"))
  <-> meetings st !! meetingId = None.
Proof.
  unfold exportMeeting, getMeeting.
  destruct (meetings st !! meetingId) as [r|]; cbn; [|split; reflexivity].
  split; [|discriminate]. intros Hthrow.
  destruct (add_meeting_files no_files (dbToMeeting r)) as [zip|e] eqn:Hadd;
    [discriminate Hthrow|].
  apply add_meeting_files_Throw in Hadd. subst e. discriminate Hthrow.
Qed.

(** X13. The archive that [exportMeeting] returns for a stored meeting
    holds the cleaned transcript, the metadata document with the id and
    the transcript as stored, a [summary.md] exactly when the meeting has a
    summary, and the audio exactly when the flag [hasAudio] of the
    document is true, which is when the meeting is not archived and its
    audio is not empty. *)
Theorem exportMeeting_contents `{Locale} (st : Store) (id : string) (m : Meeting.t) :
  reachable st ->
  getMeeting st id = Some m ->
  exists zip e,
    exportMeeting st id = Ok zip
    /\ metadata_json zip = Some (Stringified e)
    /\ Metadata.id (ExportedMeeting.metadata e) = id
    /\ ExportedMeeting.transcript e = Meeting.transcript m
    /\ transcript_txt zip = Some (cleanTranscriptForExport (Meeting.transcript m))
    /\ audio_webm zip
       = (if ExportedMeeting.hasAudio e then Some (blob_bytes (Meeting.audioBlob m)) else None)
    /\ (ExportedMeeting.hasAudio e = true
        <-> Meeting.archived m = false /\ blob_bytes (Meeting.audioBlob m) <> [])
    /\ (is_Some (summary_md zip) <-> is_Some (Meeting.summary m)).
Proof.
  intros Hreach Hget.
  pose proof (reachable_get_valid st id m Hreach Hget) as Hvalid.
  pose proof (getMeeting_id st id m (reachable_well_keyed st Hreach) Hget) as Hid.
  destruct (exportedMeetingOf_valid m Hvalid) as (e & He & Heid & Hhas & Himp).
  unfold exportMeeting. rewrite Hget. unfold add_meeting_files. rewrite He.
  cbn [mbind Result_bind]. eexists _, e. split; [reflexivity|].
  cbn [metadata_json transcript_txt audio_webm summary_md no_files].
  split; [reflexivity|]. split; [congruence|]. split.
  { specialize (Himp new_Blob). apply (f_equal Meeting.transcript) in Himp. exact Himp. }
  split; [reflexivity|]. split; [now rewrite Hhas|]. split.
  - rewrite Hhas, andb_true_iff, negb_true_iff. unfold blob_size.
    destruct (blob_bytes (Meeting.audioBlob m)); cbn; intuition congruence.
  - destruct (Meeting.summary m); split; intros [x Hx]; try discriminate; eauto.
Qed.

Lemma add_meeting_files_valid `{Locale} (zip : MeetingFiles) (m : Meeting.t) :
  valid_dates m ->
  exists files e,
    add_meeting_files zip m = Ok files
    /\ metadata_json files = Some (Stringified e)
    /\ Metadata.id (ExportedMeeting.metadata e) = Meeting.id m.
Proof.
  intros Hvalid. destruct (exportedMeetingOf_valid m Hvalid) as (e & He & Heid & _).
  unfold add_meeting_files. rewrite He. cbn [mbind Result_bind].
  eexists _, e. split; [reflexivity|]. split; [reflexivity|exact Heid].
Qed.

Lemma folderAdd_from_eq (fuel : nat) (name : string) (fs : list (string * MeetingFiles)) :
  folderAdd_from fuel name fs
  = if has_folder (forceTrailingSlash name) fs then fs
    else (match parentFolder (forceTrailingSlash name), fuel with
          | EmptyString, _ => fs
          | parent, S fuel' => folderAdd_from fuel' parent fs
          | _, O => fs
          end ++ [(forceTrailingSlash name, no_files)])%list.
Proof. destruct fuel; reflexivity. Qed.

Lemma last_is_slash_app (s : string) : last_is_slash (s ++ "/") = true.
Proof.
  induction s as [|c s IH]; [reflexivity|]. rewrite append_String.
  cbn [last_is_slash]. destruct (s ++ "/") eqn:Hs; [|exact IH].
  destruct s; discriminate Hs.
Qed.

Lemma drop_last_app (s : string) : drop_last (s ++ "/") = s.
Proof.
  induction s as [|c s IH]; [reflexivity|]. rewrite append_String.
  cbn [drop_last]. destruct (s ++ "/") eqn:Hs; [destruct s; discriminate Hs|].
  now rewrite IH.
Qed.

Lemma length_drop_last (s : string) :
  last_is_slash s = true -> S (String.length (drop_last s)) = String.length s.
Proof.
  induction s as [|c s IH]; [discriminate|]. cbn [last_is_slash drop_last].
  destruct s as [|d s]; [reflexivity|]. intros Hs. cbn [String.length]. now rewrite (IH Hs).
Qed.

Lemma lastIndexOf_slash_lt (s : string) (i : nat) :
  lastIndexOf_slash s = Some i -> (i < String.length s)%nat.
Proof.
  revert i. induction s as [|c s IH]; intros i; cbn; [discriminate|].
  destruct (lastIndexOf_slash s) as [j|].
  - intros [= <-]. specialize (IH j eq_refl). lia.
  - destruct (Ascii.eqb c "/"); [intros [= <-]; lia|discriminate].
Qed.

Lemma length_substring_le (n : nat) (s : string) :
  (String.length (String.substring 0 n s) <= n)%nat.
Proof.
  revert s. induction n as [|n IH]; intros [|c s]; cbn; try lia.
  specialize (IH s). lia.
Qed.

Lemma length_append_slash (s : string) :
  String.length (s ++ "/") = S (String.length s).
Proof. induction s as [|c s IH]; [reflexivity|]. rewrite append_String. cbn. now rewrite IH. Qed.

(** The parent of a path is shorter than the path without its trailing
    slash. *)
Lemma parentFolder_shorter (name : string) :
  parentFolder (forceTrailingSlash name) <> EmptyString ->
  (String.length (parentFolder (forceTrailingSlash name)) < String.length name)%nat.
Proof.
  assert (Hparent : forall path,
    last_is_slash path = true -> parentFolder path <> EmptyString ->
    (S (String.length (parentFolder path)) < String.length path)%nat).
  { intros path Hslash. unfold parentFolder. rewrite Hslash.
    pose proof (length_drop_last path Hslash) as Hlen.
    destruct (lastIndexOf_slash (drop_last path)) as [[|i]|] eqn:Hi; try congruence.
    intros _. apply lastIndexOf_slash_lt in Hi.
    pose proof (length_substring_le (S i) (drop_last path)). lia. }
  unfold forceTrailingSlash. destruct (last_is_slash name) eqn:Hslash; intros Hne.
  - specialize (Hparent name Hslash Hne). lia.
  - specialize (Hparent (name ++ "/") (last_is_slash_app name) Hne).
    rewrite length_append_slash in Hparent. lia.
Qed.

(** The fuel that [folderAdd] gives is enough: more fuel adds the same
    folders. *)
Lemma folderAdd_fuel_enough (fuel fuel' : nat) (name : string)
    (fs : list (string * MeetingFiles)) :
  (String.length name < fuel)%nat -> (String.length name < fuel')%nat ->
  folderAdd_from fuel name fs = folderAdd_from fuel' name fs.
Proof.
  revert fuel' name. induction fuel as [|fuel IH]; intros fuel' name Hfuel Hfuel'; [lia|].
  destruct fuel' as [|fuel']; [lia|]. rewrite !folderAdd_from_eq.
  destruct (has_folder (forceTrailingSlash name) fs); [reflexivity|].
  pose proof (parentFolder_shorter name) as Hshort.
  destruct (parentFolder (forceTrailingSlash name)) as [|c parent]; [reflexivity|].
  specialize (Hshort ltac:(discriminate)).
  rewrite (IH fuel' (String c parent)) by lia. reflexivity.
Qed.

(** [folderAdd] leaves the entries of the archive as they are and adds
    empty folders after them. *)
Lemma folderAdd_from_adds (fuel : nat) (name : string) (fs : list (string * MeetingFiles)) :
  exists added,
    folderAdd_from fuel name fs = (fs ++ added)%list
    /\ Forall (fun entry => snd entry = no_files) added.
Proof.
  revert name. induction fuel as [|fuel IH]; intros name; rewrite folderAdd_from_eq;
    destruct (has_folder (forceTrailingSlash name) fs);
    try (exists []; split; [now rewrite app_nil_r|constructor]).
  - exists [(forceTrailingSlash name, no_files)].
    split; [now destruct (parentFolder _)|repeat constructor].
  - destruct (parentFolder (forceTrailingSlash name)) as [|c parent].
    + exists [(forceTrailingSlash name, no_files)]. split; [reflexivity|repeat constructor].
    + destruct (IH (String c parent)) as (added & -> & Hadded).
      exists (added ++ [(forceTrailingSlash name, no_files)])%list.
      split; [now rewrite app_assoc|].
      apply Forall_app. split; [exact Hadded|repeat constructor].
Qed.

Lemma folderAdd_adds (name : string) (fs : list (string * MeetingFiles)) :
  exists added,
    folderAdd name fs = (fs ++ added)%list
    /\ Forall (fun entry => snd entry = no_files) added.
Proof. apply folderAdd_from_adds. Qed.

(** After [zip.folder(name)] the archive has the folder, and keeps it when
    more folders are added: the writes of [exportAllMeetings] find it. *)
Lemma folderAdd_has (name : string) (fs : list (string * MeetingFiles)) :
  has_folder (forceTrailingSlash name) (folderAdd name fs) = true.
Proof.
  unfold folderAdd. rewrite folderAdd_from_eq.
  destruct (has_folder (forceTrailingSlash name) fs) eqn:Hhas; [exact Hhas|].
  unfold has_folder. rewrite existsb_app. cbn [existsb fst].
  now rewrite String.eqb_refl, orb_true_r.
Qed.

Lemma folderAdd_keeps_folder (root name : string) (fs : list (string * MeetingFiles)) :
  has_folder root fs = true -> has_folder root (folderAdd name fs) = true.
Proof.
  intros Hhas. destruct (folderAdd_adds name fs) as (added & -> & _).
  unfold has_folder in *. now rewrite existsb_app, Hhas.
Qed.

Lemma empty_folders_no_metadata (added : list (string * MeetingFiles)) :
  Forall (fun entry => snd entry = no_files) added ->
  List.filter has_metadata added = [].
Proof.
  induction 1 as [|[n files] added Hfiles _ IH]; [reflexivity|].
  cbn in Hfiles. subst files. cbn. exact IH.
Qed.

Lemma folderAdd_keeps (st : Store) (name : string) (fs : list (string * MeetingFiles)) :
  Forall (empty_or_stored st) fs ->
  Forall (empty_or_stored st) (folderAdd name fs)
  /\ List.filter has_metadata (folderAdd name fs) = List.filter has_metadata fs.
Proof.
  intros Hfs. destruct (folderAdd_adds name fs) as (added & -> & Hadded). split.
  - apply Forall_app. split; [exact Hfs|].
    eapply Forall_impl; [exact Hadded|]. intros [n files] Hfiles. cbn in Hfiles. subst files.
    now left.
  - rewrite List.filter_app, (empty_folders_no_metadata added Hadded). apply app_nil_r.
Qed.

Lemma update_folder_ok (st : Store) (name : string)
    (f : MeetingFiles -> Result MeetingFiles) (fs : list (string * MeetingFiles)) :
  (forall old, exists files, f old = Ok files /\ names_stored_meeting st files) ->
  Forall (empty_or_stored st) fs ->
  exists fs',
    update_folder name f fs = Ok fs'
    /\ Forall (empty_or_stored st) fs'
    /\ (length (List.filter has_metadata fs) <= length (List.filter has_metadata fs')
        <= S (length (List.filter has_metadata fs)))%nat
    /\ (1 <= length (List.filter has_metadata fs'))%nat.
Proof.
  intros Hf. induction fs as [|[n old] rest IH]; intros Hfs; cbn [update_folder].
  - destruct (Hf no_files) as (files & -> & Hq). cbn [mbind Result_bind].
    eexists. split; [reflexivity|].
    destruct Hq as (e & Hmeta & Hstored).
    split; [constructor; [right; exists e; auto|constructor]|].
    cbn. unfold has_metadata. cbn. rewrite Hmeta. cbn. lia.
  - apply Forall_cons in Hfs as [Hold Hrest]. destruct (String.eqb n name).
    + destruct (Hf old) as (files & -> & Hq). cbn [mbind Result_bind].
      eexists. split; [reflexivity|].
      destruct Hq as (e & Hmeta & Hstored).
      split; [constructor; [right; exists e; auto|exact Hrest]|].
      assert (Hnew : has_metadata (n, files) = true)
        by (unfold has_metadata; cbn [snd]; now rewrite Hmeta).
      cbn [List.filter]. rewrite Hnew.
      destruct (has_metadata (n, old)); cbn [length]; lia.
    + destruct (IH Hrest) as (rest' & -> & Hq & Hlen & Hone). cbn [mbind Result_bind].
      eexists. split; [reflexivity|].
      split; [constructor; [exact Hold|exact Hq]|].
      cbn [List.filter]. destruct (has_metadata (n, old)); cbn [length]; lia.
Qed.

Lemma export_each_ok `{Locale} (st : Store) (ms : list Meeting.t)
    (fs : list (string * MeetingFiles)) :
  Forall (fun m => valid_dates m /\ is_Some (meetings st !! Meeting.id m)) ms ->
  Forall (empty_or_stored st) fs ->
  exists fs',
    export_each fs ms = Ok fs'
    /\ Forall (empty_or_stored st) fs'
    /\ (length (List.filter has_metadata fs) <= length (List.filter has_metadata fs')
        <= length (List.filter has_metadata fs) + length ms)%nat
    /\ (ms <> [] -> 1 <= length (List.filter has_metadata fs'))%nat.
Proof.
  revert fs. induction ms as [|m ms IH]; intros fs Hms Hfs; cbn [export_each].
  - exists fs. split; [reflexivity|]. split; [exact Hfs|]. split; [cbn; lia|congruence].
  - apply Forall_cons in Hms as [[Hvalid Hstored] Hms].
    assert (Hinto : exists fs1, export_into fs m = Ok fs1
              /\ Forall (empty_or_stored st) fs1
              /\ (length (List.filter has_metadata fs) <= length (List.filter has_metadata fs1)
                  <= S (length (List.filter has_metadata fs)))%nat
              /\ (1 <= length (List.filter has_metadata fs1))%nat).
    { unfold export_into. destruct Hvalid as (Hd & Hrest).
      destruct (toISOString_valid _ Hd) as (iso & -> & _). cbn [mbind Result_bind].
      cbn zeta.
      set (folderName := (before_T iso ++ "_" ++ titleSlug (Meeting.title m) ++ "_"
                            ++ String.substring 0 8 (Meeting.id m))%string).
      destruct (folderAdd_keeps st folderName fs Hfs) as [Hfs1 Hcount1].
      destruct (folderAdd_keeps st
                  (parentFolder (forceTrailingSlash folderName ++ "transcript.txt"))
                  _ Hfs1) as [Hfs2 Hcount2].
      rewrite Hcount1 in Hcount2. rewrite <- Hcount2.
      apply update_folder_ok; [|exact Hfs2]. intros old.
      destruct (add_meeting_files_valid old m (conj Hd Hrest)) as (files & e & Ha & Hm & Hid).
      exists files. split; [exact Ha|]. exists e. split; [exact Hm|]. now rewrite Hid. }
    destruct Hinto as (fs1 & -> & Hq1 & Hlen1 & Hone1). cbn [mbind Result_bind].
    destruct (IH fs1 Hms Hq1) as (fs' & Hrun & Hq' & Hlen' & _).
    exists fs'. split; [exact Hrun|]. split; [exact Hq'|]. split; [cbn [length]; lia|].
    intros _. lia.
Qed.

Lemma getAllMeetings_stored (st : Store) :
  reachable st ->
  Forall (fun m => valid_dates m /\ is_Some (meetings st !! Meeting.id m)) (getAllMeetings st).
Proof.
  intros Hreach. destruct (reachable_keeps st Hreach) as [Hwk Hdv].
  apply Forall_forall. intros m Hin.
  apply elem_of_getAllMeetings in Hin as (k & r & Hk & ->). split; [now apply (Hdv k)|].
  cbn. rewrite (Hwk _ _ Hk). eauto.
Qed.



Lemma import_each_skip (st : Store) (uuid : nat -> string)
    (fs : list (string * MeetingFiles)) (ids : list string) (i : nat) :
  well_keyed st ->
  Forall (empty_or_stored st) fs ->
  Forall (fun id => is_Some (meetings st !! id)) ids ->
  exists ids',
    import_each skip uuid (st, ids) i fs = (st, ids')
    /\ length ids' = (length ids + length (List.filter has_metadata fs))%nat
    /\ Forall (fun id => is_Some (meetings st !! id)) ids'.
Proof.
  intros Hwk. revert ids i. induction fs as [|[n folder] fs IH]; intros ids i Hfs Hids;
    cbn [import_each].
  - exists ids. split; [reflexivity|]. split; [cbn; lia|exact Hids].
  - apply Forall_cons in Hfs as [Hfolder Hfs]. unfold import_folder, importMeeting.
    cbn [fst snd List.filter]. unfold has_metadata at 1. cbn [snd].
    destruct Hfolder as [Hnone|(e & Hmeta & [r Hr])]; cbn [snd] in *.
    + rewrite Hnone. destruct (IH ids (S i) Hfs Hids) as (ids' & Hrun & Hlen & Hall).
      exists ids'. split; [exact Hrun|]. split; [exact Hlen|exact Hall].
    + rewrite Hmeta. cbn [JSON_parse read_metadata mbind Result_bind].
      unfold getMeeting. rewrite Hr. cbn [fmap option_fmap option_map dbToMeeting Meeting.id].
      destruct (IH (ids ++ [MeetingDB.id r])%list (S i) Hfs) as (ids' & Hrun & Hlen & Hall).
      { apply Forall_app. split; [exact Hids|]. repeat constructor.
        rewrite (Hwk _ _ Hr). eauto. }
      exists ids'. split; [exact Hrun|]. split; [|exact Hall].
      rewrite Hlen, length_app. cbn [length]. lia.
Qed.

(** X15. Importing the archive that [exportAllMeetings] has just returned
    into the same store with policy skip writes nothing: the store is the
    same, and the ids returned, one for each folder that holds a
    [metadata.json], are ids of stored meetings. *)
Theorem export_all_then_import_all_skip `{Locale} (st : Store) (now : Z) (zip : BulkZip)
    (uuid : nat -> string) :
  reachable st ->
  exportAllMeetings st now = Ok zip ->
  exists ids,
    importAllMeetings st zip skip uuid = Ok (st, ids)
    /\ length ids = length (List.filter has_metadata (folders zip))
    /\ Forall (fun id => is_Some (meetings st !! id)) ids.
Proof.
  intros Hreach Hexport. unfold exportAllMeetings in Hexport.
  destruct (getAllMeetings st) as [|m ms] eqn:Hmeetings; [discriminate Hexport|].
  cbn [length Nat.eqb] in Hexport.
  destruct (export_each_ok st (m :: ms) []) as (exported & Heq & Hq & _ & Hone).
  { rewrite <- Hmeetings. now apply getAllMeetings_stored. }
  { constructor. }
  rewrite Heq in Hexport. cbn [mbind Result_bind toISOString] in Hexport.
  injection Hexport as <-. cbn [folders] in *.
  specialize (Hone ltac:(discriminate)).
  unfold importAllMeetings. cbn [folders].
  destruct exported as [|f fs] eqn:Hfolders; [cbn in Hone; lia|].
  destruct (import_each_skip st uuid (f :: fs) [] 0%nat
              (reachable_well_keyed st Hreach) Hq) as (ids & Hrun & Hlen & Hall);
    [constructor|].
  exists ids. rewrite Hrun. split; [reflexivity|]. split; [exact Hlen|exact Hall].
Qed.

(** X16. When no meeting is stored under the metadata id of an archive
    whose document has dates that denote valid dates, [importMeeting]
    stores the content of the archive under that id and returns the id,
    whatever the duplicate policy and the identifier that
    [crypto.randomUUID()] would give; the other records and the ledger are
    unchanged. *)
Theorem importMeeting_without_duplicate (st : Store) (zip : MeetingFiles)
    (e : ExportedMeeting.t) (onDuplicate : DuplicatePolicy) (uuid : string) :
  let id := Metadata.id (ExportedMeeting.metadata e) in
  metadata_json zip = Some (Stringified e) ->
  meetings st !! id = None ->
  dates_readable e ->
  exists st' r,
    importMeeting st zip onDuplicate uuid = Ok (st', id)
    /\ meetings st' !! id = Some r
    /\ holds_import zip e id r
    /\ (forall k, k <> id -> meetings st' !! k = meetings st !! k)
    /\ costs st' = costs st.
Proof.
  intros id Hmeta Hnone Hdates.
  unfold importMeeting. rewrite Hmeta. cbn [JSON_parse read_metadata mbind Result_bind].
  fold id. unfold getMeeting at 1. rewrite Hnone. cbn [fmap option_fmap option_map].
  destruct (import_saves st zip e id Hdates) as (r & -> & Hr).
  pose proof (holds_import_id _ _ _ _ Hr) as Hid.
  cbn [mbind Result_bind importedMeeting Meeting.id].
  exists (put_meeting st r), r. split; [reflexivity|].
  split; [rewrite <- Hid; apply put_meeting_lookup|]. split; [exact Hr|].
  split; [intros k Hk; apply put_meeting_lookup_ne; congruence|reflexivity].
Qed.

Lemma importMeeting_Throw (st : Store) (zip : MeetingFiles) (onDuplicate : DuplicatePolicy)
    (uuid : string) (e : Exception) :
  importMeeting st zip onDuplicate uuid = Throw e ->
  match metadata_json zip with
  | None => e = Error "Invalid export file: metadata.json not found"
  | Some (NotJson _) => e = SyntaxError
  | Some (NoMetadata _) => e = TypeError
  | Some (Stringified _) => e = RangeError
  end.
Proof.
  unfold importMeeting.
  destruct (metadata_json zip) as [[doc|c|c]|]; cbn [JSON_parse read_metadata mbind Result_bind];
    [|now intros [= <-]|now intros [= <-]|now intros [= <-]].
  assert (Hsave : forall id',
    (st0 ← saveMeeting st (importedMeeting doc id' (read_audio zip doc));
     Ok (st0, Meeting.id (importedMeeting doc id' (read_audio zip doc)))) = Throw e ->
    e = RangeError).
  { intros id'.
    destruct (saveMeeting st (importedMeeting doc id' (read_audio zip doc))) eqn:Hs;
      cbn; [discriminate|].
    intros [= <-]. eapply saveMeeting_Throw, Hs. }
  destruct (getMeeting st _); [destruct onDuplicate|]; try apply Hsave. discriminate.
Qed.

(** X17. For an archive whose [metadata.json], if there is one, is not
    JSON, is JSON without a [metadata] object, or is a full document:
    [importMeeting] throws [Invalid export file: metadata.json not found]
    exactly when the archive has no [metadata.json], a SyntaxError exactly
    when the file is not JSON, and a TypeError exactly when it is JSON
    without a [metadata] object; any other failure is the RangeError of an
    invalid date. *)
Theorem importMeeting_failures (st : Store) (zip : MeetingFiles)
    (onDuplicate : DuplicatePolicy) (uuid : string) :
  (importMeeting st zip onDuplicate uuid
   = Throw (Error "Invalid export file: metadata.json not found")
   <-> metadata_json zip = None)
  /\ (importMeeting st zip onDuplicate uuid = Throw SyntaxError
      <-> exists content, metadata_json zip = Some (NotJson content))
  /\ (importMeeting st zip onDuplicate uuid = Throw TypeError
      <-> exists content, metadata_json zip = Some (NoMetadata content))
  /\ (forall e, importMeeting st zip onDuplicate uuid = Throw e ->
        e = Error "Invalid export file: metadata.json not found"
        \/ e = SyntaxError \/ e = TypeError \/ e = RangeError).
Proof.
  split; [|split; [|split]].
  - split.
    + intros Hthrow. apply importMeeting_Throw in Hthrow.
      destruct (metadata_json zip) as [[doc|c|c]|];
        [discriminate|discriminate|discriminate|reflexivity].
    + intros Hnone. unfold importMeeting. now rewrite Hnone.
  - split.
    + intros Hthrow. apply importMeeting_Throw in Hthrow.
      destruct (metadata_json zip) as [[doc|c|c]|]; [discriminate|discriminate|eauto|discriminate].
    + intros (c & Hc). unfold importMeeting. now rewrite Hc.
  - split.
    + intros Hthrow. apply importMeeting_Throw in Hthrow.
      destruct (metadata_json zip) as [[doc|c|c]|]; [discriminate|eauto|discriminate|discriminate].
    + intros (c & Hc). unfold importMeeting. now rewrite Hc.
  - intros e Hthrow. apply importMeeting_Throw in Hthrow.
    destruct (metadata_json zip) as [[doc|c|c]|]; auto.
Qed.

Lemma import_each_length (onDuplicate : DuplicatePolicy) (uuid : nat -> string)
    (fs : list (string * MeetingFiles)) (acc : Store * list string) (i : nat) :
  (length (snd (import_each onDuplicate uuid acc i fs)) <= length (snd acc) + length fs)%nat.
Proof.
  revert acc i. induction fs as [|[n folder] fs IH]; intros acc i; cbn; [lia|].
  etransitivity; [apply IH|]. unfold import_folder.
  destruct (importMeeting (fst acc) folder onDuplicate (uuid i)) as [[st0 id]|];
    cbn; rewrite ?length_app; cbn; lia.
Qed.

Lemma import_each_unreadable (onDuplicate : DuplicatePolicy) (uuid : nat -> string)
    (fs : list (string * MeetingFiles)) (acc : Store * list string) (i : nat) :
  Forall (fun entry => unreadable (snd entry)) fs ->
  import_each onDuplicate uuid acc i fs = acc.
Proof.
  revert acc i. induction fs as [|[n folder] fs IH]; intros acc i Hfs; cbn; [reflexivity|].
  apply Forall_cons in Hfs as [Hbad Hfs]. rewrite (IH _ _ Hfs).
  unfold import_folder, importMeeting. unfold unreadable in Hbad. cbn [snd] in Hbad.
  destruct (metadata_json folder) as [[doc|c|c]|];
    [contradiction|reflexivity|reflexivity|reflexivity].
Qed.

(** X18. [importAllMeetings] throws only on an archive without folders,
    and then [No meetings found in export file]: a folder that fails does
    not abort the batch. It returns at most one id per folder, and when no
    folder has a metadata document that parses it returns no id and
    leaves the store as it was. *)
Theorem importAllMeetings_never_aborts (st : Store) (zip : BulkZip)
    (onDuplicate : DuplicatePolicy) (uuid : nat -> string) :
  (forall e, importAllMeetings st zip onDuplicate uuid = Throw e
             <-> folders zip = [] /\ e = Error "No meetings found in export file")
  /\ (forall st' ids, importAllMeetings st zip onDuplicate uuid = Ok (st', ids) ->
        (length ids <= length (folders zip))%nat)
  /\ (folders zip <> [] -> Forall (fun entry => unreadable (snd entry)) (folders zip) ->
       importAllMeetings st zip onDuplicate uuid = Ok (st, [])).
Proof.
  unfold importAllMeetings. destruct (folders zip) as [|f fs].
  - split; [|split].
    + intros e. split; [now intros [= <-]|now intros [_ ->]].
    + intros st' ids Hok. discriminate Hok.
    + intros Hne. congruence.
  - split; [|split].
    + intros e. split; [discriminate|]. intros [Hnil _]. discriminate Hnil.
    + intros st' ids [= Heq].
      pose proof (import_each_length onDuplicate uuid (f :: fs) (st, []) 0%nat) as Hlen.
      change (length (snd (st', ids)) <= length (f :: fs))%nat. now rewrite <- Heq.
    + intros _ Hbad.
      now rewrite (import_each_unreadable onDuplicate uuid (f :: fs) (st, []) 0%nat Hbad).
Qed.

Lemma is_slug_unit_not_dash (c : ascii) : is_slug_unit c = true -> c <> "-"%char.
Proof. intros Hc ->. discriminate Hc. Qed.

Lemma dash_runs_units (run : bool) (s : string) : slug_units (dash_runs run s).
Proof.
  revert run. induction s as [|c s IH]; intros run; cbn; [exact I|].
  destruct (is_slug_unit c) eqn:Hc; [cbn; auto|].
  destruct run; [apply IH|cbn; auto].
Qed.

Lemma dash_runs_after_dash (s : string) : no_leading_dash (dash_runs true s).
Proof.
  induction s as [|c s IH]; cbn; [exact I|].
  destruct (is_slug_unit c) eqn:Hc; [cbn; now apply is_slug_unit_not_dash|exact IH].
Qed.

Lemma drop_last_dash_units (s : string) : slug_units s -> slug_units (drop_last_dash s).
Proof.
  induction s as [|c s IH]; cbn; [tauto|]. intros [Hc Hs].
  destruct s as [|c' s]; [destruct (Ascii.eqb c "-"); cbn; tauto|].
  split; [exact Hc|]. now apply IH.
Qed.

Lemma drop_last_dash_leading (s : string) :
  no_leading_dash s -> no_leading_dash (drop_last_dash s).
Proof.
  destruct s as [|c s]; cbn; [tauto|]. intros Hc.
  destruct s as [|c' s]; [|exact Hc].
  destruct (Ascii.eqb c "-"); [exact I|exact Hc].
Qed.

Lemma substring_units (n : nat) (s : string) :
  slug_units s -> slug_units (String.substring 0 n s).
Proof.
  revert s. induction n as [|n IH]; intros [|c s]; cbn; try tauto.
  intros [Hc Hs]. split; [exact Hc|]. now apply IH.
Qed.

Lemma substring_leading (n : nat) (s : string) :
  no_leading_dash s -> no_leading_dash (String.substring 0 n s).
Proof. destruct n, s; cbn; tauto. Qed.

Lemma substring_length (n : nat) (s : string) :
  (String.length (String.substring 0 n s) <= n)%nat.
Proof.
  revert s. induction n as [|n IH]; intros [|c s]; cbn; try lia.
  specialize (IH s). lia.
Qed.

Lemma strip_dashes_facts (s : string) :
  slug_units s -> (forall s', s = String "-" s' -> no_leading_dash s') ->
  slug_units (strip_dashes s) /\ no_leading_dash (strip_dashes s).
Proof.
  intros Hs Hlead. unfold strip_dashes.
  destruct s as [|c s']; [cbn; tauto|].
  destruct (ascii_dec c "-") as [->|Hne].
  - cbn in Hs. split; [apply drop_last_dash_units; tauto|].
    apply drop_last_dash_leading. now apply Hlead.
  - assert (Hsame : match c with
                    | "-"%char => drop_last_dash s'
                    | _ => drop_last_dash (String c s')
                    end = drop_last_dash (String c s')).
    { destruct c as [[] [] [] [] [] [] [] []]; try reflexivity. congruence. }
    rewrite Hsame. split; [now apply drop_last_dash_units|].
    apply drop_last_dash_leading. exact Hne.
Qed.

(** X19. The slug that [exportAllMeetings] puts in a folder name is at
    most 50 units long, is made of lower-case letters, digits and dashes
    only, and does not begin with a dash, whatever the title. *)
Theorem titleSlug_is_safe (title : string) :
  (String.length (titleSlug title) <= 50)%nat
  /\ slug_units (titleSlug title)
  /\ no_leading_dash (titleSlug title).
Proof.
  unfold titleSlug. split; [apply substring_length|].
  destruct (strip_dashes_facts (dash_runs false (toLowerCase title))) as [Hu Hl].
  - apply dash_runs_units.
  - intros s' Heq. destruct (toLowerCase title) as [|c t]; [discriminate Heq|].
    cbn in Heq. destruct (is_slug_unit c) eqn:Hc.
    + injection Heq as -> _. discriminate Hc.
    + injection Heq as <-. apply dash_runs_after_dash.
  - split; [now apply substring_units|now apply substring_leading].
Qed.

(** * More of the Whisper client *)

(** ** Chunking *)

Lemma ceil_div_covers (a b : Z) : 0 < b -> a <= b * ceil_div a b.
Proof.
  intros Hb. unfold ceil_div.
  pose proof (Z.div_mod (a + b - 1) b ltac:(lia)).
  pose proof (Z.mod_pos_bound (a + b - 1) b Hb). lia.
Qed.

Lemma ceil_div_tight (a b : Z) : 0 < b -> b * (ceil_div a b - 1) < a.
Proof.
  intros Hb. unfold ceil_div.
  pose proof (Z.div_mod (a + b - 1) b ltac:(lia)).
  pose proof (Z.mod_pos_bound (a + b - 1) b Hb). lia.
Qed.

Lemma slices_concat {A : Type} (l : list A) (cs n : nat) :
  concat (map (fun i => take cs (drop (i * cs) l)) (seq 0 n)) = take (n * cs) l.
Proof.
  induction n as [|n IH].
  - reflexivity.
  - rewrite seq_S, map_app, concat_app, IH. cbn [map concat Nat.add].
    rewrite app_nil_r, take_take_drop. f_equal. lia.
Qed.

(** The slice of the [i]-th turn of the loop holds the next
    [chunkSizeBytes] bytes, or what is left of the blob. *)
Lemma chunk_bytes (b : Blob) (cs : Z) (i : nat) :
  0 < cs ->
  blob_bytes
    (Blob_slice b (Z.of_nat i * cs)
       (Z.min (Z.of_nat i * cs + cs) (Z.of_nat (blob_size b))) (blob_type b))
  = take (Z.to_nat cs) (drop (i * Z.to_nat cs) (blob_bytes b)).
Proof.
  intros Hcs. unfold Blob_slice, blob_size. cbn [blob_bytes].
  replace (Z.to_nat (Z.of_nat i * cs)) with (i * Z.to_nat cs)%nat by nia.
  set (rest := drop (i * Z.to_nat cs) (blob_bytes b)).
  assert (Hrest : length rest = (length (blob_bytes b) - i * Z.to_nat cs)%nat)
    by (unfold rest; apply length_drop).
  destruct (Z.le_gt_cases (Z.of_nat i * cs + cs) (Z.of_nat (length (blob_bytes b))))
    as [Hle | Hgt].
  - rewrite Z.min_l by lia. f_equal. lia.
  - rewrite Z.min_r by lia.
    rewrite !take_ge; [reflexivity | nia | nia].
Qed.

Lemma chunkAudioFile_large (b : Blob) (cs : Z) :
  0 < cs -> cs < Z.of_nat (blob_size b) ->
  chunkAudioFile b cs =
  Some (map (fun i =>
               Blob_slice b (Z.of_nat i * cs)
                 (Z.min (Z.of_nat i * cs + cs) (Z.of_nat (blob_size b))) (blob_type b))
          (seq 0 (Z.to_nat (ceil_div (Z.of_nat (blob_size b)) cs)))).
Proof.
  intros Hcs Hlt. unfold chunkAudioFile. cbn zeta.
  destruct (Z.leb_spec (Z.of_nat (blob_size b)) cs); [lia|].
  destruct (Z.eqb_spec cs 0); [lia|].
  destruct (Z.ltb_spec cs 0); [lia|]. reflexivity.
Qed.

(** What the chunks of a non-degenerate call are. *)
Lemma chunkAudioFile_chunks (b : Blob) (cs : Z) :
  0 < cs ->
  exists chunks,
    chunkAudioFile b cs = Some chunks
    /\ concat (map blob_bytes chunks) = blob_bytes b
    /\ Forall (fun c => blob_type c = blob_type b
                        /\ Z.of_nat (blob_size c) <= cs
                        /\ (blob_size b <> 0 -> blob_size c <> 0)%nat) chunks
    /\ Z.of_nat (length chunks) = Z.max 1 (ceil_div (Z.of_nat (blob_size b)) cs).
Proof.
  intros Hcs.
  destruct (Z.le_gt_cases (Z.of_nat (blob_size b)) cs) as [Hle | Hgt].
  - exists [b]. unfold chunkAudioFile. cbn zeta.
    destruct (Z.leb_spec (Z.of_nat (blob_size b)) cs); [|lia].
    split; [reflexivity|]. split; [cbn; apply app_nil_r|].
    split; [repeat constructor; auto|].
    cbn [length]. unfold ceil_div.
    assert ((Z.of_nat (blob_size b) + cs - 1) / cs < 2).
    { apply Z.div_lt_upper_bound; lia. }
    lia.
  - pose proof (ceil_div_covers (Z.of_nat (blob_size b)) cs Hcs) as Hcov.
    pose proof (ceil_div_tight (Z.of_nat (blob_size b)) cs Hcs) as Htight.
    set (n := ceil_div (Z.of_nat (blob_size b)) cs) in *.
    assert (Hn : 2 <= n) by nia.
    eexists. split; [apply chunkAudioFile_large; lia|]. fold n.
    split; [|split].
    + rewrite map_map.
      erewrite map_ext; [|intros i; apply chunk_bytes; exact Hcs].
      rewrite slices_concat. apply take_ge. unfold blob_size in *. nia.
    + apply Forall_forall. intros c Hc. apply list_elem_of_fmap in Hc as (i & -> & Hi).
      apply elem_of_seq in Hi.
      split; [reflexivity|].
      pose proof (chunk_bytes b cs i Hcs) as Hb.
      unfold blob_size in *. rewrite Hb, length_take, length_drop.
      split; [lia|]. intros _.
      assert (Hi' : Z.of_nat i * cs <= (n - 1) * cs)
        by (apply Z.mul_le_mono_nonneg_r; lia).
      assert (Z.of_nat (i * Z.to_nat cs) = Z.of_nat i * cs) by nia.
      lia.
    + rewrite length_map, length_seq. lia.
Qed.

(** X20. For a positive chunk size, [chunkAudioFile] returns chunks whose
    bytes, one chunk after the other, are the bytes of the blob; each chunk
    has the type of the blob and at most [chunkSizeBytes] bytes; of a blob
    that is not empty no chunk is empty; and there are
    ceil(size / chunkSizeBytes) chunks, or the blob itself as the one chunk
    when it fits. *)
Theorem chunkAudioFile_partitions_blob (audioBlob : Blob) (chunkSizeBytes : Z)
    (Hpositive : 0 < chunkSizeBytes) :
  exists chunks,
    chunkAudioFile audioBlob chunkSizeBytes = Some chunks
    /\ concat (map blob_bytes chunks) = blob_bytes audioBlob
    /\ Forall (fun c => blob_type c = blob_type audioBlob
                        /\ Z.of_nat (blob_size c) <= chunkSizeBytes) chunks
    /\ (blob_size audioBlob <> 0%nat -> Forall (fun c => blob_size c <> 0%nat) chunks)
    /\ Z.of_nat (length chunks) =
       Z.max 1 (ceil_div (Z.of_nat (blob_size audioBlob)) chunkSizeBytes)
    /\ (Z.of_nat (blob_size audioBlob) <= chunkSizeBytes -> chunks = [audioBlob]).
Proof.
  destruct (chunkAudioFile_chunks audioBlob chunkSizeBytes Hpositive)
    as (chunks & Hc & Hbytes & Hall & Hlen).
  exists chunks. split; [exact Hc|]. split; [exact Hbytes|].
  split; [eapply Forall_impl; [exact Hall|]; cbn; intros c (? & ? & _); auto|].
  split; [intros Hne; eapply Forall_impl; [exact Hall|]; cbn; intros c (_ & _ & H); auto|].
  split; [exact Hlen|].
  intros Hfits. unfold chunkAudioFile in Hc. cbn zeta in Hc.
  destruct (Z.leb_spec (Z.of_nat (blob_size audioBlob)) chunkSizeBytes); [|lia].
  congruence.
Qed.

(** X21. With the default chunk size every blob is cut into chunks that
    pass the size check of [transcribeAudio]. *)
Theorem default_chunks_pass_size_check (audioBlob : Blob) :
  exists chunks,
    chunkAudioFile audioBlob default_chunkSizeBytes = Some chunks
    /\ Forall (fun c => too_large c = false) chunks.
Proof.
  destruct (chunkAudioFile_chunks audioBlob default_chunkSizeBytes ltac:(reflexivity))
    as (chunks & Hc & _ & Hall & _).
  exists chunks. split; [exact Hc|].
  eapply Forall_impl; [exact Hall|]. cbn. intros c (_ & Hsize & _).
  unfold too_large. apply Z.ltb_ge.
  unfold MAX_FILE_SIZE, default_chunkSizeBytes in *. lia.
Qed.


(** The default chunk size [MAX_FILE_SIZE * 0.9] as the doubles give it. *)
Remark default_chunkSizeBytes_product :
  (26214400 * 0x1.ccccccccccccdp-1)%float = 23592960%float
  /\ default_chunkSizeBytes = 23592960 /\ MAX_FILE_SIZE = 26214400.
Proof. repeat split. Qed.

(** ** Speaker changes and speaker groups *)

Lemma speaker_changes_from_bounds (i : nat) (prev : WhisperSegment.t float)
    (rest : list (WhisperSegment.t float)) :
  Forall (fun c => i <= c < i + length rest)%nat (speaker_changes_from i prev rest).
Proof.
  revert i prev. induction rest as [|cur rest IH]; intros i prev; cbn; [constructor|].
  assert (Forall (fun c => (i <= c < i + S (length rest))%nat)
            (speaker_changes_from (S i) cur rest)).
  { eapply Forall_impl; [apply IH|]. cbn. intros; lia. }
  destruct (PrimFloat.ltb _ _); [constructor; [lia|]|]; assumption.
Qed.

Lemma speaker_changes_from_sorted (i : nat) (prev : WhisperSegment.t float)
    (rest : list (WhisperSegment.t float)) :
  StronglySorted lt (speaker_changes_from i prev rest).
Proof.
  revert i prev. induction rest as [|cur rest IH]; intros i prev; cbn; [constructor|].
  destruct (PrimFloat.ltb _ _); [|apply IH].
  constructor; [apply IH|].
  eapply Forall_impl; [apply speaker_changes_from_bounds|]. cbn. intros; lia.
Qed.

(** X22. [detectSpeakerChanges] returns indices of the segment list in
    strictly increasing order; the list is empty when there is no segment
    and starts with the index 0 otherwise. *)
Theorem detectSpeakerChanges_indices (segments : list (WhisperSegment.t float)) :
  let changes := detectSpeakerChanges (Some segments) in
  StronglySorted lt changes
  /\ Forall (fun i => (i < length segments)%nat) changes
  /\ (segments = [] -> changes = [])
  /\ (segments <> [] -> head changes = Some 0%nat)
  /\ detectSpeakerChanges None = [].
Proof.
  destruct segments as [|first rest]; cbn.
  - repeat split; try constructor. congruence.
  - split; [|split; [|split; [|split]]]; try reflexivity; try discriminate.
    + constructor; [apply speaker_changes_from_sorted|].
      eapply Forall_impl; [apply speaker_changes_from_bounds|]. cbn. intros; lia.
    + constructor; [lia|].
      eapply Forall_impl; [apply speaker_changes_from_bounds|]. cbn. intros; lia.
Qed.

Lemma group_from_segments (speakerChanges : list nat) (rest : list (WhisperSegment.t float)) :
  forall i currentSpeaker currentGroup,
    flat_map SpeakerGroup.segments
      (group_from speakerChanges i currentSpeaker currentGroup rest)
    = (currentGroup ++ rest)%list.
Proof.
  induction rest as [|segment rest IH]; intros i sp cur; cbn [group_from].
  - destruct cur; cbn; [reflexivity|]. now rewrite !app_nil_r.
  - destruct (includes_index speakerChanges i && (0 <? length cur)%nat).
    + cbn [flat_map make_group SpeakerGroup.segments]. rewrite IH. reflexivity.
    + rewrite IH, <- app_assoc. reflexivity.
Qed.

Lemma group_from_speakers (speakerChanges : list nat) (rest : list (WhisperSegment.t float)) :
  forall i currentSpeaker currentGroup,
    let groups := group_from speakerChanges i currentSpeaker currentGroup rest in
    map SpeakerGroup.speakerId groups = seq currentSpeaker (length groups).
Proof.
  induction rest as [|segment rest IH]; intros i sp cur; cbn [group_from].
  - destruct cur; reflexivity.
  - destruct (includes_index speakerChanges i && (0 <? length cur)%nat).
    + cbn. f_equal. apply IH.
    + apply IH.
Qed.

Lemma group_from_nonempty (speakerChanges : list nat) (rest : list (WhisperSegment.t float)) :
  forall i currentSpeaker currentGroup,
    Forall (fun g => SpeakerGroup.segments g <> [])
      (group_from speakerChanges i currentSpeaker currentGroup rest).
Proof.
  induction rest as [|segment rest IH]; intros i sp cur; cbn [group_from].
  - destruct cur; repeat constructor. discriminate.
  - destruct (includes_index speakerChanges i) eqn:Hinc; cbn [andb]; [|apply IH].
    destruct cur as [|s cur]; cbn; [apply IH|].
    constructor; [discriminate | apply IH].
Qed.

(** X23. Whatever the change indices are, the groups of
    [groupSegmentsBySpeaker] hold the segments in their order, each segment
    once; no group is empty; and the speaker ids count up from 0. *)
Theorem groupSegmentsBySpeaker_partitions (segments : list (WhisperSegment.t float))
    (speakerChanges : list nat) :
  let groups := groupSegmentsBySpeaker (Some segments) speakerChanges in
  flat_map SpeakerGroup.segments groups = segments
  /\ Forall (fun g => SpeakerGroup.segments g <> []) groups
  /\ map SpeakerGroup.speakerId groups = seq 0 (length groups).
Proof.
  destruct segments as [|first rest].
  - cbn. repeat split; constructor.
  - unfold groupSegmentsBySpeaker. cbn zeta. split; [|split].
    + apply group_from_segments.
    + apply group_from_nonempty.
    + apply group_from_speakers.
Qed.

Lemma includes_index_app (a b : list nat) (i : nat) :
  includes_index (a ++ b) i = includes_index a i || includes_index b i.
Proof. apply existsb_app. Qed.

Lemma includes_index_false (l : list nat) (i : nat) :
  Forall (fun c => c <> i) l -> includes_index l i = false.
Proof.
  unfold includes_index. induction 1 as [|c l Hc _ IH]; [reflexivity|].
  cbn [existsb]. rewrite IH, orb_false_r. apply Nat.eqb_neq. congruence.
Qed.

(** The groups made from the detected changes, from index [k] on: [pre]
    are the changes before [k], [done] the segments before [k]. *)
Lemma group_from_detected (rest : list (WhisperSegment.t float)) :
  forall pre k prev currentSpeaker currentGroup done,
    currentGroup <> [] ->
    Forall (fun c => c < k)%nat pre ->
    length done = k ->
    map (fun g => head (SpeakerGroup.segments g))
      (group_from (pre ++ speaker_changes_from k prev rest) k currentSpeaker
         currentGroup rest)
    = head currentGroup
      :: map (fun i => (done ++ rest)%list !! i) (speaker_changes_from k prev rest).
Proof.
  induction rest as [|cur rest IH]; intros pre k prev sp group done Hgroup Hpre Hdone.
  - cbn. destruct group; [congruence | reflexivity].
  - cbn [speaker_changes_from group_from].
    assert (Hlater : includes_index (speaker_changes_from (S k) cur rest) k = false).
    { apply includes_index_false.
      eapply Forall_impl; [apply speaker_changes_from_bounds|]. cbn. intros; lia. }
    assert (Hearlier : includes_index pre k = false).
    { apply includes_index_false.
      eapply Forall_impl; [exact Hpre|]. cbn. intros; lia. }
    assert (Hlen : (0 <? length group)%nat = true).
    { apply Nat.ltb_lt. destruct group; [congruence | cbn; lia]. }
    replace (done ++ cur :: rest)%list with ((done ++ [cur]) ++ rest)%list
      by (rewrite <- app_assoc; reflexivity).
    destruct (PrimFloat.ltb _ _).
    + rewrite includes_index_app. cbn [includes_index existsb].
      rewrite Nat.eqb_refl, orb_true_r, Hlen. cbn [andb map].
      cbn [make_group SpeakerGroup.segments]. f_equal.
      replace (pre ++ k :: speaker_changes_from (S k) cur rest)%list
        with ((pre ++ [k]) ++ speaker_changes_from (S k) cur rest)%list
        by (rewrite <- app_assoc; reflexivity).
      rewrite (IH (pre ++ [k])%list (S k) cur (S sp) [cur] (done ++ [cur])%list).
      * cbn [head]. f_equal.
        rewrite lookup_app_l by (rewrite length_app; cbn; lia).
        rewrite lookup_app_r by lia.
        replace (k - length done)%nat with 0%nat by lia. reflexivity.
      * discriminate.
      * apply Forall_app. split; [|repeat constructor].
        eapply Forall_impl; [exact Hpre|]. cbn. intros; lia.
      * rewrite length_app. cbn. lia.
    + rewrite includes_index_app, Hearlier, Hlater. cbn [orb andb].
      rewrite (IH pre (S k) cur sp (group ++ [cur])%list (done ++ [cur])%list).
      * f_equal. destruct group; [congruence | reflexivity].
      * destruct group; discriminate.
      * eapply Forall_impl; [exact Hpre|]. cbn. intros; lia.
      * rewrite length_app. cbn. lia.
Qed.

(** X24. Grouping by the detected changes starts a group at each detected
    index: the first segments of the groups are the segments at the indices
    of [detectSpeakerChanges], in this order, so that there are as many
    groups as changes. *)
Theorem groups_start_at_detected_changes (segments : list (WhisperSegment.t float)) :
  let changes := detectSpeakerChanges (Some segments) in
  let groups := groupSegmentsBySpeaker (Some segments) changes in
  map (fun g => head (SpeakerGroup.segments g)) groups
  = map (fun i => segments !! i) changes
  /\ length groups = length changes.
Proof.
  cbn zeta.
  assert (Hmap :
    map (fun g => head (SpeakerGroup.segments g))
      (groupSegmentsBySpeaker (Some segments) (detectSpeakerChanges (Some segments)))
    = map (fun i => segments !! i) (detectSpeakerChanges (Some segments))).
  { destruct segments as [|first rest]; [reflexivity|].
    unfold groupSegmentsBySpeaker, detectSpeakerChanges.
    cbn [group_from includes_index existsb Nat.eqb orb length Nat.ltb Nat.leb andb app].
    change (0%nat :: speaker_changes_from 1 first rest)
      with ([0%nat] ++ speaker_changes_from 1 first rest)%list.
    rewrite (group_from_detected rest [0%nat] 1 first 0 [first] [first]);
      [reflexivity | discriminate | repeat constructor | reflexivity]. }
  split; [exact Hmap|].
  apply (f_equal length) in Hmap. now rewrite !length_map in Hmap.
Qed.

(** ** Time stamps *)

Lemma two_digits_checked : all_from 100 0 two_digits_ok = true.
Proof. vm_compute. reflexivity. Qed.

Lemma two_digits_pad (n : Z) : 0 <= n < 100 -> two_digits n = pad 2 n.
Proof.
  intros Hn.
  pose proof (all_from_spec two_digits_ok _ _ two_digits_checked n ltac:(cbn; lia)) as H.
  now apply String.eqb_eq in H.
Qed.

Lemma expect_here (c : ascii) (rest : string) :
  expect c (String c EmptyString ++ rest) = Some rest.
Proof. rewrite append_String, append_Empty. cbn. now rewrite Ascii.eqb_refl. Qed.

Lemma read_two_digits (n : Z) (rest : string) :
  0 <= n < 100 -> read_digits 2 0 (pad 2 n ++ rest) = Some (n, rest).
Proof.
  intros Hn. rewrite read_digits_pad by (change (10 ^ Z.of_nat 2) with 100; lia).
  reflexivity.
Qed.

Lemma timestamp_at_short (m s : Z) :
  0 <= m < 100 -> 0 <= s < 100 ->
  timestamp_at ("[" ++ pad 2 m ++ ":" ++ pad 2 s ++ "]") = Some (m, s, None).
Proof.
  intros Hm Hs. unfold timestamp_at, read_one_or_two_digits.
  rewrite expect_here. cbn [mbind option_bind].
  rewrite read_two_digits by exact Hm. cbn [mbind option_bind].
  rewrite expect_here. cbn [mbind option_bind].
  rewrite read_two_digits by exact Hs. cbn [mbind option_bind].
  reflexivity.
Qed.

Lemma timestamp_at_long (h m s : Z) :
  0 <= h < 100 -> 0 <= m < 100 -> 0 <= s < 100 ->
  timestamp_at ("[" ++ pad 2 h ++ ":" ++ pad 2 m ++ ":" ++ pad 2 s ++ "]")
  = Some (h, m, Some s).
Proof.
  intros Hh Hm Hs. unfold timestamp_at, read_one_or_two_digits.
  rewrite expect_here. cbn [mbind option_bind].
  rewrite read_two_digits by exact Hh. cbn [mbind option_bind].
  rewrite expect_here. cbn [mbind option_bind].
  rewrite read_two_digits by exact Hm. cbn [mbind option_bind].
  replace (expect "]" (":" ++ pad 2 s ++ "]")) with (@None string)
    by (rewrite append_String; reflexivity).
  rewrite expect_here. cbn [mbind option_bind].
  rewrite read_two_digits by exact Hs. cbn [mbind option_bind].
  reflexivity.
Qed.

Lemma timestamp_match_here (s : string) (groups : Z * Z * option Z) :
  timestamp_at s = Some groups -> timestamp_match s = Some groups.
Proof. intros H. destruct s; cbn [timestamp_match]; now rewrite H. Qed.

(** X25. Below a hundred hours [parseTimestamp] reads the seconds back
    from what [formatTimestamp] writes. *)
Theorem parseTimestamp_formatTimestamp (seconds : Z)
    (Hrange : 0 <= seconds < 360000) :
  parseTimestamp (formatTimestamp seconds) = seconds.
Proof.
  unfold formatTimestamp, parseTimestamp. cbn zeta.
  rewrite !Z.rem_mod_nonneg by lia.
  pose proof (Z.div_mod seconds 3600 ltac:(lia)) as Hh.
  pose proof (Z.mod_pos_bound seconds 3600 ltac:(lia)) as Hhb.
  pose proof (Z.div_mod (seconds mod 3600) 60 ltac:(lia)) as Hm.
  pose proof (Z.mod_pos_bound (seconds mod 3600) 60 ltac:(lia)) as Hmb.
  pose proof (Z.mod_pos_bound (seconds mod 3600) 60 ltac:(lia)) as Hmb'.
  pose proof (Z.div_mod seconds 60 ltac:(lia)) as Hs.
  pose proof (Z.mod_pos_bound seconds 60 ltac:(lia)) as Hsb.
  assert (0 <= seconds / 3600 < 100).
  { split; [apply Z.div_pos; lia | apply Z.div_lt_upper_bound; lia]. }
  assert (0 <= seconds mod 3600 / 60 < 60).
  { split; [apply Z.div_pos; lia | apply Z.div_lt_upper_bound; lia]. }
  destruct (Z.ltb_spec 0 (seconds / 3600)).
  - rewrite !two_digits_pad by lia.
    erewrite timestamp_match_here by (apply timestamp_at_long; lia).
    cbn beta iota. lia.
  - rewrite !two_digits_pad by lia.
    erewrite timestamp_match_here by (apply timestamp_at_short; lia).
    cbn beta iota. lia.
Qed.

(** ** Errors of the chunk combiner *)

Section CombinerErrors.
Context {num : Type} (add : num -> num -> num) (zero : num).

Lemma transcribe_chunks_first_error (transcribeAudio : Blob -> Result (WhisperResponse.t num))
    (before after : list Blob) (chunk : Blob) (e : Exception) :
  Forall (fun c => exists r, transcribeAudio c = Ok r) before ->
  transcribeAudio chunk = Throw e ->
  forall cumulativeTime results,
    transcribe_chunks add transcribeAudio (before ++ chunk :: after) cumulativeTime results
    = Throw e.
Proof.
  intros Hbefore Hchunk.
  induction Hbefore as [|c before [r Hr] _ IH]; intros cum results; cbn.
  - now rewrite Hchunk.
  - rewrite Hr. cbn [mbind Result_bind]. apply IH.
Qed.

(** X26. [transcribeChunkedAudio] throws the error of the first chunk that
    [transcribeAudio] fails on, whatever the chunks after it are; no
    combined transcript is returned. *)
Theorem transcribeChunkedAudio_first_error
    (transcribeAudio : Blob -> Result (WhisperResponse.t num))
    (before after : list Blob) (chunk : Blob) (e : Exception)
    (Hbefore : Forall (fun c => exists r, transcribeAudio c = Ok r) before)
    (Hchunk : transcribeAudio chunk = Throw e) :
  transcribeChunkedAudio add zero transcribeAudio (before ++ chunk :: after) = Throw e.
Proof.
  unfold transcribeChunkedAudio.
  now rewrite (transcribe_chunks_first_error _ _ _ _ _ Hbefore Hchunk).
Qed.

End CombinerErrors.

(** * Utility functions *)

Lemma colors_NoDup : NoDup colors.
Proof. apply (bool_decide_unpack (NoDup colors)). vm_compute. exact I. Qed.

(** X27. For indices that are not negative [generateSpeakerColor] returns
    a colour of the palette, and two indices get the same colour exactly
    when they differ by a multiple of 8: the first eight speakers have
    eight different colours. *)
Theorem generateSpeakerColor_period (i j : Z) (Hi : 0 <= i) (Hj : 0 <= j) :
  (exists color, generateSpeakerColor i = Some color /\ color ∈ colors)
  /\ (generateSpeakerColor i = generateSpeakerColor j <-> i mod 8 = j mod 8).
Proof.
  assert (Hgen : forall k, 0 <= k ->
            generateSpeakerColor k = colors !! Z.to_nat (k mod 8)).
  { intros k Hk. unfold generateSpeakerColor. cbn zeta.
    change (Z.of_nat (length colors)) with 8.
    rewrite Z.rem_mod_nonneg by lia.
    pose proof (Z.mod_pos_bound k 8 ltac:(lia)).
    destruct (Z.ltb_spec (k mod 8) 0); [lia | reflexivity]. }
  assert (Hsome : forall k, 0 <= k -> exists color, colors !! Z.to_nat (k mod 8) = Some color).
  { intros k Hk. apply lookup_lt_is_Some_2.
    pose proof (Z.mod_pos_bound k 8 ltac:(lia)).
    change (length colors) with 8%nat. lia. }
  rewrite !Hgen by assumption. split.
  - destruct (Hsome i Hi) as [color Hc]. exists color. split; [exact Hc|].
    eapply list_elem_of_lookup_2; exact Hc.
  - split.
    + intros Heq. destruct (Hsome i Hi) as [color Hc].
      pose proof (NoDup_lookup _ _ _ _ colors_NoDup Hc (eq_trans (eq_sym Heq) Hc)) as H.
      pose proof (Z.mod_pos_bound i 8 ltac:(lia)).
      pose proof (Z.mod_pos_bound j 8 ltac:(lia)). lia.
    + intros ->. reflexivity.
Qed.

Lemma substring_prefix (n : nat) (s : string) :
  (n <= String.length s)%nat ->
  exists dropped,
    s = String.substring 0 n s ++ dropped
    /\ String.length (String.substring 0 n s) = n.
Proof.
  revert s. induction n as [|n IH]; intros s Hn.
  - exists s. destruct s; split; reflexivity.
  - destruct s as [|c s]; [cbn in Hn; lia|].
    destruct (IH s ltac:(cbn in Hn; lia)) as (dropped & Hs & Hlen).
    exists dropped. cbn [String.substring]. rewrite append_String.
    split; [f_equal; exact Hs | cbn; f_equal; exact Hlen].
Qed.

(** X28. [truncate] returns a text that fits unchanged; of a longer text
    it keeps the first [maxLength] units (none for a negative [maxLength])
    and puts three dots after them, so that the result is three units
    longer than what it keeps. *)
Theorem truncate_keeps_prefix (text : string) (maxLength : Z) :
  (Z.of_nat (String.length text) <= maxLength -> truncate text maxLength = text)
  /\ (maxLength < Z.of_nat (String.length text) ->
      exists kept dropped,
        text = kept ++ dropped
        /\ String.length kept = Z.to_nat maxLength
        /\ truncate text maxLength = kept ++ "...").
Proof.
  unfold truncate.
  destruct (Z.leb_spec (Z.of_nat (String.length text)) maxLength); split; try lia.
  - reflexivity.
  - intros _.
    destruct (substring_prefix (Z.to_nat maxLength) text ltac:(lia))
      as (dropped & Htext & Hlen).
    exists (String.substring 0 (Z.to_nat maxLength) text), dropped. auto.
Qed.

(** ** [retry] *)

Lemma retry_loop_run {T : Type} (fn : nat -> Result T) (errors : nat -> Exception)
    (delay backoff : Z) (failures : nat) :
  forall attempt remaining,
    (failures <= remaining)%nat ->
    (forall k, (attempt <= k < attempt + failures)%nat -> fn k = Throw (errors k)) ->
    ((failures < remaining)%nat -> exists value, fn (attempt + failures)%nat = Ok value) ->
    retry_loop fn delay backoff attempt remaining
    = (fn (attempt + failures)%nat, retry_events errors delay backoff attempt failures).
Proof.
  induction failures as [|failures IH]; intros attempt remaining Hle Hfail Hok.
  - rewrite Nat.add_0_r in *. unfold retry_events. cbn [seq map].
    destruct remaining as [|remaining].
    + cbn. destruct (fn attempt); reflexivity.
    + destruct (Hok ltac:(lia)) as [value Hv]. cbn. rewrite Hv. reflexivity.
  - destruct remaining as [|remaining]; [lia|].
    cbn [retry_loop]. rewrite (Hfail attempt) by lia.
    rewrite (IH (S attempt) remaining).
    + replace (S attempt + failures)%nat with (attempt + S failures)%nat by lia.
      reflexivity.
    + lia.
    + intros k Hk. apply Hfail. lia.
    + intros Hlt. replace (S attempt + failures)%nat with (attempt + S failures)%nat by lia.
      apply Hok. lia.
Qed.

(** X29. [retry] returns what the first successful call of [fn] returns,
    if one of the first [retries + 1] calls succeeds, and throws the error
    of call number [retries + 1] otherwise. After each failed call [k]
    (counted from 0) but the last possible one it reports the error with
    the attempt number [k + 1] and sleeps [delay * backoff ^ k]
    milliseconds, and it does neither at any other time. *)
Theorem retry_outcome {T : Type} (fn : nat -> Result T) (errors : nat -> Exception)
    (retries : nat) (delay backoff : Z) (failures : nat)
    (Hfailures : (failures <= retries)%nat)
    (Hfail : forall k, (k < failures)%nat -> fn k = Throw (errors k))
    (Hok : (failures < retries)%nat -> exists value, fn failures = Ok value) :
  retry fn retries delay backoff
  = (fn failures, retry_events errors delay backoff 0 failures).
Proof.
  unfold retry.
  rewrite (retry_loop_run fn errors delay backoff failures 0 retries);
    [reflexivity | exact Hfailures | |].
  - intros k Hk. apply Hfail. lia.
  - exact Hok.
Qed.

End Program.

(** * The theorems at concrete inputs

    The closed examples run on the sample engine. *)

#[local] Existing Instance sample_host.


Lemma archived_meeting_valid_dates : valid_dates archived_meeting.
Proof.
  split; [exact jan_1_in_range|]. split; [exact jan_1_in_range|].
  split; [exact feb_1_in_range|]. intros s [= <-]. exact feb_1_in_range.
Qed.

Lemma C3_witness :
  exists db,
    meetingToDB archived_meeting = Ok db
    /\ dbToMeeting db = with_audio archived_meeting new_Blob.
Proof. exact (C3_storage_round_trip archived_meeting archived_meeting_valid_dates). Defined.

Lemma C6_witness :
  exists st' updated,
    updateMeeting saved_store feb_1 "m1" (title_update "Budget sync") = Ok st'
    /\ meetings st' !! "m1" = Some updated
    /\ MeetingDB.title updated = "Budget sync"
    /\ MeetingDB.updatedAt updated = "2025-02-01T00:00:00.000Z"
    /\ MeetingDB.audioBlob updated = MeetingDB.audioBlob sample_record.
Proof.
  destruct (C6_update_title_isolation saved_store feb_1 "m1" "Budget sync" sample_record
              saved_store_reachable saved_store_record)
    as (st' & updated & Hrun & Hget & Htitle & Hupd & _ & _ & _ & Haudio & _).
  exists st', updated. repeat split; assumption.
Defined.

Lemma sample_record_mentions_budget : mentions "budget" (dbToMeeting sample_record).
Proof.
  right. left. exists "We reviewed the ", "BUDGET", ".". split; reflexivity.
Qed.

Lemma C7_witness : dbToMeeting sample_record ∈ searchMeetings saved_store "budget".
Proof.
  apply (C7_search_completeness saved_store "budget" "m1" sample_record).
  - discriminate.
  - exact saved_store_record.
  - exact sample_record_mentions_budget.
Defined.

(** C7 (the claim as stated fails). The query ΟΔΟΣ occurs as it is in the
    title ΟΔΟΣΕΙΣ, at its start. [toLowerCase] writes the sigma that ends
    the query as a final sigma and the same sigma inside the title as a
    plain one, so the filter of [searchMeetings] does not find the query
    in a meeting with that title. *)
Lemma C7_counterexample :
  Unicode.odos <> []
  /\ Unicode.odoseis = (Unicode.odos ++ [917; 921; 931]%N)%list
  /\ Unicode.toLowerCase Unicode.odos = Some [959; 948; 959; 962]%N
  /\ Unicode.toLowerCase Unicode.odoseis = Some [959; 948; 959; 963; 949; 953; 962]%N
  /\ Unicode.matches_query Unicode.odos
       {| Unicode.title := Unicode.odoseis; Unicode.transcript := [];
          Unicode.tags := []; Unicode.summary := None |}
     = Some false.
Proof.
  split; [discriminate|]. split; [reflexivity|]. split; [reflexivity|].
  split; reflexivity.
Qed.

Lemma sample_document_dates_readable : dates_readable sample_document.
Proof.
  assert (H1 : Date_parse "2025-01-01T00:00:00.000Z" = DateAt jan_1) by (vm_compute; reflexivity).
  assert (H2 : Date_parse "2025-02-01T00:00:00.000Z" = DateAt feb_1) by (vm_compute; reflexivity).
  unfold dates_readable. cbn [sample_document ExportedMeeting.metadata ExportedMeeting.summary
    Metadata.date Metadata.createdAt Metadata.updatedAt].
  rewrite H1, H2. split; [exact jan_1_in_range|]. split; [exact jan_1_in_range|].
  split; [exact feb_1_in_range|]. intros s Hs. discriminate Hs.
Qed.

Lemma C4_witness :
  (exists st' r,
      importMeeting saved_store sample_archive keep_both "m2" = Ok (st', "m2")
      /\ meetings st' !! "m2" = Some r
      /\ holds_import sample_archive sample_document "m2" r
      /\ meetings st' !! "m1" = Some sample_record)
  /\ importMeeting saved_store sample_archive skip "m2" = Ok (saved_store, "m1")
  /\ (exists st' r,
        importMeeting saved_store sample_archive replace "m2" = Ok (st', "m1")
        /\ meetings st' !! "m1" = Some r
        /\ holds_import sample_archive sample_document "m1" r
        /\ forall k, k <> "m1" -> meetings st' !! k = meetings saved_store !! k).
Proof.
  destruct (C4_duplicate_policy saved_store sample_archive sample_document sample_record "m2"
              saved_store_reachable eq_refl saved_store_record
              sample_document_dates_readable)
    as ((st1 & r1 & Hrun1 & Hget1 & Hr1 & _ & Hkeep & _) & Hskip
        & (st3 & r3 & Hrun3 & Hget3 & Hr3 & Hframe & _)).
  split; [|split].
  - exists st1, r1. split; [exact Hrun1|]. split; [exact Hget1|]. split; [exact Hr1|].
    apply Hkeep. discriminate.
  - exact Hskip.
  - exists st3, r3. split; [exact Hrun3|]. split; [exact Hget3|]. split; [exact Hr3|].
    exact Hframe.
Defined.

(** C4 (the claim as stated fails). A meeting is stored under an id that
    [crypto.randomUUID()] has drawn. When an archive with that id is
    imported with policy keep-both and [crypto.randomUUID()] draws the same
    identifier again, which the code does not check, the import returns
    that id, the record of the existing meeting is overwritten by the
    imported one, and the store holds one meeting, not two. *)
Lemma C4_counterexample :
  exists st' existing r,
    reachable drawn_store
    /\ is_uuid_v4 drawn_id = true
    /\ meetings drawn_store !! drawn_id = Some existing
    /\ metadata_json drawn_archive = Some (Stringified drawn_document)
    /\ Metadata.id (ExportedMeeting.metadata drawn_document) = drawn_id
    /\ importMeeting drawn_store drawn_archive keep_both drawn_id = Ok (st', drawn_id)
    /\ meetings st' !! drawn_id = Some r
    /\ MeetingDB.title existing = "Weekly sync"
    /\ MeetingDB.title r = "Weekly sync (restored)"
    /\ size (meetings st') = 1%nat.
Proof.
  assert (Hreach : reachable drawn_store).
  { apply (reach_saveMeeting empty_store drawn_meeting drawn_store reach_empty);
      [|reflexivity].
    split; [exact jan_1_in_range|]. split; [exact jan_1_in_range|].
    split; [exact jan_1_in_range|]. intros s Hs. discriminate Hs. }
  eexists _, _, _. split; [exact Hreach|].
  split; [vm_compute; reflexivity|].
  split; [vm_compute; reflexivity|].
  split; [reflexivity|]. split; [reflexivity|].
  split; [vm_compute; reflexivity|].
  split; [vm_compute; reflexivity|].
  split; [reflexivity|]. split; [reflexivity|].
  vm_compute. reflexivity.
Qed.

Lemma saved_store_get : getMeeting saved_store "m1" = Some sample_meeting.
Proof. vm_compute. reflexivity. Qed.

Lemma C2_witness :
  exists zip st',
    exportMeeting (H := sample_locale) saved_store "m1" = Ok zip
    /\ importMeeting saved_store zip replace "m2" = Ok (st', "m1")
    /\ getMeeting st' "m1"
       = Some (with_audio sample_meeting
                 {| blob_bytes := [Byte.x1a; Byte.x45]; blob_type := EmptyString |}).
Proof.
  apply (C2_export_import_round_trip saved_store "m1" "m2" sample_meeting).
  - exact saved_store_reachable.
  - exact saved_store_get.
  - discriminate.
Defined.

Lemma C5_witness :
  exists r,
    costs ledger_store !! "2025-01" = Some r
    /\ CostTrackingDB.transcriptionCost r = thirty_cents_and_a_bit
    /\ CostTrackingDB.meetingCount r = 3%float
    /\ CostTrackingDB.summarizationCost r = 0%float
    /\ CostTrackingDB.totalCost r = thirty_cents_and_a_bit.
Proof.
  apply (C5_cost_accumulation empty_store january january january jan_1 jan_1 jan_1
           "m1" "m2" "m3"); reflexivity.
Defined.

Lemma sample_chunks_non_decreasing (r : WhisperResponse.t Z) :
  In r [first_response; second_response] ->
  non_decreasing Z.le (0 :: timeline (segments_or_empty r)).
Proof.
  intros [<-|[<-|[]]]; cbn; lia.
Qed.

Lemma C8_witness :
  exists combined,
    transcribeChunkedAudio Z.add 0 sample_transcribeAudio [first_chunk; second_chunk]
      = Ok combined
    /\ WhisperResponse.segments combined
       = Some [segment_at 0 2 "good"; segment_at 2 5 "morning"; segment_at 6 8 "everyone"]
    /\ non_decreasing Z.le [0; 2; 2; 5; 6; 8].
Proof.
  destruct (C8_chunk_offsets Z.add 0 Z.le Z.le_trans
              (fun a b c H => Zplus_le_compat_r a b c H)
              (fun c => Z.le_refl c)
              sample_transcribeAudio [first_chunk; second_chunk]
              [first_response; second_response])
    as (combined & Hrun & Hsegs & Hmono).
  - discriminate.
  - repeat constructor.
  - exists combined. split; [exact Hrun|]. split; [exact Hsegs|].
    exact (Hmono sample_chunks_non_decreasing).
Defined.

(** C2 (the claim as stated fails). The meeting stored by [saveMeeting]
    and flagged by [updateMeeting('m1', { archived: true })] still has its
    two bytes of audio; it is exported and imported with policy replace
    without error, and the meeting then stored under its id has no audio:
    a field other than [updatedAt] has changed. *)
Lemma C2_counterexample :
  exists zip st' m m',
    reachable flagged_store
    /\ getMeeting flagged_store "m1" = Some m
    /\ exportMeeting (H := sample_locale) flagged_store "m1" = Ok zip
    /\ importMeeting flagged_store zip replace EmptyString = Ok (st', "m1")
    /\ getMeeting st' "m1" = Some m'
    /\ blob_bytes (Meeting.audioBlob m) = [Byte.x1a; Byte.x45]
    /\ blob_bytes (Meeting.audioBlob m') = [].
Proof.
  eexists _, _, _, _.
  split; [exact flagged_store_reachable|].
  split; [vm_compute; reflexivity|].
  split; [vm_compute; reflexivity|].
  split; [vm_compute; reflexivity|].
  split; [vm_compute; reflexivity|].
  split; reflexivity.
Qed.

(** C5 (the claim as stated fails). After the three calls on an empty
    ledger in January 2025 the record for 2025-01 has a [transcriptionCost]
    and a [totalCost] that JavaScript's [==] tells apart from 0.30. *)
Lemma C5_counterexample :
  exists r,
    costs empty_store !! "2025-01" = None
    /\ costs ledger_store !! "2025-01" = Some r
    /\ PrimFloat.eqb (CostTrackingDB.transcriptionCost r) thirty_cents = false
    /\ PrimFloat.eqb (CostTrackingDB.totalCost r) thirty_cents = false.
Proof.
  eexists. split; [reflexivity|]. split; [vm_compute; reflexivity|].
  split; reflexivity.
Qed.

(** ** The further properties at concrete inputs *)

Lemma archived_meeting_proper : proper_meeting archived_meeting.
Proof.
  split; [exact feb_1_in_range|]. split; [exact jan_1_in_range|].
  split; [exact feb_1_in_range|]. intros s [= <-]. exact feb_1_in_range.
Qed.

Lemma sample_meeting_proper : proper_meeting sample_meeting.
Proof.
  split; [exact jan_1_in_range|]. split; [exact jan_1_in_range|].
  split; [exact jan_1_in_range|]. intros s Hs. discriminate Hs.
Qed.

Lemma two_meetings_store_reachable : reachable two_meetings_store.
Proof.
  apply (reach_saveMeeting saved_store archived_meeting two_meetings_store
           saved_store_reachable archived_meeting_proper).
  reflexivity.
Qed.

Lemma getAllMeetings_sorted_witness :
  StronglySorted not_older (getAllMeetings two_meetings_store)
  /\ getAllMeetings two_meetings_store
     ≡ₚ map dbToMeeting (map snd (map_to_list (meetings two_meetings_store))).
Proof.
  exact (getAllMeetings_sorted_newest_first two_meetings_store two_meetings_store_reachable).
Defined.

Lemma saveMeeting_then_getMeeting_witness :
  getMeeting two_meetings_store "m2" = Some (with_audio archived_meeting new_Blob)
  /\ (forall id, id <> "m2" -> getMeeting two_meetings_store id = getMeeting saved_store id)
  /\ costs two_meetings_store = costs saved_store.
Proof.
  exact (saveMeeting_then_getMeeting saved_store two_meetings_store archived_meeting
           archived_meeting_proper eq_refl).
Defined.

Lemma archiveMeeting_effect_witness :
  exists st' r,
    archiveMeeting saved_store feb_1 "m1" = Ok st'
    /\ meetings st' !! "m1" = Some r
    /\ MeetingDB.archived r = true
    /\ MeetingDB.audioBlob r = Some new_Blob.
Proof.
  destruct (archiveMeeting_effect saved_store feb_1 "m1" sample_record
              saved_store_reachable saved_store_record)
    as (st' & r & Hrun & Hget & Harchived & Haudio & _).
  exists st', r. repeat split; assumption.
Defined.

Lemma updateMeeting_merges_witness :
  exists r,
    meetings retitled_store !! "m1" = Some r
    /\ MeetingDB.title r = "Budget sync"
    /\ MeetingDB.transcript r = "We reviewed the BUDGET."
    /\ MeetingDB.updatedAt r = "2025-02-01T00:00:00.000Z".
Proof.
  destruct (updateMeeting_merges_named_fields saved_store retitled_store feb_1 "m1"
              (title_update "Budget sync") sample_record
              saved_store_reachable saved_store_record eq_refl)
    as (r & Hget & _ & _ & Hupdated & Htitle & Htranscript & _).
  exists r. repeat split; assumption.
Defined.

Lemma getDatabaseStats_witness :
  DatabaseStats.totalMeetings (getDatabaseStats two_meetings_store sample_storage)
  = S (DatabaseStats.totalMeetings (getDatabaseStats saved_store sample_storage))
  /\ DatabaseStats.archivedMeetings (getDatabaseStats two_meetings_store sample_storage)
     = (DatabaseStats.archivedMeetings (getDatabaseStats saved_store sample_storage) + 1)%nat.
Proof.
  destruct (getDatabaseStats_after_save saved_store two_meetings_store archived_meeting
              sample_storage archived_meeting_proper eq_refl eq_refl)
    as (_ & _ & _ & Htotal & Harchived).
  split; assumption.
Defined.

Lemma auto_archive_witness :
  (forall m, m ∈ getMeetingsForAutoArchive archived_store (DateAt feb_1) ->
     Meeting.id m <> "m1")
  /\ (forall m cutoff', m ∈ getMeetingsForAutoArchive archived_store (DateAt feb_1) ->
        m ∉ getArchivedMeetingsForDeletion archived_store cutoff').
Proof.
  exact (archived_is_no_auto_archive_candidate saved_store archived_store feb_1 "m1"
           (DateAt feb_1) saved_store_reachable eq_refl).
Defined.

Lemma logCost_witness :
  exists r,
    costs (logCost empty_store january jan_1 "m1" transcription ten_cents) !! "2025-01" = Some r
    /\ CostTrackingDB.meetingCount r = 1%float
    /\ CostTrackingDB.transcriptionCost r = ten_cents
    /\ CostTrackingDB.summarizationCost r = 0%float.
Proof.
  destruct (logCost_accumulates empty_store january jan_1 "m1" transcription ten_cents
              reach_empty jan_1_in_range)
    as (_ & _ & r & Hget & _ & Hcount & Htranscription & Hsummarization).
  exists r. repeat split; assumption.
Defined.

Lemma exportMeeting_contents_witness :
  exists zip e,
    exportMeeting (H := sample_locale) saved_store "m1" = Ok zip
    /\ metadata_json zip = Some (Stringified e)
    /\ Metadata.id (ExportedMeeting.metadata e) = "m1"
    /\ audio_webm zip = Some [Byte.x1a; Byte.x45]
    /\ summary_md zip = None.
Proof.
  destruct (exportMeeting_contents (H := sample_locale) saved_store "m1" sample_meeting
              saved_store_reachable saved_store_get)
    as (zip & e & Hrun & Hmeta & Hid & _ & _ & Haudio & Hhas & Hsummary).
  exists zip, e. split; [exact Hrun|]. split; [exact Hmeta|]. split; [exact Hid|]. split.
  - rewrite Haudio. destruct (ExportedMeeting.hasAudio e); [reflexivity|].
    destruct Hhas as [_ Hhas]. discriminate Hhas. split; [reflexivity | discriminate].
  - destruct (summary_md zip) as [text|] eqn:Hmd; [|reflexivity].
    destruct Hsummary as [Hsummary _]. destruct (Hsummary ltac:(eauto)) as [s Hs].
    discriminate Hs.
Defined.



Lemma export_import_skip_witness :
  exists ids,
    importAllMeetings saved_store exported_bulk skip (fun _ => "m9") = Ok (saved_store, ids)
    /\ length ids = length (List.filter has_metadata (folders exported_bulk))
    /\ Forall (fun id => is_Some (meetings saved_store !! id)) ids.
Proof.
  apply (export_all_then_import_all_skip (H := sample_locale) saved_store feb_1 exported_bulk
           (fun _ => "m9") saved_store_reachable).
  vm_compute. reflexivity.
Defined.

Lemma importMeeting_without_duplicate_witness :
  exists st' r,
    importMeeting empty_store sample_archive keep_both "m2" = Ok (st', "m1")
    /\ meetings st' !! "m1" = Some r
    /\ holds_import sample_archive sample_document "m1" r
    /\ (forall k, k <> "m1" -> meetings st' !! k = meetings empty_store !! k)
    /\ costs st' = costs empty_store.
Proof.
  exact (importMeeting_without_duplicate empty_store sample_archive sample_document
           keep_both "m2" eq_refl eq_refl sample_document_dates_readable).
Defined.

Lemma chunkAudioFile_witness :
  exists chunks,
    chunkAudioFile five_bytes 2 = Some chunks
    /\ concat (map blob_bytes chunks) = blob_bytes five_bytes
    /\ Z.of_nat (length chunks) = 3.
Proof.
  destruct (chunkAudioFile_partitions_blob five_bytes 2 ltac:(lia))
    as (chunks & Hrun & Hbytes & _ & _ & Hlength & _).
  exists chunks. split; [exact Hrun|]. split; [exact Hbytes|exact Hlength].
Defined.

Lemma parseTimestamp_witness : parseTimestamp (formatTimestamp 3725) = 3725.
Proof. apply (parseTimestamp_formatTimestamp 3725). lia. Defined.

Lemma transcribeChunkedAudio_error_witness :
  transcribeChunkedAudio Z.add 0 failing_transcribeAudio
    ([first_chunk] ++ second_chunk :: [first_chunk])
  = Throw (Error "Whisper API error: rate limit").
Proof.
  apply (transcribeChunkedAudio_first_error Z.add 0 failing_transcribeAudio
           [first_chunk] [first_chunk] second_chunk).
  - repeat constructor. exists first_response. reflexivity.
  - reflexivity.
Defined.

Lemma generateSpeakerColor_witness :
  (exists color, generateSpeakerColor 1 = Some color /\ color ∈ colors)
  /\ (generateSpeakerColor 1 = generateSpeakerColor 9 <-> 1 mod 8 = 9 mod 8).
Proof. apply (generateSpeakerColor_period 1 9); lia. Defined.

Lemma retry_witness :
  retry_default flaky_request
  = (Ok "done",
     [ {| RetryEvent.error := Error "timeout"; RetryEvent.attempt := 1;
          RetryEvent.slept := 1000 |};
       {| RetryEvent.error := Error "timeout"; RetryEvent.attempt := 2;
          RetryEvent.slept := 2000 |} ]).
Proof.
  apply (retry_outcome flaky_request (fun _ => Error "timeout") 3 1000 2 2).
  - lia.
  - intros [|[|k]] Hk; [reflexivity | reflexivity | lia].
  - intros _. exists "done". reflexivity.
Defined.
